(** * Telltale: the diagnostic engine and its truth-table harness

    A shallow embedding of [telltale/core/models.py],
    [telltale/core/diagnostic.py] and [telltale/core/truth_table.py].

    The engine is written as Cypher queries run against a graph store.  The
    queries are embedded clause by clause: every [WITH]/[collect]/[UNWIND]
    stage of a query is one definition below, over a read snapshot of the
    stored graph.  Numbers (sensor values, thresholds) are canonical
    rationals [Qc]: the rational that a stored or given number denotes,
    compared by value.  Where the code computes with floats
    ([threshold - 0.1]) the result is rounded as binary64 arithmetic rounds
    it ([binary64]). *)

From Stdlib Require Import QArith Qcanon.
From stdpp Require Import base decidable option list sorting strings gmap.

Local Open Scope string_scope.
Local Open Scope list_scope.

(* ===================================================================== *)
(** * models.py *)
(* ===================================================================== *)

(** [class EvidenceStrength(str, Enum)] *)
Inductive EvidenceStrength :=
  | CONFIRMS
  | RULES_OUT
  | SUGGESTS
  | SUGGESTS_AGAINST
  | INCONCLUSIVE.

#[global] Instance EvidenceStrength_eq_dec : EqDecision EvidenceStrength.
Proof. solve_decision. Defined.

(** The node label: [FailureMode], [Observation] or [SensorReading]. *)
Inductive NodeType := FailureModeT | ObservationT | SensorReadingT.

#[global] Instance NodeType_eq_dec : EqDecision NodeType.
Proof. solve_decision. Defined.

(** [class Node]: the element id given by the store, the name and the
    label.  Two nodes are the same node when the records are equal. *)
Record Node := mkNode {
  node_id : nat;
  node_name : string;
  node_type : NodeType
}.

#[global] Instance Node_eq_dec : EqDecision Node.
Proof. solve_decision. Defined.

(** [threshold: Optional[Union[float, List[Union[str, float]]]]] *)
Inductive Threshold :=
  | TNum (t : Qc)
  | TList (items : list (string + Qc)).

#[global] Instance Threshold_eq_dec : EqDecision Threshold.
Proof. solve_decision. Defined.

(** [class ComparisonOperator(str, Enum)].  The store keeps the operator as
    the enum's string value ([save_relationship] writes
    [relationship.operator.value]) and the queries compare it with string
    literals, so an edge carries the string. *)
Inductive ComparisonOperator :=
  | EQUALS
  | LESS_THAN
  | GREATER_THAN
  | LESS_THAN_EQUAL
  | GREATER_THAN_EQUAL
  | IN.

Definition operator_value (op : ComparisonOperator) : string :=
  match op with
  | EQUALS => "="
  | LESS_THAN => "<"
  | GREATER_THAN => ">"
  | LESS_THAN_EQUAL => "<="
  | GREATER_THAN_EQUAL => ">="
  | IN => "in"
  end.

(** [class CausesLink(Relationship)] *)
Record CausesLink := mkCauses {
  c_source : Node;
  c_target : Node
}.

(** [class EvidenceLink(Relationship)] with its [EvidenceProperties]; a
    property that is not stored reads as null ([None]). *)
Record EvidenceLink := mkEvidence {
  e_source : Node;
  e_target : Node;
  e_when_true_strength : option EvidenceStrength;
  e_when_false_strength : option EvidenceStrength;
  e_operator : option string;
  e_threshold : option Threshold
}.

(** The stored graph, as the queries see it.  [nodes] lists every node
    once; the edge lists may hold parallel edges. *)
Record Graph := mkGraph {
  nodes : list Node;
  causes : list CausesLink;
  evidence : list EvidenceLink
}.

(** [class DiagnosticResult(BaseModel)] ([explanation] stays [None] unless
    [include_explanations] is set, and is left out). *)
Record DiagnosticResult := mkResult {
  failure_mode : string;
  confidence : EvidenceStrength;
  supporting_evidence : list string;
  contradicting_evidence : list string
}.

#[global] Instance DiagnosticResult_eq_dec : EqDecision DiagnosticResult.
Proof. solve_decision. Defined.

(* ===================================================================== *)
(** * Cypher's comparison operators *)
(* ===================================================================== *)

(** Cypher's logic is three-valued: a comparison with null, or an ordering
    comparison between a number and a list, is null ([None]).  A [CASE WHEN]
    branch and a [WHERE] clause are taken only when the condition is true. *)
Module Cypher.

Definition tv := option bool.

Definition and (a b : tv) : tv :=
  match a, b with
  | Some false, _ | _, Some false => Some false
  | Some true, Some true => Some true
  | _, _ => None
  end.

Definition is_true (a : tv) : bool :=
  match a with Some true => true | _ => false end.

(** [operator = '<'] on a stored string property. *)
Definition str_eq (a : option string) (lit : string) : tv :=
  match a with
  | Some s => Some (bool_decide (s = lit))
  | None => None
  end.

Definition lt (v : option Qc) (t : option Threshold) : tv :=
  match v, t with
  | Some v, Some (TNum t) => Some (bool_decide (v < t)%Qc)
  | _, _ => None
  end.

Definition gt (v : option Qc) (t : option Threshold) : tv :=
  match v, t with
  | Some v, Some (TNum t) => Some (bool_decide (t < v)%Qc)
  | _, _ => None
  end.

Definition le (v : option Qc) (t : option Threshold) : tv :=
  match v, t with
  | Some v, Some (TNum t) => Some (bool_decide (v <= t)%Qc)
  | _, _ => None
  end.

Definition ge (v : option Qc) (t : option Threshold) : tv :=
  match v, t with
  | Some v, Some (TNum t) => Some (bool_decide (t <= v)%Qc)
  | _, _ => None
  end.

(** Equality between a number and a list is false, not null. *)
Definition eq (v : option Qc) (t : option Threshold) : tv :=
  match v, t with
  | Some v, Some (TNum t) => Some (bool_decide (v = t))
  | Some _, Some (TList _) => Some false
  | _, _ => None
  end.

Definition ne (v : option Qc) (t : option Threshold) : tv :=
  negb <$> eq v t.

End Cypher.

(* ===================================================================== *)
(** * diagnostic.py: [DiagnosticEngine.diagnose] *)
(* ===================================================================== *)

(** The [evidence_type] of a map: ['observation'] or ['sensor']. *)
Inductive EvidenceType := EvObservation | EvSensor.

(** One element of [all_evidence]: the map built inside [collect({...})].
    A key the map does not have reads as null. *)
Record Evidence := mkEv {
  ev_name : option string;
  ev_strength : option EvidenceStrength;
  ev_when_false_strength : option EvidenceStrength;
  ev_evidence_type : EvidenceType;
  ev_operator : option string;
  ev_threshold : option Threshold
}.

Section Diagnose.

Variable g : Graph.
(** [$observations] and [$sensor_readings]; [$sensor_names] is the key set
    of the latter. *)
Variable observations : list string.
Variable sensor_readings : gmap string Qc.

(** [EXISTS { MATCH (fm)-[:CAUSES]->(o:Observation)
             WHERE o.name IN $observations }] *)
Definition explains_observation (fm : Node) : bool :=
  existsb (fun c =>
    bool_decide (c_source c = fm)
    && bool_decide (node_type (c_target c) = ObservationT)
    && bool_decide (node_name (c_target c) ∈ observations)) (causes g).

(** [MATCH (fm:FailureMode) WHERE EXISTS {...}] *)
Definition candidates : list Node :=
  filter (fun fm => node_type fm = FailureModeT
                    ∧ explains_observation fm = true) (nodes g).

(** [(o:Observation)-[e:EVIDENCE_FOR]->(fm) WHERE o.name IN $observations] *)
Definition observation_edges (fm : Node) : list EvidenceLink :=
  filter (fun e => e_target e = fm
                   ∧ node_type (e_source e) = ObservationT
                   ∧ node_name (e_source e) ∈ observations) (evidence g).

(** [(s:SensorReading)-[e:EVIDENCE_FOR]->(fm) WHERE s.name IN $sensor_names] *)
Definition sensor_edges (fm : Node) : list EvidenceLink :=
  filter (fun e => e_target e = fm
                   ∧ node_type (e_source e) = SensorReadingT
                   ∧ is_Some (sensor_readings !! node_name (e_source e)))
         (evidence g).

Definition observation_map (e : EvidenceLink) : Evidence :=
  {| ev_name := Some (node_name (e_source e));
     ev_strength := e_when_true_strength e;
     ev_when_false_strength := None;
     ev_evidence_type := EvObservation;
     ev_operator := None;
     ev_threshold := None |}.

Definition sensor_map (e : EvidenceLink) : Evidence :=
  {| ev_name := Some (node_name (e_source e));
     ev_strength := e_when_true_strength e;
     ev_when_false_strength := e_when_false_strength e;
     ev_evidence_type := EvSensor;
     ev_operator := e_operator e;
     ev_threshold := e_threshold e |}.

(** The row an [OPTIONAL MATCH] yields when nothing matches: [o], [s] and
    [e] are null, so is every property read from them. *)
Definition null_map (ty : EvidenceType) : Evidence :=
  {| ev_name := None;
     ev_strength := None;
     ev_when_false_strength := None;
     ev_evidence_type := ty;
     ev_operator := None;
     ev_threshold := None |}.

(** [OPTIONAL MATCH ... WITH fm, collect({...}) as observation_evidence] *)
Definition observation_evidence (fm : Node) : list Evidence :=
  match observation_edges fm with
  | [] => [null_map EvObservation]
  | es => observation_map <$> es
  end.

(** [OPTIONAL MATCH ... WITH fm, observation_evidence,
     collect({...}) as sensor_evidence] *)
Definition sensor_evidence (fm : Node) : list Evidence :=
  match sensor_edges fm with
  | [] => [null_map EvSensor]
  | es => sensor_map <$> es
  end.

(** [WITH fm, observation_evidence + sensor_evidence as all_evidence] *)
Definition all_evidence (fm : Node) : list Evidence :=
  observation_evidence fm ++ sensor_evidence fm.

(** [UNWIND all_evidence as evidence WITH fm, evidence
     WHERE evidence.name IS NOT NULL] *)
Definition evidence_rows (fm : Node) : list Evidence :=
  filter (fun ev => is_Some (ev_name ev)) (all_evidence fm).

(** [$sensor_readings[evidence_name]] *)
Definition reading (ev : Evidence) : option Qc :=
  ev_name ev ≫= fun n => sensor_readings !! n.

(** [... END as effective_strength] *)
Definition effective_strength (ev : Evidence) : option EvidenceStrength :=
  match ev_evidence_type ev with
  | EvSensor =>
      if Cypher.is_true (Cypher.and (Cypher.str_eq (ev_operator ev) "<")
                           (Cypher.lt (reading ev) (ev_threshold ev)))
      then ev_strength ev
      else if Cypher.is_true (Cypher.and (Cypher.str_eq (ev_operator ev) ">")
                                (Cypher.gt (reading ev) (ev_threshold ev)))
      then ev_strength ev
      else if Cypher.is_true (Cypher.and (Cypher.str_eq (ev_operator ev) "=")
                                (Cypher.eq (reading ev) (ev_threshold ev)))
      then ev_strength ev
      else None
  | EvObservation => ev_strength ev
  end.

(** The condition shared by [contradicting_flag] and
    [when_false_strength_value]: the first [WHEN] that is true. *)
Definition comparison_fails (ev : Evidence) : bool :=
  Cypher.is_true (Cypher.and (Cypher.str_eq (ev_operator ev) "<")
                    (Cypher.ge (reading ev) (ev_threshold ev)))
  || Cypher.is_true (Cypher.and (Cypher.str_eq (ev_operator ev) ">")
                       (Cypher.le (reading ev) (ev_threshold ev)))
  || Cypher.is_true (Cypher.and (Cypher.str_eq (ev_operator ev) "=")
                       (Cypher.ne (reading ev) (ev_threshold ev))).

(** [... END as contradicting_flag] *)
Definition contradicting_flag (ev : Evidence) : option string :=
  match ev_evidence_type ev with
  | EvSensor => if comparison_fails ev then Some "contradicting" else None
  | EvObservation => None
  end.

(** [... END as when_false_strength_value] *)
Definition when_false_strength_value (ev : Evidence)
  : option EvidenceStrength :=
  match ev_evidence_type ev with
  | EvSensor => if comparison_fails ev then ev_when_false_strength ev else None
  | EvObservation => None
  end.

(** [collect(evidence_name) as supporting_evidence] ([collect] skips
    nulls). *)
Definition collect_supporting_evidence (rows : list Evidence) : list string :=
  omap ev_name rows.

(** [collect(effective_strength) as strengths] *)
Definition collect_strengths (rows : list Evidence) : list EvidenceStrength :=
  omap effective_strength rows.

(** [collect(when_false_strength_value) as false_strengths] *)
Definition collect_false_strengths (rows : list Evidence)
  : list EvidenceStrength :=
  omap when_false_strength_value rows.

(** [collect({name: evidence_name, contradicting: contradicting_flag})
     as evidence_items], then
    [[item IN evidence_items WHERE item.contradicting = 'contradicting'
      | item.name] as contradicting_evidence].  The name of a row is never
    null here. *)
Definition collect_contradicting_evidence (rows : list Evidence)
  : list string :=
  omap ev_name
    (filter (fun ev => contradicting_flag ev = Some "contradicting") rows).

(** The [CASE] that computes [confidence]. *)
Definition overall_confidence (is_ruled_out : bool)
    (contradicting : list string) (strengths : list EvidenceStrength)
  : EvidenceStrength :=
  if is_ruled_out then RULES_OUT
  else if bool_decide (0 < length contradicting) then INCONCLUSIVE
  else if bool_decide
            (0 < length (filter (fun x => x = CONFIRMS) strengths))
  then CONFIRMS
  else if bool_decide
            (0 < length (filter (fun x => x = SUGGESTS) strengths))
  then SUGGESTS
  else if bool_decide
            (0 < length (filter (fun x => x = SUGGESTS_AGAINST) strengths))
  then SUGGESTS_AGAINST
  else if bool_decide
            (0 < length (filter (fun x => x = RULES_OUT) strengths))
  then RULES_OUT
  else INCONCLUSIVE.

(** The columns of one group, from the rows collected into it. *)
Definition aggregate (fm : Node) (rows : list Evidence) : DiagnosticResult :=
  let contradicting := collect_contradicting_evidence rows in
  let is_ruled_out :=
    bool_decide (RULES_OUT ∈ collect_false_strengths rows) in
  {| failure_mode := node_name fm;
     confidence := overall_confidence is_ruled_out contradicting
                     (collect_strengths rows);
     supporting_evidence := collect_supporting_evidence rows;
     contradicting_evidence := contradicting |}.

(** The grouped row of one failure mode, after the aggregation
    [WITH fm, collect(...), ...]: a group exists only if at least one row
    survived [WHERE evidence.name IS NOT NULL]. *)
Definition grouped_row (fm : Node) : option DiagnosticResult :=
  match evidence_rows fm with
  | [] => None
  | rows => Some (aggregate fm rows)
  end.

(** [WHERE confidence <> 'rules_out'] *)
Definition result_row (fm : Node) : option DiagnosticResult :=
  r ← grouped_row fm;
  if bool_decide (confidence r ≠ RULES_OUT) then Some r else None.

End Diagnose.

(** [ORDER BY CASE confidence WHEN 'confirms' THEN 0 ... END]: the key is
    null for any other value, and null sorts last in ascending order. *)
Definition order_key (c : EvidenceStrength) : nat :=
  match c with
  | CONFIRMS => 0
  | SUGGESTS => 1
  | SUGGESTS_AGAINST => 2
  | INCONCLUSIVE => 3
  | RULES_OUT => 4
  end.

(** Rows with equal keys keep the order in which they were produced. *)
Fixpoint insert_by_key (r : DiagnosticResult) (l : list DiagnosticResult)
  : list DiagnosticResult :=
  match l with
  | [] => [r]
  | r' :: l' =>
      if bool_decide (order_key (confidence r) <= order_key (confidence r'))%nat
      then r :: l
      else r' :: insert_by_key r l'
  end.

Definition order_by_key (l : list DiagnosticResult) : list DiagnosticResult :=
  foldr insert_by_key [] l.

(** [DiagnosticEngine.diagnose(observations, sensor_readings)] with
    [include_explanations=False].  A [sensor_readings] of [None] is the empty
    map. *)
Definition diagnose (g : Graph) (observations : list string)
    (sensor_readings : gmap string Qc) : list DiagnosticResult :=
  order_by_key
    (omap (result_row g observations sensor_readings)
          (candidates g observations)).

(* ===================================================================== *)
(** * Exceptions *)
(* ===================================================================== *)

(** A call either returns a value or raises; a raised exception propagates
    through every caller that has no handler. *)
Inductive exn :=
  | ValueError (msg : string)
  | TypeError (msg : string)
  | ValidationError (msg : string)
  | EngineError (msg : string).

Inductive result (A : Type) :=
  | Ok (a : A)
  | Raise (e : exn).
Arguments Ok {A} a.
Arguments Raise {A} e.

#[global] Instance result_ret : MRet result := fun A a => Ok a.

#[global] Instance result_bind : MBind result := fun A B k m =>
  match m with
  | Ok a => k a
  | Raise e => Raise e
  end.

(** A loop or comprehension whose body may raise: the first exception ends
    it, and what was built so far is lost. *)
Fixpoint for_each {A B} (f : A → result B) (l : list A) : result (list B) :=
  match l with
  | [] => Ok []
  | x :: l' =>
      y ← f x;
      ys ← for_each f l';
      Ok (y :: ys)
  end.

(* ===================================================================== *)
(** * diagnostic.py: [DiagnosticEngine.get_test_recommendations] *)
(* ===================================================================== *)

(** [class TestRecommendation(BaseModel)] *)
Record TestRecommendation := mkRec {
  rec_name : string;
  rec_type : string;
  strength_if_true : EvidenceStrength;
  would_help_with : list string;
  rec_operator : option ComparisonOperator;
  rec_threshold : option Threshold
}.

(** [ComparisonOperator(value)], with [_missing_] mapping ["=="] to
    [EQUALS]; [None] for a value that is no member. *)
Definition ComparisonOperator_of_value (s : string)
  : option ComparisonOperator :=
  if bool_decide (s = "=") then Some EQUALS
  else if bool_decide (s = "<") then Some LESS_THAN
  else if bool_decide (s = ">") then Some GREATER_THAN
  else if bool_decide (s = "<=") then Some LESS_THAN_EQUAL
  else if bool_decide (s = ">=") then Some GREATER_THAN_EQUAL
  else if bool_decide (s = "in") then Some IN
  else if bool_decide (s = "==") then Some EQUALS
  else None.

(** Elements in the order of their first occurrence ([DISTINCT], and the
    order in which an aggregation meets its grouping keys). *)
Fixpoint distinct {A} `{EqDecision A} (l : list A) : list A :=
  match l with
  | [] => []
  | x :: l' => x :: filter (fun y => y ≠ x) (distinct l')
  end.

(** The grouping key of the aggregation: [ev], [e.operator], [e.threshold]
    and [e.when_true_strength] ([type] is a function of [ev]). *)
Definition group_key : Type :=
  Node * option string * option Threshold * option EvidenceStrength.

Definition key_of (e : EvidenceLink) : group_key :=
  (e_source e, e_operator e, e_threshold e, e_when_true_strength e).

(** [threshold: Optional[Union[float, int, List[Union[float, int]]]]], the
    field of [TestRecommendation] and of [ExplanationEvidence], validated by
    pydantic when the record [cls] is built.  A number passes, and so does a
    list of numbers.  A string in a list passes when pydantic reads a number
    from it ([number_of_str]), and is replaced by that number; any other
    string fails the validation of the record. *)
Definition validate_threshold (cls : string)
    (number_of_str : string → option Qc) (th : option Threshold)
  : result (option Threshold) :=
  match th with
  | None => Ok None
  | Some (TNum t) => Ok (Some (TNum t))
  | Some (TList items) =>
      numbers ← for_each
                  (fun item : string + Qc =>
                     match item with
                     | inr v => Ok (inr v)
                     | inl text =>
                         match number_of_str text with
                         | Some v => Ok (inr v)
                         | None => Raise (ValidationError cls)
                         end
                     end)
                  items;
      Ok (Some (TList numbers))
  end.

(** One returned record of the query. *)
Record RecommendationRow := mkRow {
  row_key : group_key;
  row_would_help_with : list string
}.

Section Recommend.

(** pydantic's conversion of a [str] to a number, in the validation of a
    field typed [Union[float, int]]: the number it reads, [None] for a string
    it rejects. *)
Variable number_of_str : string → option Qc.

Variable g : Graph.
Variable observations : list string.

(** [MATCH (ev)-[e:EVIDENCE_FOR]->(fm) WHERE NOT ev.name IN $observations
     AND (ev:Observation OR ev:SensorReading)], for one [fm]. *)
Definition untested_edges (fm : Node) : list EvidenceLink :=
  filter (fun e => e_target e = fm
                   ∧ (node_name (e_source e) ∉ observations)
                   ∧ (node_type (e_source e) = ObservationT
                      ∨ node_type (e_source e) = SensorReadingT))
         (evidence g).

(** The rows [(fm, e)] before the aggregation. *)
Definition recommendation_matches : list (Node * EvidenceLink) :=
  (fm ← candidates g observations;
   e ← untested_edges fm;
   [(fm, e)]).

(** [WITH ev, ..., collect(DISTINCT fm.name) as would_help_with] *)
Definition recommendation_groups : list RecommendationRow :=
  (fun k =>
     {| row_key := k;
        row_would_help_with :=
          distinct
            (omap (fun '(fm, e) =>
                     if bool_decide (key_of e = k)
                     then Some (node_name fm) else None)
                  recommendation_matches) |})
  <$> distinct ((fun '(_, e) => key_of e) <$> recommendation_matches).

(** [ORDER BY size(would_help_with) DESC]; rows of equal size keep their
    order. *)
Fixpoint insert_by_size (r : RecommendationRow)
    (l : list RecommendationRow) : list RecommendationRow :=
  match l with
  | [] => [r]
  | r' :: l' =>
      if bool_decide (length (row_would_help_with r')
                      <= length (row_would_help_with r))%nat
      then r :: l
      else r' :: insert_by_size r l'
  end.

Definition recommendation_rows : list RecommendationRow :=
  foldr insert_by_size [] recommendation_groups.

(** [TestRecommendation(name=..., type=..., strength_if_true=
     EvidenceStrength(r["strength_if_true"]), ...)]: [EvidenceStrength(None)]
    raises [ValueError] while the arguments are evaluated; a stored operator
    that is no member of [ComparisonOperator], and a threshold that is not
    made of numbers, fail the validation of the record. *)
Definition to_recommendation (r : RecommendationRow)
  : result TestRecommendation :=
  let '(ev, op, th, st) := row_key r in
  s ← match st with
      | Some s => Ok s
      | None => Raise (ValueError "None is not a valid EvidenceStrength")
      end;
  o ← match op with
      | None => Ok None
      | Some v =>
          match ComparisonOperator_of_value v with
          | Some o => Ok (Some o)
          | None => Raise (ValidationError "TestRecommendation")
          end
      end;
  t ← validate_threshold "TestRecommendation" number_of_str th;
  Ok {| rec_name := node_name ev;
        rec_type := if bool_decide (node_type ev = ObservationT)
                    then "observation" else "sensor_reading";
        strength_if_true := s;
        would_help_with := row_would_help_with r;
        rec_operator := o;
        rec_threshold := t |}.

Definition get_test_recommendations : result (list TestRecommendation) :=
  for_each to_recommendation recommendation_rows.

End Recommend.

(* ===================================================================== *)
(** * truth_table.py *)
(* ===================================================================== *)

(** [class ExpectedOutcome(BaseModel)]; the dicts
    [{"failure_mode": ..., "confidence": ...}] that [run_test_case] compares
    have the same two fields. *)
Record ExpectedOutcome := mkOutcome {
  o_failure_mode : string;
  o_confidence : EvidenceStrength
}.

#[global] Instance ExpectedOutcome_eq_dec : EqDecision ExpectedOutcome.
Proof. solve_decision. Defined.

(** A test case handed to [run_test_case]: a dict with the keys
    ["observations"] and ["sensor_values"]. *)
Record Inputs := mkInputs {
  tc_observations : list string;
  tc_sensor_values : gmap string Qc
}.

(** [class TestCase(BaseModel)]: a registered expectation.  [inputs] is a
    free-form dict read with [.get], so either key may be missing. *)
Record TestCase := mkTestCase {
  reg_observations : option (list string);
  reg_sensor_values : option (gmap string Qc);
  expected : list ExpectedOutcome
}.

(** [class TruthTableResult(BaseModel)] *)
Record TruthTableResult := mkTTResult {
  inputs : Inputs;
  diagnosed_failure_modes : list ExpectedOutcome;
  expected_failure_modes : list ExpectedOutcome;
  unexpected_results : list ExpectedOutcome;
  missing_results : list ExpectedOutcome;
  has_surprise : bool
}.

(** An entry of [self.sensor_readings], as [scan_graph] fills it from the
    stored edges. *)
Record SensorInfo := mkSensorInfo {
  unit : option string;
  thresholds : list (option Threshold);
  operators : list (option string)
}.

(** The state of a [TruthTable] object. *)
Record TruthTable := mkTruthTable {
  tt_observations : gset string;
  tt_sensor_readings : gmap string SensorInfo;
  expected_outcomes : list TestCase
}.

(** [itertools.combinations(l, r)]: the [r]-element subsequences of [l], in
    the lexicographic order of their positions. *)
Fixpoint combinations {A} (l : list A) (r : nat) : list (list A) :=
  match r, l with
  | 0, _ => [[]]
  | S _, [] => []
  | S r', x :: xs => (cons x <$> combinations xs r') ++ combinations xs r
  end.

(** [observation_combinations = [[]]], then one [append] per combination
    for [r in range(1, len(vary_observations) + 1)]. *)
Definition observation_combinations (vary_observations : list string)
  : list (list string) :=
  [[]] ++ (r ← seq 1 (length vary_observations);
           combinations vary_observations r).

(** ** Python floats

    A number of the model is the rational that a Python [float] denotes, or
    an [int] that a float holds exactly.  [a - b] and [a + b] on floats are
    the exact result rounded to the nearest binary64 number, a tie going to
    the even mantissa.  (A result beyond the largest float, which Python
    turns into [inf], is no number of the model.) *)

(** [n / d] rounded to the nearest integer, a tie to the even one, for
    [0 <= n] and [0 < d]. *)
Definition round_half_even (n d : Z) : Z :=
  let q := (n / d)%Z in
  let r := (n mod d)%Z in
  if (2 * r <? d)%Z then q
  else if (d <? 2 * r)%Z then (q + 1)%Z
  else if Z.even q then q else (q + 1)%Z.

(** The binary64 number nearest to [x]: a mantissa of at most 53 bits times
    a power of two, the exponent no smaller than -1074. *)
Definition binary64 (x : Qc) : Qc :=
  let n := Qnum x in
  let d := Zpos (Qden x) in
  if (n =? 0)%Z then x
  else
    let a := Z.abs n in
    let k := (Z.log2 a - Z.log2 d)%Z in
    let reaches :=
      if (0 <=? k)%Z then (d * 2 ^ k <=? a)%Z
      else (d <=? a * 2 ^ (- k))%Z in
    let exponent :=
      Z.max ((if reaches then k else k - 1) - 52) (-1074) in
    let mantissa :=
      if (0 <=? exponent)%Z then round_half_even a (d * 2 ^ exponent)
      else round_half_even (a * 2 ^ (- exponent)) d in
    Q2Qc ((Z.sgn n * mantissa * 2 ^ Z.max exponent 0)
          # Z.to_pos (2 ^ Z.max (- exponent) 0)).

Definition float_sub (a b : Qc) : Qc := binary64 (a - b).
Definition float_add (a b : Qc) : Qc := binary64 (a + b).

(** The literal [0.1]: the float nearest to one tenth. *)
Definition tenth : Qc :=
  Q2Qc (3602879701896397 # 36028797018963968).

(** The three values appended for one threshold; [threshold - 0.1] is a
    [TypeError] when the stored threshold is a list or null. *)
Definition values_around (th : option Threshold) : result (list (option Qc)) :=
  match th with
  | Some (TNum t) =>
      Ok [Some (float_sub t tenth); Some (float_add t tenth); Some t]
  | _ => Raise (TypeError "unsupported operand type(s) for -")
  end.

(** [sensor_test_values], ending with the [None] that stands for "no
    reading". *)
Definition sensor_test_values (info : SensorInfo)
  : result (list (option Qc)) :=
  vs ← for_each values_around (thresholds info);
  Ok (concat vs ++ [None]).

(** [new_combinations] for one varied sensor. *)
Definition extend_combinations (sensor_name : string)
    (values : list (option Qc)) (combos : list (gmap string Qc))
  : list (gmap string Qc) :=
  existing ← combos;
  value ← values;
  [match value with
   | Some v => <[sensor_name := v]> existing
   | None => existing
   end].

Section TruthTableEngine.

(** [self.diagnostic_engine.diagnose]: the engine is handed to the
    constructor, and a call to it may raise. *)
Variable engine_diagnose :
  list string → gmap string Qc → result (list DiagnosticResult).

Variable tt : TruthTable.

(** The loop [for sensor_name in vary_sensors]. *)
Fixpoint sensor_value_combinations (vary_sensors : list string)
    (combos : list (gmap string Qc)) : result (list (gmap string Qc)) :=
  match vary_sensors with
  | [] => Ok combos
  | sensor_name :: rest =>
      match tt_sensor_readings tt !! sensor_name with
      | Some info =>
          values ← sensor_test_values info;
          sensor_value_combinations rest
            (extend_combinations sensor_name values combos)
      | None => sensor_value_combinations rest combos
      end
  end.

(** [full_obs]: the combination, then every fixed observation that is
    marked present and not yet in the list. *)
Definition with_fixed_observations (obs_combo : list string)
    (fixed_observations : list (string * bool)) : list string :=
  foldl (fun full_obs '(obs, present) =>
           if present && bool_decide (obs ∉ full_obs)
           then full_obs ++ [obs] else full_obs)
        obs_combo fixed_observations.

(** [full_sensors] *)
Definition with_fixed_sensors (sensor_combo : gmap string Qc)
    (fixed_sensor_values : list (string * Qc)) : gmap string Qc :=
  foldl (fun full_sensors '(sensor, value) =>
           <[sensor := value]> full_sensors)
        sensor_combo fixed_sensor_values.

(** [TruthTable.generate_test_cases]; an argument left [None] is the empty
    list or dict, and the dict arguments are given by their items. *)
Definition generate_test_cases (vary_observations : list string)
    (fixed_observations : list (string * bool))
    (vary_sensors : list string)
    (fixed_sensor_values : list (string * Qc)) : result (list Inputs) :=
  let vary_observations :=
    if bool_decide (vary_observations = [])
       && bool_decide (fixed_observations = [])
    then elements (tt_observations tt)
    else vary_observations in
  let observation_combinations :=
    observation_combinations vary_observations in
  sensor_value_combinations ← sensor_value_combinations vary_sensors [∅];
  Ok (obs_combo ← observation_combinations;
      sensor_combo ← sensor_value_combinations;
      [{| tc_observations :=
            with_fixed_observations obs_combo fixed_observations;
          tc_sensor_values :=
            with_fixed_sensors sensor_combo fixed_sensor_values |}]).

(** The condition of the [if] inside [for expected in
    self.expected_outcomes]. *)
Definition inputs_match (exp : TestCase) (test_case : Inputs) : bool :=
  bool_decide (list_to_set (default [] (reg_observations exp))
               =@{gset string} list_to_set (tc_observations test_case))
  && bool_decide (default ∅ (reg_sensor_values exp)
                  = tc_sensor_values test_case).

(** The body of the loop over the registry: a match sets the flag and
    overwrites [expected_results]. *)
Definition registry_step (test_case : Inputs)
    (acc : bool * list ExpectedOutcome) (exp : TestCase)
  : bool * list ExpectedOutcome :=
  let '(has_registered_expectations, expected_results) := acc in
  if inputs_match exp test_case
  then (true, expected exp)
  else (has_registered_expectations, expected_results).

(** [for expected in self.expected_outcomes: ...], from
    [has_registered_expectations = False] and [expected_results = []]. *)
Definition find_expected (test_case : Inputs)
  : bool * list ExpectedOutcome :=
  foldl (registry_step test_case) (false, []) (expected_outcomes tt).

Definition to_outcome (d : DiagnosticResult) : ExpectedOutcome :=
  {| o_failure_mode := failure_mode d; o_confidence := confidence d |}.

(** [TruthTable.run_test_case] *)
Definition run_test_case (test_case : Inputs) : result TruthTableResult :=
  diagnoses ← engine_diagnose (tc_observations test_case)
                              (tc_sensor_values test_case);
  let actual_results := to_outcome <$> diagnoses in
  let '(has_registered_expectations, expected_results) :=
    find_expected test_case in
  let unexpected :=
    if has_registered_expectations
    then filter (fun actual => actual ∉ expected_results) actual_results
    else [] in
  let missing :=
    if has_registered_expectations
    then filter (fun e => e ∉ actual_results) expected_results
    else [] in
  Ok {| inputs := test_case;
        diagnosed_failure_modes := actual_results;
        expected_failure_modes := expected_results;
        unexpected_results := unexpected;
        missing_results := missing;
        has_surprise :=
          has_registered_expectations
          && (bool_decide (0 < length unexpected)
              || bool_decide (0 < length missing)) |}.

(** [TruthTable.run_truth_table]: the cases are generated unless they are
    given; the loop has no handler around [run_test_case]. *)
Definition run_truth_table (vary_observations : list string)
    (fixed_observations : list (string * bool))
    (vary_sensors : list string)
    (fixed_sensor_values : list (string * Qc))
    (test_cases : option (list Inputs)) : result (list TruthTableResult) :=
  test_cases ← match test_cases with
               | Some cases => Ok cases
               | None => generate_test_cases vary_observations
                           fixed_observations vary_sensors
                           fixed_sensor_values
               end;
  for_each run_test_case test_cases.

End TruthTableEngine.

(** The engine of a [DiagnosticEngine] whose store holds [g] and answers
    every query. *)
Definition graph_engine (g : Graph)
  : list string → gmap string Qc → result (list DiagnosticResult) :=
  fun observations sensor_readings =>
    Ok (diagnose g observations sensor_readings).

(* ===================================================================== *)
(** * Properties of [diagnose] *)
(* ===================================================================== *)

(** ** Contributions

    What one evidence row of a failure mode contributes, read off the three
    columns the query computes for it. *)

(** The row supports the failure mode with strength [s]. *)
Definition supporting_contribution (g : Graph) (observations : list string)
    (sensor_readings : gmap string Qc) (fm : Node)
    (name : string) (s : EvidenceStrength) : Prop :=
  ∃ ev, ev ∈ evidence_rows g observations sensor_readings fm
        ∧ ev_name ev = Some name
        ∧ contradicting_flag sensor_readings ev = None
        ∧ effective_strength sensor_readings ev = Some s.

(** The row contradicts the failure mode; [s] is the strength it carries
    ([None] when the edge stores no [when_false_strength]). *)
Definition contradicting_contribution (g : Graph) (observations : list string)
    (sensor_readings : gmap string Qc) (fm : Node)
    (name : string) (s : option EvidenceStrength) : Prop :=
  ∃ ev, ev ∈ evidence_rows g observations sensor_readings fm
        ∧ ev_name ev = Some name
        ∧ contradicting_flag sensor_readings ev = Some "contradicting"
        ∧ when_false_strength_value sensor_readings ev = s.

(** The store's uniqueness constraint on failure-mode names
    ([REQUIRE f.name IS UNIQUE]), at one node. *)
Definition unique_name (g : Graph) (fm : Node) : Prop :=
  ∀ fm', fm' ∈ nodes g → node_type fm' = FailureModeT →
         node_name fm' = node_name fm → fm' = fm.

(** ** Example graphs

    The music player of [tests/test_diagnostic.py], cut down to the nodes a
    scenario needs. *)

Definition dead_battery : Node := mkNode 1 "Dead Battery" FailureModeT.
Definition no_music : Node := mkNode 2 "No Music" ObservationT.
Definition battery_voltage : Node := mkNode 3 "battery_voltage" SensorReadingT.
Definition blown_speaker : Node := mkNode 4 "Blown Speaker" FailureModeT.
Definition no_sound : Node := mkNode 5 "No Sound" ObservationT.
Definition crackling : Node := mkNode 6 "Crackling" ObservationT.
Definition power_led_on : Node := mkNode 7 "Power LED On" ObservationT.

(** [battery_voltage < 4.0] is evidence for a dead battery. *)
Definition battery_edge (op : string) (when_false : EvidenceStrength)
  : EvidenceLink :=
  {| e_source := battery_voltage;
     e_target := dead_battery;
     e_when_true_strength := Some CONFIRMS;
     e_when_false_strength := Some when_false;
     e_operator := Some op;
     e_threshold := Some (TNum (Q2Qc 4)) |}.

(** An observation is evidence for a failure mode whenever it is seen. *)
Definition observation_edge (o fm : Node) (when_true : EvidenceStrength)
  : EvidenceLink :=
  {| e_source := o;
     e_target := fm;
     e_when_true_strength := Some when_true;
     e_when_false_strength := Some INCONCLUSIVE;
     e_operator := None;
     e_threshold := None |}.

(** Dead Battery causes No Music; the voltage confirms it or rules it out. *)
Definition battery_graph : Graph :=
  {| nodes := [dead_battery; no_music; battery_voltage];
     causes := [mkCauses dead_battery no_music];
     evidence := [battery_edge "<" RULES_OUT] |}.

(** Two failure modes cause No Sound: the battery is judged by its voltage,
    the speaker by a crackling noise. *)
Definition no_sound_graph : Graph :=
  {| nodes := [blown_speaker; dead_battery; no_sound; battery_voltage;
               crackling];
     causes := [mkCauses blown_speaker no_sound;
                mkCauses dead_battery no_sound];
     evidence := [observation_edge crackling blown_speaker SUGGESTS;
                  battery_edge "<" RULES_OUT] |}.

(** As [battery_graph], but a good voltage only speaks against a dead
    battery, and the missing music itself confirms it. *)
Definition weak_battery_graph : Graph :=
  {| nodes := [dead_battery; no_music; battery_voltage];
     causes := [mkCauses dead_battery no_music];
     evidence := [observation_edge no_music dead_battery CONFIRMS;
                  battery_edge "<" SUGGESTS_AGAINST] |}.

(** A lit power LED rules a dead battery out when it is seen. *)
Definition led_graph : Graph :=
  {| nodes := [dead_battery; no_music; power_led_on];
     causes := [mkCauses dead_battery no_music];
     evidence := [observation_edge power_led_on dead_battery RULES_OUT] |}.

Definition low_voltage : gmap string Qc := {[ "battery_voltage" := Q2Qc (7 # 2) ]}.
Definition good_voltage : gmap string Qc := {[ "battery_voltage" := Q2Qc 12 ]}.

(** ** The precedence rule, in the spec's words

    "Overall confidence = the first strength found, in this fixed precedence
    order, among supporting contributions: confirms, suggests,
    suggests_against, rules_out; if none matches, inconclusive."  The query's
    own [CASE] is [overall_confidence]; this one is only compared with it. *)
Definition precedence : list EvidenceStrength :=
  [CONFIRMS; SUGGESTS; SUGGESTS_AGAINST; RULES_OUT].

Definition spec_first_in_precedence (present : list EvidenceStrength)
  : EvidenceStrength :=
  default INCONCLUSIVE (head (filter (fun s => s ∈ present) precedence)).

(** ** The operators, in the spec's words

    What [operator(v, threshold)] means for each member of
    [ComparisonOperator]; the query never computes this function, it is what
    its [CASE] branches are compared with. *)
Definition spec_operator_holds (op : ComparisonOperator) (v : Qc)
    (threshold : Threshold) : Prop :=
  match op, threshold with
  | EQUALS, TNum t => v = t
  | LESS_THAN, TNum t => (v < t)%Qc
  | GREATER_THAN, TNum t => (t < v)%Qc
  | LESS_THAN_EQUAL, TNum t => (v <= t)%Qc
  | GREATER_THAN_EQUAL, TNum t => (t <= v)%Qc
  | IN, TList items => inr v ∈ items
  | _, _ => False
  end.

Definition all_operators : list ComparisonOperator :=
  [EQUALS; LESS_THAN; GREATER_THAN; LESS_THAN_EQUAL; GREATER_THAN_EQUAL; IN].

(** ** Contributions, in the spec's words

    "If source is an Observation: if its name is in the true-observation set,
    the edge contributes when_true_strength, flagged supporting.  If source
    is a SensorReading with value v present in the assignment: evaluate
    operator(v, threshold).  If true, contribute when_true_strength as
    supporting; if false, contribute when_false_strength as contradicting."
    These two follow the spec, for every member of [ComparisonOperator];
    [supporting_contribution] and [contradicting_contribution] follow the
    columns of the query. *)

(** The edge is one the aggregator looks at: its source is an observation
    that is seen, or a sensor that has a value. *)
Definition spec_evaluated_edge (observations : list string)
    (sensor_readings : gmap string Qc) (e : EvidenceLink) : Prop :=
  (node_type (e_source e) = ObservationT
   ∧ node_name (e_source e) ∈ observations)
  ∨ (node_type (e_source e) = SensorReadingT
     ∧ is_Some (sensor_readings !! node_name (e_source e))).

Definition spec_supporting_contribution (g : Graph)
    (observations : list string) (sensor_readings : gmap string Qc)
    (fm : Node) (name : string) (s : EvidenceStrength) : Prop :=
  ∃ e, e ∈ evidence g
       ∧ e_target e = fm
       ∧ node_name (e_source e) = name
       ∧ e_when_true_strength e = Some s
       ∧ ((node_type (e_source e) = ObservationT ∧ name ∈ observations)
          ∨ (node_type (e_source e) = SensorReadingT
             ∧ ∃ v op th, sensor_readings !! name = Some v
                          ∧ e_operator e = Some (operator_value op)
                          ∧ e_threshold e = Some th
                          ∧ spec_operator_holds op v th)).

(** [s] is the [when_false_strength] the edge stores, [None] if it stores
    none. *)
Definition spec_contradicting_contribution (g : Graph)
    (observations : list string) (sensor_readings : gmap string Qc)
    (fm : Node) (name : string) (s : option EvidenceStrength) : Prop :=
  ∃ e v op th, e ∈ evidence g
               ∧ e_target e = fm
               ∧ node_name (e_source e) = name
               ∧ node_type (e_source e) = SensorReadingT
               ∧ sensor_readings !! name = Some v
               ∧ e_operator e = Some (operator_value op)
               ∧ e_threshold e = Some th
               ∧ ¬ spec_operator_holds op v th
               ∧ e_when_false_strength e = s.

(** The comparisons that the query of [diagnose] has a branch for: every
    sensor edge into [fm] whose sensor has a value compares with [=], [<] or
    [>] against a number. *)
Definition query_evaluates (g : Graph) (sensor_readings : gmap string Qc)
    (fm : Node) : Prop :=
  ∀ e, e ∈ evidence g → e_target e = fm →
       node_type (e_source e) = SensorReadingT →
       is_Some (sensor_readings !! node_name (e_source e)) →
       ∃ op t, op ∈ [EQUALS; LESS_THAN; GREATER_THAN]
               ∧ e_operator e = Some (operator_value op)
               ∧ e_threshold e = Some (TNum t).

(** [battery_graph] with another operator on its only evidence edge. *)
Definition operator_graph (op : string) : Graph :=
  {| nodes := [dead_battery; no_music; battery_voltage];
     causes := [mkCauses dead_battery no_music];
     evidence := [battery_edge op RULES_OUT] |}.

(** [weak_battery_graph] with another operator on its sensor edge. *)
Definition weak_operator_graph (op : string) : Graph :=
  {| nodes := [dead_battery; no_music; battery_voltage];
     causes := [mkCauses dead_battery no_music];
     evidence := [observation_edge no_music dead_battery CONFIRMS;
                  battery_edge op SUGGESTS_AGAINST] |}.

(** ** Exact matching, in the spec's words

    "Matching is exact on the input pair (set equality for observations,
    exact map equality for sensor values including absent keys)."  A key the
    registered [inputs] lacks counts as the empty list or map. *)
Definition spec_exact_match (exp : TestCase) (test_case : Inputs) : Prop :=
  (∀ o, o ∈ default [] (reg_observations exp) ↔ o ∈ tc_observations test_case)
  ∧ default ∅ (reg_sensor_values exp) = tc_sensor_values test_case.

(** ** Example truth tables *)

(** The case "No Music with a low battery". *)
Definition low_battery_case : Inputs :=
  {| tc_observations := ["No Music"]; tc_sensor_values := low_voltage |}.

Definition expect_low_battery (outcomes : list ExpectedOutcome) : TestCase :=
  {| reg_observations := Some ["No Music"];
     reg_sensor_values := Some low_voltage;
     expected := outcomes |}.

(** The same input registered twice: first expecting no diagnosis, then
    expecting a confirmed dead battery. *)
Definition twice_registered : TruthTable :=
  {| tt_observations := {[ "No Music" ]};
     tt_sensor_readings := ∅;
     expected_outcomes :=
       [expect_low_battery [];
        expect_low_battery [mkOutcome "Dead Battery" CONFIRMS]] |}.

(** One registration, which the engine does not meet. *)
Definition once_registered : TruthTable :=
  {| tt_observations := {[ "No Music" ]};
     tt_sensor_readings := ∅;
     expected_outcomes := [expect_low_battery []] |}.

(** An engine whose store fails on every query that mentions No Music, and
    diagnoses nothing otherwise. *)
Definition flaky_engine
  : list string → gmap string Qc → result (list DiagnosticResult) :=
  fun observations _ =>
    if bool_decide ("No Music" ∈ observations)
    then Raise (EngineError "connection lost")
    else Ok [].

Definition empty_table : TruthTable :=
  {| tt_observations := ∅; tt_sensor_readings := ∅; expected_outcomes := [] |}.

(** ** Vocabulary for the recommendations *)

(** The evidence group [k] bears on the candidate failure mode named
    [fm_name]: some edge of the group, from a source that is not among the
    observations, targets it. *)
Definition helps_with (g : Graph) (observations : list string)
    (k : group_key) (fm_name : string) : Prop :=
  ∃ fm e, fm ∈ candidates g observations
          ∧ e ∈ untested_edges g observations fm
          ∧ key_of e = k
          ∧ node_name fm = fm_name.

(** The returned record [r] is the one built from the group [row]; its
    threshold is the group's, as validated. *)
Definition record_of_group (number_of_str : string → option Qc)
    (row : RecommendationRow) (r : TestRecommendation) : Prop :=
  let '(ev, op, th, st) := row_key row in
  rec_name r = node_name ev
  ∧ st = Some (strength_if_true r)
  ∧ rec_operator r = op ≫= ComparisonOperator_of_value
  ∧ validate_threshold "TestRecommendation" number_of_str th
    = Ok (rec_threshold r)
  ∧ would_help_with r = row_would_help_with row.

(** The order of [ORDER BY size(would_help_with) DESC]: larger groups
    first. *)
Definition larger_first (a b : RecommendationRow) : Prop :=
  (length (row_would_help_with b) ≤ length (row_would_help_with a))%nat.

(** [no_sound_graph] with a second edge from the voltage sensor: a high
    voltage suggests a blown speaker. *)
Definition two_threshold_graph : Graph :=
  {| nodes := [blown_speaker; dead_battery; no_sound; battery_voltage;
               crackling];
     causes := [mkCauses blown_speaker no_sound;
                mkCauses dead_battery no_sound];
     evidence := [observation_edge crackling blown_speaker SUGGESTS;
                  battery_edge "<" RULES_OUT;
                  {| e_source := battery_voltage;
                     e_target := blown_speaker;
                     e_when_true_strength := Some SUGGESTS;
                     e_when_false_strength := Some INCONCLUSIVE;
                     e_operator := Some ">";
                     e_threshold := Some (TNum (Q2Qc 10)) |}] |}.

(* ===================================================================== *)
(** * models.py: the values of the enumerations *)
(* ===================================================================== *)

(** [EvidenceStrength.value] *)
Definition EvidenceStrength_value (s : EvidenceStrength) : string :=
  match s with
  | CONFIRMS => "confirms"
  | RULES_OUT => "rules_out"
  | SUGGESTS => "suggests"
  | SUGGESTS_AGAINST => "suggests_against"
  | INCONCLUSIVE => "inconclusive"
  end.

(** [EvidenceStrength(value)]; [None] for a value that is no member. *)
Definition EvidenceStrength_of_value (v : string) : option EvidenceStrength :=
  if bool_decide (v = "confirms") then Some CONFIRMS
  else if bool_decide (v = "rules_out") then Some RULES_OUT
  else if bool_decide (v = "suggests") then Some SUGGESTS
  else if bool_decide (v = "suggests_against") then Some SUGGESTS_AGAINST
  else if bool_decide (v = "inconclusive") then Some INCONCLUSIVE
  else None.

(* ===================================================================== *)
(** * truth_table.py: [register_expected_outcome] and [scan_graph] *)
(* ===================================================================== *)

(** One dict of the ["expected"] list handed to
    [register_expected_outcome]: the confidence comes as the enum's value. *)
Record RawOutcome := mkRawOutcome {
  raw_failure_mode : string;
  raw_confidence : string
}.

(** The dict handed to [register_expected_outcome], with the keys its
    docstring requires: ["inputs"] (a dict that may lack either of its keys)
    and ["expected"]. *)
Record RawTestCase := mkRawTestCase {
  raw_observations : option (list string);
  raw_sensor_values : option (gmap string Qc);
  raw_expected : list RawOutcome
}.

(** [ExpectedOutcome(failure_mode=..., confidence=...)]: a confidence that is
    no value of [EvidenceStrength] fails the validation. *)
Definition to_expected_outcome (o : RawOutcome) : result ExpectedOutcome :=
  match EvidenceStrength_of_value (raw_confidence o) with
  | Some c => Ok {| o_failure_mode := raw_failure_mode o; o_confidence := c |}
  | None => Raise (ValidationError "confidence")
  end.

(** [TruthTable.register_expected_outcome]: the new [TestCase] is appended
    to [self.expected_outcomes]; when the conversion raises, nothing is
    appended. *)
Definition register_expected_outcome (tt : TruthTable) (test_case : RawTestCase)
  : result TruthTable :=
  outcomes ← for_each to_expected_outcome (raw_expected test_case);
  Ok {| tt_observations := tt_observations tt;
        tt_sensor_readings := tt_sensor_readings tt;
        expected_outcomes :=
          expected_outcomes tt
          ++ [ {| reg_observations := raw_observations test_case;
                  reg_sensor_values := raw_sensor_values test_case;
                  expected := outcomes |} ] |}.

(** [if x not in l: l.append(x)] *)
Definition append_if_new {A} `{EqDecision A} (x : A) (l : list A) : list A :=
  if bool_decide (x ∈ l) then l else l ++ [x].

(** One record of [sensor_query]. *)
Record SensorRow := mkSensorRow {
  row_sensor_name : string;
  row_unit : option string;
  row_operator : option string;
  row_threshold : option Threshold
}.

(** The body of the loop [for result in sensor_results]. *)
Definition scan_sensor (sensor_readings : gmap string SensorInfo)
    (row : SensorRow) : gmap string SensorInfo :=
  let info := default {| unit := row_unit row;
                         thresholds := [];
                         operators := [] |}
                      (sensor_readings !! row_sensor_name row) in
  <[ row_sensor_name row :=
       {| unit := unit info;
          thresholds := append_if_new (row_threshold row) (thresholds info);
          operators := append_if_new (row_operator row) (operators info) |} ]>
    sensor_readings.

Section ScanGraph.

(** [s.unit], a property of sensor nodes that [Node] does not carry. *)
Variable sensor_unit : Node → option string.

Variable g : Graph.

(** [MATCH (o:Observation) RETURN o.name as name] *)
Definition observation_names : list string :=
  node_name <$> filter (fun n => node_type n = ObservationT) (nodes g).

(** [MATCH (s:SensorReading)-[e:EVIDENCE_FOR]->(fm:FailureMode) RETURN ...] *)
Definition sensor_rows : list SensorRow :=
  (fun e => {| row_sensor_name := node_name (e_source e);
               row_unit := sensor_unit (e_source e);
               row_operator := e_operator e;
               row_threshold := e_threshold e |})
  <$> filter (fun e => node_type (e_source e) = SensorReadingT
                       ∧ node_type (e_target e) = FailureModeT) (evidence g).

(** [TruthTable.scan_graph], on a store that holds [g] and answers both
    queries. *)
Definition scan_graph (tt : TruthTable) : TruthTable :=
  {| tt_observations :=
       foldl (fun observations name => {[ name ]} ∪ observations)
             (tt_observations tt) observation_names;
     tt_sensor_readings := foldl scan_sensor (tt_sensor_readings tt) sensor_rows;
     expected_outcomes := expected_outcomes tt |}.

End ScanGraph.

(** The number of sensor combinations [generate_test_cases] builds from one
    starting combination: three values and "no reading" per threshold of
    every varied sensor that is registered. *)
Definition sensor_combination_count (tt : TruthTable)
    (vary_sensors : list string) : nat :=
  foldr (fun sensor_name n =>
           match tt_sensor_readings tt !! sensor_name with
           | Some info => (3 * length (thresholds info) + 1) * n
           | None => n
           end) 1 vary_sensors.

(** The order of [ORDER BY CASE confidence ... END]. *)
Definition by_order_key (a b : DiagnosticResult) : Prop :=
  (order_key (confidence a) ≤ order_key (confidence b))%nat.

(** A truth table that knows the voltage sensor and its threshold of 4.0. *)
Definition battery_table : TruthTable :=
  {| tt_observations := {[ "No Music" ]};
     tt_sensor_readings :=
       {[ "battery_voltage" :=
            {| unit := Some "V";
               thresholds := [Some (TNum (Q2Qc 4))];
               operators := [Some "<"] |} ]};
     expected_outcomes := [] |}.

(** A truth table whose switch sensor was scanned from an [in] edge: its
    threshold is a list. *)
Definition switch_table : TruthTable :=
  {| tt_observations := {[ "No Music" ]};
     tt_sensor_readings :=
       {[ "switch_status" :=
            {| unit := None;
               thresholds := [Some (TList [inr (Q2Qc 0); inr (Q2Qc 2)])];
               operators := [Some "in"] |} ]};
     expected_outcomes := [] |}.

(* ===================================================================== *)
(** * diagnostic.py: [DiagnosticEngine.explain_diagnosis] *)
(* ===================================================================== *)

(** [actual_value]: [true] for an observation, the reading for a sensor, as
    the query returns it. *)
Inductive ActualValue :=
  | ActualTrue
  | ActualNumber (v : Qc).

(** One map of [all_evidence], and so one record of the query. *)
Record ExplanationRow := mkExplanationRow {
  xr_name : option string;
  xr_type : string;
  xr_operator : option string;
  xr_threshold : option Threshold;
  xr_actual_value : option ActualValue;
  xr_strength : option EvidenceStrength;
  xr_for_or_against : option string;
  xr_explanation : option string;
  xr_rationale : option string
}.

(** [class ExplanationEvidence(BaseModel)] *)
Record ExplanationEvidence := mkExplanation {
  ex_name : string;
  ex_type : string;
  ex_operator : option ComparisonOperator;
  ex_threshold : option Threshold;
  ex_actual_value : option Qc;
  ex_strength : EvidenceStrength;
  for_or_against : string;
  explanation : option string
}.

(** The six [WHEN] branches that the [CASE]s of [strength],
    [for_or_against] and [explanation] share, in their order. *)
Inductive Branch :=
  | LessTrue
  | GreaterTrue
  | EqualTrue
  | LessFalse
  | GreaterFalse
  | EqualFalse.

(** The double quote inside the query's string literals. *)
Definition dquote : string := String (Ascii.ascii_of_nat 34) EmptyString.

(** Cypher's [+] on strings: null if one operand is. *)
Definition concat_null (parts : list (option string)) : option string :=
  String.concat EmptyString <$> mapM id parts.

(** [r["explanation"] + (f" - {r['rationale']}" if r.get("rationale") else "")],
    for an explanation that is a string. *)
Definition with_rationale (text : string) (rationale : option string)
  : string :=
  match rationale with
  | Some r =>
      if bool_decide (r = EmptyString) then text
      else String.concat EmptyString [text; " - "; r]
  | None => text
  end.

(** [actual_value: Optional[Union[float, int, str]]]: a number stays as it
    is, and pydantic turns [True] into the float 1.0. *)
Definition validate_actual_value (a : ActualValue) : Qc :=
  match a with
  | ActualTrue => 1%Qc
  | ActualNumber v => v
  end.

(** [ExplanationEvidence(name=r["name"], ...)]: the arguments are evaluated
    first, [EvidenceStrength(None)] and [None + str] raising there; then
    pydantic validates the fields, and the record is refused for a null
    [name] or [for_or_against], for an operator that is no member of
    [ComparisonOperator] and for a threshold that is not made of numbers. *)
Definition to_explanation (number_of_str : string → option Qc)
    (r : ExplanationRow) : result ExplanationEvidence :=
  strength ← match xr_strength r with
             | Some s => Ok s
             | None => Raise (ValueError "None is not a valid EvidenceStrength")
             end;
  text ← match xr_explanation r with
         | Some t => Ok (with_rationale t (xr_rationale r))
         | None => Raise (TypeError "unsupported operand type(s) for +")
         end;
  name ← match xr_name r with
         | Some n => Ok n
         | None => Raise (ValidationError "ExplanationEvidence")
         end;
  operator ← match xr_operator r with
             | None => Ok None
             | Some op =>
                 match ComparisonOperator_of_value op with
                 | Some c => Ok (Some c)
                 | None => Raise (ValidationError "ExplanationEvidence")
                 end
             end;
  threshold ← validate_threshold "ExplanationEvidence" number_of_str
                (xr_threshold r);
  side ← match xr_for_or_against r with
         | Some f => Ok f
         | None => Raise (ValidationError "ExplanationEvidence")
         end;
  Ok {| ex_name := name;
        ex_type := xr_type r;
        ex_operator := operator;
        ex_threshold := threshold;
        ex_actual_value := validate_actual_value <$> xr_actual_value r;
        ex_strength := strength;
        for_or_against := side;
        explanation := Some text |}.

(** [strength: CASE ... END] *)
Definition branch_strength (e : EvidenceLink) (b : Branch)
  : option EvidenceStrength :=
  match b with
  | LessTrue | GreaterTrue | EqualTrue => e_when_true_strength e
  | LessFalse | GreaterFalse | EqualFalse => e_when_false_strength e
  end.

(** [for_or_against: CASE ... END] *)
Definition branch_for_or_against (b : Branch) : string :=
  match b with
  | LessTrue | GreaterTrue | EqualTrue => "for"
  | LessFalse | GreaterFalse | EqualFalse => "against"
  end.

(** The words between the reading and the threshold. *)
Definition branch_words (b : Branch) : string :=
  match b with
  | LessTrue => " is less than threshold "
  | GreaterTrue => " is greater than threshold "
  | EqualTrue => " equals threshold "
  | LessFalse => " is NOT less than threshold "
  | GreaterFalse => " is NOT greater than threshold "
  | EqualFalse => " does NOT equal threshold "
  end.

(** The rows of the two [OPTIONAL MATCH]es when nothing matches: [o], [s]
    and [e] are null, and so is what is computed from them. *)
Definition null_observation_row : ExplanationRow :=
  {| xr_name := None;
     xr_type := "observation";
     xr_operator := None;
     xr_threshold := None;
     xr_actual_value := Some ActualTrue;
     xr_strength := None;
     xr_for_or_against := Some "for";
     xr_explanation := None;
     xr_rationale := None |}.

Definition null_sensor_row : ExplanationRow :=
  {| xr_name := None;
     xr_type := "sensor_reading";
     xr_operator := None;
     xr_threshold := None;
     xr_actual_value := None;
     xr_strength := None;
     xr_for_or_against := None;
     xr_explanation := None;
     xr_rationale := None |}.

Section Explain.

(** pydantic's conversion of a [str] to a number, as in
    [validate_threshold]. *)
Variable number_of_str : string → option Qc.

(** [e.name] and [e.rationale], properties of an evidence edge that
    [EvidenceLink] does not carry, and Cypher's [toString] on numbers. *)
Variable edge_name : EvidenceLink → option string.
Variable edge_rationale : EvidenceLink → option string.
Variable toString : Qc → string.

Variable g : Graph.
Variable failure_mode_name : string.
Variable observations : list string.
Variable sensor_readings : gmap string Qc.

(** [toString(e.threshold)]: a list is no argument of [toString]. *)
Definition toString_threshold (t : option Threshold)
  : result (option string) :=
  match t with
  | Some (TNum t) => Ok (Some (toString t))
  | Some (TList _) => Raise (EngineError "toString")
  | None => Ok None
  end.

(** The first [WHEN] that is true, if any. *)
Definition explain_branch (e : EvidenceLink) : option Branch :=
  let v := sensor_readings !! node_name (e_source e) in
  let op := e_operator e in
  let th := e_threshold e in
  if Cypher.is_true (Cypher.and (Cypher.str_eq op "<") (Cypher.lt v th))
  then Some LessTrue
  else if Cypher.is_true (Cypher.and (Cypher.str_eq op ">") (Cypher.gt v th))
  then Some GreaterTrue
  else if Cypher.is_true (Cypher.and (Cypher.str_eq op "=") (Cypher.eq v th))
  then Some EqualTrue
  else if Cypher.is_true (Cypher.and (Cypher.str_eq op "<") (Cypher.ge v th))
  then Some LessFalse
  else if Cypher.is_true (Cypher.and (Cypher.str_eq op ">") (Cypher.le v th))
  then Some GreaterFalse
  else if Cypher.is_true (Cypher.and (Cypher.str_eq op "=") (Cypher.ne v th))
  then Some EqualFalse
  else None.

(** [explanation: CASE WHEN e.name IS NOT NULL THEN e.name ELSE ... END] of an
    observation. *)
Definition observation_explanation (e : EvidenceLink) : option string :=
  match edge_name e with
  | Some n => Some n
  | None =>
      concat_null [Some "Observation "; Some dquote;
                   Some (node_name (e_source e)); Some dquote;
                   Some " is evidence for "; Some dquote;
                   Some (node_name (e_target e)); Some dquote]
  end.

(** The same for a sensor: only the branch that is taken is evaluated. *)
Definition sensor_explanation (e : EvidenceLink) : result (option string) :=
  match edge_name e with
  | Some n => Ok (Some n)
  | None =>
      match explain_branch e with
      | None => Ok None
      | Some b =>
          threshold ← toString_threshold (e_threshold e);
          Ok (concat_null
                [Some "Sensor "; Some dquote; Some (node_name (e_source e));
                 Some dquote; Some " reading ";
                 toString <$> sensor_readings !! node_name (e_source e);
                 Some (branch_words b); threshold])
      end
  end.

(** The map [collect]ed for an observation edge. *)
Definition observation_row (e : EvidenceLink) : ExplanationRow :=
  {| xr_name := Some (node_name (e_source e));
     xr_type := "observation";
     xr_operator := None;
     xr_threshold := None;
     xr_actual_value := Some ActualTrue;
     xr_strength := e_when_true_strength e;
     xr_for_or_against := Some "for";
     xr_explanation := observation_explanation e;
     xr_rationale := edge_rationale e |}.

(** The map [collect]ed for a sensor edge; building it may fail. *)
Definition sensor_row (e : EvidenceLink) : result ExplanationRow :=
  text ← sensor_explanation e;
  Ok {| xr_name := Some (node_name (e_source e));
        xr_type := "sensor_reading";
        xr_operator := e_operator e;
        xr_threshold := e_threshold e;
        xr_actual_value :=
          ActualNumber <$> sensor_readings !! node_name (e_source e);
        xr_strength := explain_branch e ≫= branch_strength e;
        xr_for_or_against := branch_for_or_against <$> explain_branch e;
        xr_explanation := text;
        xr_rationale := edge_rationale e |}.

(** [MATCH (fm:FailureMode {name: $failure_mode})] *)
Definition explained_failure_modes : list Node :=
  filter (fun fm => node_type fm = FailureModeT
                    ∧ node_name fm = failure_mode_name) (nodes g).

(** [WITH observation_evidence + sensor_evidence as all_evidence] for one
    failure mode. *)
Definition explanation_rows (fm : Node) : result (list ExplanationRow) :=
  sensor_rows ← for_each sensor_row (sensor_edges g sensor_readings fm);
  Ok (match observation_edges g observations fm with
      | [] => [null_observation_row]
      | es => observation_row <$> es
      end
      ++ match sensor_rows with
         | [] => [null_sensor_row]
         | rows => rows
         end).

(** The query: [UNWIND all_evidence as evidence WITH evidence
    WHERE evidence.strength IS NOT NULL RETURN ...]. *)
Definition explain_query : result (list ExplanationRow) :=
  per_failure_mode ← for_each explanation_rows explained_failure_modes;
  Ok (filter (fun r => is_Some (xr_strength r)) (concat per_failure_mode)).

(** [DiagnosticEngine.explain_diagnosis] *)
Definition explain_diagnosis : result (list ExplanationEvidence) :=
  rows ← explain_query;
  for_each (to_explanation number_of_str) rows.

End Explain.

(* ===================================================================== *)
(** * diagnostic.py: [DiagnosticEngine.get_causal_paths] *)
(* ===================================================================== *)

(** One returned record of the query. *)
Record CausalPath := mkCausalPath {
  cp_failure_mode : string;
  cp_observation : string;
  intermediate_nodes : list string
}.

(** [(n)-[:CAUSES*]->()]: the node sequences, after [n], of the paths of one
    or more [CAUSES] edges that start at [n] and use no edge twice, [used]
    holding the positions of the edges already on the path.  A path has at
    most as many edges as the graph, which bounds the recursion. *)
Fixpoint causal_trails (g : Graph) (fuel : nat) (used : list nat) (n : Node)
  : list (list Node) :=
  match fuel with
  | 0 => []
  | S fuel' =>
      ic ← imap pair (causes g);
      if decide (c_source ic.2 = n ∧ ic.1 ∉ used)
      then [c_target ic.2]
           :: (cons (c_target ic.2)
                 <$> causal_trails g fuel' (ic.1 :: used) (c_target ic.2))
      else []
  end.

(** The record of one path from [fm], if it ends in an observed observation:
    [path_nodes[1..-1]] without the names of the two ends. *)
Definition causal_path_record (observations : list string) (fm : Node)
    (trail : list Node) : option CausalPath :=
  o ← last trail;
  if decide (node_type o = ObservationT ∧ node_name o ∈ observations)
  then Some {| cp_failure_mode := node_name fm;
               cp_observation := node_name o;
               intermediate_nodes :=
                 if decide (2 < length (fm :: trail))
                 then filter (fun name => name ≠ node_name fm
                                          ∧ name ≠ node_name o)
                             (node_name <$> removelast trail)
                 else [] |}
  else None.

(** [DiagnosticEngine.get_causal_paths] *)
Definition get_causal_paths (g : Graph) (failure_mode_name : string)
    (observations : list string) : list CausalPath :=
  fm ← filter (fun fm => node_type fm = FailureModeT
                         ∧ node_name fm = failure_mode_name) (nodes g);
  omap (causal_path_record observations fm)
       (causal_trails g (length (causes g)) [] fm).

(** A path of [CAUSES] edges as the store sees it: one or more edges, each
    leaving the node the one before it enters, none of them at a position in
    [used] or taken twice.  The list holds the nodes after [n]. *)
Inductive is_trail (g : Graph) : list nat → Node → list Node → Prop :=
  | trail_last used n i c :
      causes g !! i = Some c → c_source c = n → i ∉ used →
      is_trail g used n [c_target c]
  | trail_step used n i c rest :
      causes g !! i = Some c → c_source c = n → i ∉ used →
      is_trail g (i :: used) (c_target c) rest →
      is_trail g used n (c_target c :: rest).

(** A chain: a short circuit blows the fuse, and the blown fuse silences the
    music. *)
Definition short_circuit : Node := mkNode 8 "Short Circuit" FailureModeT.
Definition blown_fuse : Node := mkNode 9 "Blown Fuse" FailureModeT.
Definition chain_graph : Graph :=
  {| nodes := [short_circuit; blown_fuse; no_music];
     causes := [mkCauses short_circuit blown_fuse;
                mkCauses blown_fuse no_music];
     evidence := [] |}.

Section DiagnoseFacts.

Variable g : Graph.
Variable observations : list string.
Variable sensor_readings : gmap string Qc.

Local Abbreviation rows := (evidence_rows g observations sensor_readings).
Local Abbreviation row_of := (result_row g observations sensor_readings).
Local Abbreviation group_of := (grouped_row g observations sensor_readings).

Lemma insert_by_key_perm r l : insert_by_key r l ≡ₚ r :: l.
Proof.
  induction l as [|r' l IH]; simpl; [done|].
  case_bool_decide; [done|].
  rewrite IH. apply Permutation_swap.
Qed.

Lemma order_by_key_perm l : order_by_key l ≡ₚ l.
Proof.
  induction l as [|r l IH]; simpl; [done|].
  unfold order_by_key in *. simpl.
  by rewrite insert_by_key_perm, IH.
Qed.

(** Every returned record is the row of a candidate, and conversely. *)
Lemma elem_of_diagnose r :
  r ∈ diagnose g observations sensor_readings
  ↔ ∃ fm, fm ∈ candidates g observations ∧ row_of fm = Some r.
Proof.
  unfold diagnose. rewrite order_by_key_perm.
  apply list_elem_of_omap.
Qed.

Lemma candidate_elem fm :
  fm ∈ candidates g observations
  ↔ fm ∈ nodes g ∧ node_type fm = FailureModeT
    ∧ explains_observation g observations fm = true.
Proof. unfold candidates. rewrite list_elem_of_filter. tauto. Qed.

Lemma grouped_row_Some fm r :
  group_of fm = Some r
  ↔ rows fm ≠ [] ∧ r = aggregate sensor_readings fm (rows fm).
Proof.
  unfold grouped_row. destruct (evidence_rows _ _ _ _).
  - split; [done|]. by intros [? _].
  - split; [by intros [= <-]|by intros [_ ->]].
Qed.

Lemma result_row_Some fm r :
  row_of fm = Some r
  ↔ rows fm ≠ [] ∧ r = aggregate sensor_readings fm (rows fm)
    ∧ confidence r ≠ RULES_OUT.
Proof.
  unfold result_row. destruct (group_of fm) as [r'|] eqn:E; simpl.
  - apply grouped_row_Some in E as [Hne ->].
    case_bool_decide as Hc.
    + split; [by intros [= <-]|by intros (_ & -> & _)].
    + split; [done|]. by intros (_ & -> & ?).
  - split; [done|]. intros (Hne & -> & _).
    assert (group_of fm = Some (aggregate sensor_readings fm (rows fm)))
      as E' by by apply grouped_row_Some.
    by rewrite E in E'.
Qed.

Lemma result_row_name fm r : row_of fm = Some r → failure_mode r = node_name fm.
Proof. by intros (_ & -> & _)%result_row_Some. Qed.

(** Under the uniqueness constraint, the records named after [fm] are the
    rows of [fm] itself. *)
Lemma diagnose_named fm r :
  unique_name g fm →
  r ∈ diagnose g observations sensor_readings →
  failure_mode r = node_name fm →
  row_of fm = Some r.
Proof.
  intros Huniq [fm' [Hcand Hrow]]%elem_of_diagnose Hname.
  apply candidate_elem in Hcand as (Hin & Hty & _).
  rewrite (result_row_name _ _ Hrow) in Hname.
  by rewrite <-(Huniq fm' Hin Hty Hname).
Qed.

Lemma false_strength_collected fm ev s :
  ev ∈ rows fm → when_false_strength_value sensor_readings ev = Some s →
  s ∈ collect_false_strengths sensor_readings (rows fm).
Proof. intros. apply list_elem_of_omap. eauto. Qed.

(** The flag and the strength of a contradiction are set together. *)
Lemma when_false_strength_flag ev s :
  when_false_strength_value sensor_readings ev = Some s →
  contradicting_flag sensor_readings ev = Some "contradicting".
Proof.
  unfold when_false_strength_value, contradicting_flag.
  destruct (ev_evidence_type ev); [done|].
  by destruct (comparison_fails _ _).
Qed.

Lemma evidence_rows_named ev fm :
  ev ∈ rows fm → is_Some (ev_name ev).
Proof. unfold evidence_rows. by intros [? _]%list_elem_of_filter. Qed.

Lemma contradicting_collected ev fm n :
  ev ∈ rows fm → ev_name ev = Some n →
  contradicting_flag sensor_readings ev = Some "contradicting" →
  n ∈ collect_contradicting_evidence sensor_readings (rows fm).
Proof.
  intros Hin Hn Hflag. apply list_elem_of_omap.
  exists ev. split; [|done]. by apply list_elem_of_filter.
Qed.

(** The group of a ruled-out failure mode never passes
    [WHERE confidence <> 'rules_out']. *)
Lemma ruled_out_row fm :
  RULES_OUT ∈ collect_false_strengths sensor_readings (rows fm) →
  row_of fm = None.
Proof.
  intros Hin. destruct (row_of fm) as [r|] eqn:E; [|done].
  apply result_row_Some in E as (_ & -> & Hconf).
  unfold aggregate, overall_confidence in Hconf; simpl in Hconf.
  by rewrite bool_decide_eq_true_2 in Hconf.
Qed.

End DiagnoseFacts.

(** A failure mode with a row that the query flags as contradicting and
    that carries [rules_out] is not returned. *)
Lemma flagged_rules_out_absent (g : Graph) (observations : list string)
    (sensor_readings : gmap string Qc) (fm : Node) (name : string) :
  unique_name g fm →
  contradicting_contribution g observations sensor_readings fm name
    (Some RULES_OUT) →
  node_name fm ∉ failure_mode <$> diagnose g observations sensor_readings.
Proof.
  intros Huniq (ev & Hin & _ & _ & Hstrength).
  intros (r & Hname & Hr)%list_elem_of_fmap.
  pose proof (diagnose_named _ _ _ _ _ Huniq Hr (eq_sym Hname)) as Hrow.
  rewrite ruled_out_row in Hrow; [done|].
  by eapply false_strength_collected.
Qed.

(** Closes [unique_name] on a concrete graph, node by node. *)
Ltac solve_unique_name :=
  let fm' := fresh "fm'" in
  let Hin := fresh "Hin" in
  intros fm' Hin ? ?; cbn in Hin;
  repeat (apply elem_of_cons in Hin as [->|Hin]);
  solve [reflexivity | discriminate | by apply elem_of_nil in Hin].

(** A returned record whose failure mode has a row that the query flags as
    contradicting reports [inconclusive]. *)
Lemma flagged_contradiction_inconclusive (g : Graph)
    (observations : list string) (sensor_readings : gmap string Qc)
    (fm : Node) (name : string) (s : option EvidenceStrength)
    (r : DiagnosticResult) :
  unique_name g fm →
  r ∈ diagnose g observations sensor_readings →
  failure_mode r = node_name fm →
  contradicting_contribution g observations sensor_readings fm name s →
  confidence r = INCONCLUSIVE.
Proof.
  intros Huniq Hr Hname (ev & Hin & Hn & Hflag & _).
  apply (diagnose_named _ _ _ _ _ Huniq Hr) in Hname.
  apply result_row_Some in Hname as (_ & -> & Hconf).
  pose proof (contradicting_collected _ _ _ _ _ _ Hin Hn Hflag) as Hc.
  unfold aggregate, overall_confidence in *; simpl in *.
  case_bool_decide; [done|].
  rewrite bool_decide_eq_true_2; [done|].
  destruct (collect_contradicting_evidence _ _); [|simpl; lia].
  by apply elem_of_nil in Hc.
Qed.

(** C5 -- the concrete scenarios.  On [battery_graph], a voltage of 3.5
    returns exactly Dead Battery, confirmed, supported by [battery_voltage];
    a voltage of 12.0 returns nothing.  On [no_sound_graph], where the
    speaker is met first, both failure modes are returned and the confirmed
    one comes before the suggested one. *)
Theorem concrete_scenarios :
  diagnose battery_graph ["No Music"] low_voltage
  = [ {| failure_mode := "Dead Battery";
         confidence := CONFIRMS;
         supporting_evidence := ["battery_voltage"];
         contradicting_evidence := [] |} ]
  ∧ diagnose battery_graph ["No Music"] good_voltage = []
  ∧ diagnose no_sound_graph ["No Sound"; "Crackling"] low_voltage
    = [ {| failure_mode := "Dead Battery";
           confidence := CONFIRMS;
           supporting_evidence := ["battery_voltage"];
           contradicting_evidence := [] |};
        {| failure_mode := "Blown Speaker";
           confidence := SUGGESTS;
           supporting_evidence := ["Crackling"];
           contradicting_evidence := [] |} ].
Proof. repeat split; by vm_compute. Qed.

(* ===================================================================== *)
(** ** The precedence order *)
(* ===================================================================== *)

Section PrecedenceFacts.

Variable g : Graph.
Variable observations : list string.
Variable sensor_readings : gmap string Qc.

Local Abbreviation rows := (evidence_rows g observations sensor_readings).
Local Abbreviation row_of := (result_row g observations sensor_readings).

Lemma filter_eq_nonempty (s : EvidenceStrength) (l : list EvidenceStrength) :
  0 < length (filter (fun x => x = s) l) ↔ s ∈ l.
Proof.
  induction l as [|x l IH]; simpl.
  - split; [lia|by intros ?%elem_of_nil].
  - rewrite filter_cons, elem_of_cons. case_decide as Hx.
    + subst. simpl. split; [by left|lia].
    + rewrite IH. split; [by right|]. by intros [->|].
Qed.

(** The query's [CASE], once nothing rules the failure mode out and nothing
    contradicts it, is the spec's precedence rule. *)
Lemma overall_confidence_precedence (strengths : list EvidenceStrength) :
  overall_confidence false [] strengths = spec_first_in_precedence strengths.
Proof.
  unfold overall_confidence, spec_first_in_precedence, precedence. simpl.
  rewrite !filter_cons, filter_nil.
  repeat case_bool_decide; repeat case_decide; simpl.
  all: rewrite ?filter_eq_nonempty in *.
  all: done.
Qed.

(** A [WHEN operator = lit AND cmp] branch is taken exactly when the stored
    operator is [lit] and the comparison is true. *)
Lemma when_operator (op : option string) (lit : string) (cmp : Cypher.tv) :
  Cypher.is_true (Cypher.and (Cypher.str_eq op lit) cmp) = true
  ↔ op = Some lit ∧ cmp = Some true.
Proof.
  destruct op as [o|], cmp as [[]|]; simpl; try case_bool_decide;
    split; try discriminate; try (by intros [[=] [=]]).
  all: by subst.
Qed.

Lemma effective_strength_sensor ev s :
  ev_evidence_type ev = EvSensor →
  effective_strength sensor_readings ev = Some s
  ↔ ev_strength ev = Some s
    ∧ ((ev_operator ev = Some "<"
        ∧ Cypher.lt (reading sensor_readings ev) (ev_threshold ev) = Some true)
       ∨ (ev_operator ev = Some ">"
          ∧ Cypher.gt (reading sensor_readings ev) (ev_threshold ev)
            = Some true)
       ∨ (ev_operator ev = Some "="
          ∧ Cypher.eq (reading sensor_readings ev) (ev_threshold ev)
            = Some true)).
Proof.
  intros Hty. unfold effective_strength. rewrite Hty.
  destruct (Cypher.is_true (Cypher.and (Cypher.str_eq _ "<") _)) eqn:Hlt;
    [apply when_operator in Hlt; tauto|].
  destruct (Cypher.is_true (Cypher.and (Cypher.str_eq _ ">") _)) eqn:Hgt;
    [apply when_operator in Hgt; tauto|].
  destruct (Cypher.is_true (Cypher.and (Cypher.str_eq _ "=") _)) eqn:Heq;
    [apply when_operator in Heq; tauto|].
  apply not_true_iff_false in Hlt, Hgt, Heq.
  rewrite when_operator in Hlt, Hgt, Heq.
  split; [done|tauto].
Qed.

Lemma comparison_fails_true ev :
  comparison_fails sensor_readings ev = true
  ↔ (ev_operator ev = Some "<"
     ∧ Cypher.ge (reading sensor_readings ev) (ev_threshold ev) = Some true)
    ∨ (ev_operator ev = Some ">"
       ∧ Cypher.le (reading sensor_readings ev) (ev_threshold ev) = Some true)
    ∨ (ev_operator ev = Some "="
       ∧ Cypher.ne (reading sensor_readings ev) (ev_threshold ev) = Some true).
Proof.
  unfold comparison_fails. rewrite !orb_true_iff, !when_operator. tauto.
Qed.

(** For one operator, the comparison and its opposite are never both true. *)
Lemma lt_ge_exclusive v t :
  Cypher.lt v t = Some true → Cypher.ge v t = Some true → False.
Proof.
  destruct v as [v|], t as [[t|]|]; simpl; try done.
  intros [= Hlt%bool_decide_eq_true] [= Hge%bool_decide_eq_true].
  by apply Qclt_not_le in Hlt.
Qed.

Lemma gt_le_exclusive v t :
  Cypher.gt v t = Some true → Cypher.le v t = Some true → False.
Proof.
  destruct v as [v|], t as [[t|]|]; simpl; try done.
  intros [= Hlt%bool_decide_eq_true] [= Hge%bool_decide_eq_true].
  by apply Qclt_not_le in Hlt.
Qed.

Lemma eq_ne_exclusive v t :
  Cypher.eq v t = Some true → Cypher.ne v t = Some true → False.
Proof. unfold Cypher.ne. by intros ->. Qed.

(** A row that supports does not contradict. *)
Lemma effective_strength_not_contradicting ev s :
  effective_strength sensor_readings ev = Some s →
  contradicting_flag sensor_readings ev = None.
Proof.
  unfold contradicting_flag.
  destruct (ev_evidence_type ev) eqn:Hty; [done|].
  intros [_ Hs]%effective_strength_sensor; [|done].
  destruct (comparison_fails sensor_readings ev) eqn:Hf; [|done].
  apply comparison_fails_true in Hf.
  destruct Hs as [[Ho H]|[[Ho H]|[Ho H]]], Hf as [[Ho' H']|[[Ho' H']|[Ho' H']]];
    rewrite Ho in Ho'; try discriminate;
    exfalso; eauto using lt_ge_exclusive, gt_le_exclusive, eq_ne_exclusive.
Qed.

Lemma strengths_are_supporting fm s :
  s ∈ collect_strengths sensor_readings (rows fm)
  ↔ ∃ name, supporting_contribution g observations sensor_readings fm name s.
Proof.
  unfold collect_strengths, supporting_contribution.
  rewrite list_elem_of_omap. split.
  - intros (ev & Hin & Hs).
    destruct (evidence_rows_named _ _ _ _ _ Hin) as [n Hn].
    exists n, ev. eauto using effective_strength_not_contradicting.
  - intros (n & ev & Hin & _ & _ & Hs). eauto.
Qed.

(** Without a contradicting contribution the group has no contradicting
    evidence and is not ruled out. *)
Lemma no_contradiction_aggregate fm :
  (∀ name s, ¬ contradicting_contribution g observations sensor_readings
                 fm name s) →
  collect_contradicting_evidence sensor_readings (rows fm) = []
  ∧ collect_false_strengths sensor_readings (rows fm) = [].
Proof.
  intros Hno. split; apply elem_of_nil_inv; intros x.
  - intros (ev & [Hflag Hin]%list_elem_of_filter & Hn)%list_elem_of_omap.
    apply (Hno x (when_false_strength_value sensor_readings ev)).
    by exists ev.
  - intros (ev & Hin & Hs)%list_elem_of_omap.
    destruct (evidence_rows_named _ _ _ _ _ Hin) as [n Hn].
    apply (Hno n (Some x)). exists ev.
    eauto using when_false_strength_flag.
Qed.

Lemma no_contradiction_confidence fm :
  (∀ name s, ¬ contradicting_contribution g observations sensor_readings
                 fm name s) →
  confidence (aggregate sensor_readings fm (rows fm))
  = spec_first_in_precedence (collect_strengths sensor_readings (rows fm)).
Proof.
  intros [Hc Hf]%no_contradiction_aggregate.
  unfold aggregate; simpl. rewrite Hc, Hf.
  rewrite bool_decide_eq_false_2 by by intros ?%elem_of_nil.
  apply overall_confidence_precedence.
Qed.

End PrecedenceFacts.

(** The confidence of a candidate with at least one evidence row, none of
    them flagged as contradicting, follows the strengths that the query
    collects. *)
Lemma precedence_of_strengths (g : Graph) (observations : list string)
    (sensor_readings : gmap string Qc) (fm : Node) :
  unique_name g fm →
  fm ∈ candidates g observations →
  evidence_rows g observations sensor_readings fm ≠ [] →
  (∀ name s, ¬ contradicting_contribution g observations sensor_readings
                 fm name s) →
  let c := spec_first_in_precedence
             (collect_strengths sensor_readings
                (evidence_rows g observations sensor_readings fm)) in
  if decide (c = RULES_OUT)
  then node_name fm
       ∉ failure_mode <$> diagnose g observations sensor_readings
  else (∃ r, r ∈ diagnose g observations sensor_readings
             ∧ failure_mode r = node_name fm)
       ∧ ∀ r, r ∈ diagnose g observations sensor_readings →
              failure_mode r = node_name fm → confidence r = c.
Proof.
  intros Huniq Hcand Hrows Hno c.
  pose proof (no_contradiction_confidence _ _ _ _ Hno) as Hconf.
  fold c in Hconf.
  destruct (decide (c = RULES_OUT)) as [Hc|Hc].
  - intros (r & Hname & Hr)%list_elem_of_fmap.
    pose proof (diagnose_named _ _ _ _ _ Huniq Hr (eq_sym Hname)) as Hrow.
    apply result_row_Some in Hrow as (_ & -> & Hne). congruence.
  - split.
    + exists (aggregate sensor_readings fm
                (evidence_rows g observations sensor_readings fm)).
      split; [|done]. apply elem_of_diagnose. exists fm. split; [done|].
      apply result_row_Some. repeat split; [done|congruence].
    + intros r Hr Hname.
      apply (diagnose_named _ _ _ _ _ Huniq Hr) in Hname.
      by apply result_row_Some in Hname as (_ & -> & _).
Qed.

(** Closes "no contradicting contribution" on concrete inputs: every
    evidence row is inspected. *)
Ltac solve_no_contradiction :=
  let Hin := fresh "Hin" in
  let Hflag := fresh "Hflag" in
  intros ? ? (? & Hin & _ & Hflag & _);
  vm_compute in Hin;
  repeat (apply elem_of_cons in Hin as [->|Hin]);
  solve [by vm_compute in Hflag | by apply elem_of_nil in Hin].

(* ===================================================================== *)
(** ** Operator evaluation *)
(* ===================================================================== *)

Section OperatorFacts.

Variable g : Graph.
Variable observations : list string.
Variable sensor_readings : gmap string Qc.

Lemma sensor_edge_row e fm :
  e ∈ evidence g → e_target e = fm →
  node_type (e_source e) = SensorReadingT →
  is_Some (sensor_readings !! node_name (e_source e)) →
  sensor_map e ∈ evidence_rows g observations sensor_readings fm.
Proof.
  intros Hin Ht Hty Hv.
  unfold evidence_rows, all_evidence. apply list_elem_of_filter.
  split; [by eexists|]. apply elem_of_app. right.
  assert (e ∈ sensor_edges g sensor_readings fm) as He
    by by apply list_elem_of_filter.
  unfold sensor_evidence.
  destruct (sensor_edges g sensor_readings fm) eqn:E;
    [by apply elem_of_nil in He|].
  by apply list_elem_of_fmap_2.
Qed.

Lemma sensor_map_reading e v :
  sensor_readings !! node_name (e_source e) = Some v →
  reading sensor_readings (sensor_map e) = Some v.
Proof. done. Qed.

(** The three columns of a sensor row whose comparison, under one of the
    operators the query knows, is true. *)
Lemma sensor_row_true e v t (op : ComparisonOperator) :
  sensor_readings !! node_name (e_source e) = Some v →
  e_operator e = Some (operator_value op) →
  e_threshold e = Some (TNum t) →
  op ∈ [EQUALS; LESS_THAN; GREATER_THAN] →
  spec_operator_holds op v (TNum t) →
  effective_strength sensor_readings (sensor_map e) = e_when_true_strength e
  ∧ contradicting_flag sensor_readings (sensor_map e) = None
  ∧ when_false_strength_value sensor_readings (sensor_map e) = None.
Proof.
  intros Hv Hop Hth Hin Hholds.
  unfold effective_strength, contradicting_flag, when_false_strength_value,
    comparison_fails. simpl.
  rewrite (sensor_map_reading _ _ Hv), Hop, Hth.
  repeat (apply elem_of_cons in Hin as [->|Hin]);
    [..|by apply elem_of_nil in Hin]; simpl in *.
  - rewrite (bool_decide_eq_true_2 (v = t)) by done. done.
  - rewrite (bool_decide_eq_true_2 (v < t)%Qc) by done.
    rewrite (bool_decide_eq_false_2 (t <= v)%Qc)
      by by apply Qclt_not_le. done.
  - rewrite (bool_decide_eq_true_2 (t < v)%Qc) by done.
    rewrite (bool_decide_eq_false_2 (v <= t)%Qc)
      by by apply Qclt_not_le. done.
Qed.

(** ... and of one whose comparison is false. *)
Lemma sensor_row_false e v t (op : ComparisonOperator) :
  sensor_readings !! node_name (e_source e) = Some v →
  e_operator e = Some (operator_value op) →
  e_threshold e = Some (TNum t) →
  op ∈ [EQUALS; LESS_THAN; GREATER_THAN] →
  ¬ spec_operator_holds op v (TNum t) →
  effective_strength sensor_readings (sensor_map e) = None
  ∧ contradicting_flag sensor_readings (sensor_map e) = Some "contradicting"
  ∧ when_false_strength_value sensor_readings (sensor_map e)
    = e_when_false_strength e.
Proof.
  intros Hv Hop Hth Hin Hholds.
  unfold effective_strength, contradicting_flag, when_false_strength_value,
    comparison_fails. simpl.
  rewrite (sensor_map_reading _ _ Hv), Hop, Hth.
  repeat (apply elem_of_cons in Hin as [->|Hin]);
    [..|by apply elem_of_nil in Hin]; simpl in *.
  - rewrite (bool_decide_eq_false_2 (v = t)) by done. done.
  - rewrite (bool_decide_eq_false_2 (v < t)%Qc) by done.
    rewrite (bool_decide_eq_true_2 (t <= v)%Qc)
      by by apply Qcnot_lt_le. done.
  - rewrite (bool_decide_eq_false_2 (t < v)%Qc) by done.
    rewrite (bool_decide_eq_true_2 (v <= t)%Qc)
      by by apply Qcnot_lt_le. done.
Qed.

(** A row whose operator none of the [WHEN] branches names. *)
Lemma sensor_row_unmatched e (o : string) :
  e_operator e = Some o → o ≠ "<" → o ≠ ">" → o ≠ "=" →
  effective_strength sensor_readings (sensor_map e) = None
  ∧ contradicting_flag sensor_readings (sensor_map e) = None
  ∧ when_false_strength_value sensor_readings (sensor_map e) = None.
Proof.
  intros Hop Hlt Hgt Heq.
  unfold effective_strength, contradicting_flag, when_false_strength_value,
    comparison_fails. simpl. rewrite Hop. simpl.
  by rewrite !bool_decide_eq_false_2 by done.
Qed.

End OperatorFacts.

(** C4 (amended) -- operator evaluation.  A sensor-sourced evidence edge
    whose sensor has a value [v] always yields a row of its failure mode.
    With a numeric threshold and one of the operators [=], [<], [>], the row
    carries [when_true_strength], supporting, when [operator(v, threshold)]
    is true, and [when_false_strength], contradicting, when it is false.
    With an operator that is no member of [ComparisonOperator] the row
    carries no strength of either polarity; [diagnose] returns all the same,
    no error being raised. *)
Theorem operator_evaluation (g : Graph) (observations : list string)
    (sensor_readings : gmap string Qc) (e : EvidenceLink) (v : Qc) :
  e ∈ evidence g →
  node_type (e_source e) = SensorReadingT →
  sensor_readings !! node_name (e_source e) = Some v →
  let ev := sensor_map e in
  ev ∈ evidence_rows g observations sensor_readings (e_target e)
  ∧ (∀ op t,
       e_operator e = Some (operator_value op) →
       e_threshold e = Some (TNum t) →
       op ∈ [EQUALS; LESS_THAN; GREATER_THAN] →
       (spec_operator_holds op v (TNum t) →
        effective_strength sensor_readings ev = e_when_true_strength e
        ∧ contradicting_flag sensor_readings ev = None
        ∧ when_false_strength_value sensor_readings ev = None)
       ∧ (¬ spec_operator_holds op v (TNum t) →
          effective_strength sensor_readings ev = None
          ∧ contradicting_flag sensor_readings ev = Some "contradicting"
          ∧ when_false_strength_value sensor_readings ev
            = e_when_false_strength e))
  ∧ (∀ o,
       e_operator e = Some o →
       o ∉ operator_value <$> all_operators →
       effective_strength sensor_readings ev = None
       ∧ contradicting_flag sensor_readings ev = None
       ∧ when_false_strength_value sensor_readings ev = None).
Proof.
  intros Hin Hty Hv ev. split; [|split].
  - by apply sensor_edge_row.
  - intros op t Hop Hth Hop3.
    split; eauto using sensor_row_true, sensor_row_false.
  - intros o Hop Hnot. apply (sensor_row_unmatched _ _ o Hop).
    all: intros ->; apply Hnot; simpl; rewrite !elem_of_cons; auto.
Qed.

Lemma operator_evaluation_witness :
  let e := battery_edge "<" RULES_OUT in
  let v := Q2Qc (7 # 2) in
  e ∈ evidence battery_graph
  ∧ node_type (e_source e) = SensorReadingT
  ∧ low_voltage !! node_name (e_source e) = Some v
  ∧ sensor_map e ∈ evidence_rows battery_graph ["No Music"] low_voltage
                     (e_target e)
  ∧ effective_strength low_voltage (sensor_map e) = Some CONFIRMS
  ∧ contradicting_flag low_voltage (sensor_map e) = None.
Proof.
  intros e v.
  assert (e ∈ evidence battery_graph) as Hin by (simpl; left).
  assert (low_voltage !! node_name (e_source e) = Some v) as Hv
    by by vm_compute.
  destruct (operator_evaluation battery_graph ["No Music"] low_voltage e v
              Hin eq_refl Hv) as (Hrow & Hknown & _).
  destruct (Hknown LESS_THAN (Q2Qc 4) eq_refl eq_refl) as [Htrue _].
  { rewrite !elem_of_cons. auto. }
  destruct Htrue as (Heff & Hflag & _); [by vm_compute|].
  split; [exact Hin|]. split; [reflexivity|]. split; [exact Hv|].
  split; [exact Hrow|]. split; [exact Heff|exact Hflag].
Defined.

(** C4 as stated fails on [operator_graph "!="]: the sensor has the value
    12.0, the operator is none of the six, and the edge contributes no
    strength of either polarity; [diagnose] raises nothing and returns Dead
    Battery as inconclusive. *)
Lemma operator_evaluation_counterexample :
  let e := battery_edge "!=" RULES_OUT in
  e ∈ evidence (operator_graph "!=")
  ∧ node_type (e_source e) = SensorReadingT
  ∧ good_voltage !! node_name (e_source e) = Some (Q2Qc 12)
  ∧ ("!=" ∉ operator_value <$> all_operators)
  ∧ effective_strength good_voltage (sensor_map e) = None
  ∧ contradicting_flag good_voltage (sensor_map e) = None
  ∧ when_false_strength_value good_voltage (sensor_map e) = None
  ∧ diagnose (operator_graph "!=") ["No Music"] good_voltage
    = [ {| failure_mode := "Dead Battery";
           confidence := INCONCLUSIVE;
           supporting_evidence := ["battery_voltage"];
           contradicting_evidence := [] |} ].
Proof.
  intros e. split; [simpl; left|].
  split; [done|]. split; [by vm_compute|].
  split; [by apply (bool_decide_unpack _)|].
  repeat split; by vm_compute.
Qed.

(** The members [<=], [>=] and [in] of [ComparisonOperator] meet no [WHEN]
    branch either: a reading of 3.5 against [<= 4.0] confirms nothing. *)
Lemma unmatched_member_operators :
  ∀ op, op ∈ [LESS_THAN_EQUAL; GREATER_THAN_EQUAL; IN] →
  diagnose (operator_graph (operator_value op)) ["No Music"] low_voltage
  = [ {| failure_mode := "Dead Battery";
         confidence := INCONCLUSIVE;
         supporting_evidence := ["battery_voltage"];
         contradicting_evidence := [] |} ].
Proof.
  intros op Hop.
  repeat (apply elem_of_cons in Hop as [->|Hop]);
    [..|by apply elem_of_nil in Hop]; by vm_compute.
Qed.

(* ===================================================================== *)
(** ** The evidence lists *)
(* ===================================================================== *)

(** [contradicting_evidence] holds exactly the names of the contradicting
    contributions. *)
Lemma contradicting_evidence_exact (g : Graph) (observations : list string)
    (sensor_readings : gmap string Qc) (fm : Node) (r : DiagnosticResult)
    (name : string) :
  result_row g observations sensor_readings fm = Some r →
  name ∈ contradicting_evidence r
  ↔ ∃ s, contradicting_contribution g observations sensor_readings fm name s.
Proof.
  intros (_ & -> & _)%result_row_Some. simpl.
  unfold collect_contradicting_evidence, contradicting_contribution.
  rewrite list_elem_of_omap. split.
  - intros (ev & [Hflag Hin]%list_elem_of_filter & Hn). eauto 10.
  - intros (s & ev & Hin & Hn & Hflag & _).
    exists ev. by rewrite list_elem_of_filter.
Qed.

(** [supporting_evidence] holds the name of every evidence row, whatever the
    row contributes. *)
Lemma supporting_evidence_every_row (g : Graph) (observations : list string)
    (sensor_readings : gmap string Qc) (fm : Node) (r : DiagnosticResult)
    (name : string) :
  result_row g observations sensor_readings fm = Some r →
  name ∈ supporting_evidence r
  ↔ ∃ ev, ev ∈ evidence_rows g observations sensor_readings fm
          ∧ ev_name ev = Some name.
Proof.
  intros (_ & -> & _)%result_row_Some. simpl.
  unfold collect_supporting_evidence. by rewrite list_elem_of_omap.
Qed.

(** C6 -- the evidence lists, at a failing input.  On [weak_battery_graph]
    with a voltage of 12.0 the sensor edge contradicts Dead Battery (and
    supports nothing), yet the returned record lists [battery_voltage] as
    supporting evidence as well as contradicting evidence. *)
Theorem supporting_evidence_lists_contradiction :
  let r := {| failure_mode := "Dead Battery";
              confidence := INCONCLUSIVE;
              supporting_evidence := ["No Music"; "battery_voltage"];
              contradicting_evidence := ["battery_voltage"] |} in
  diagnose weak_battery_graph ["No Music"] good_voltage = [r]
  ∧ contradicting_contribution weak_battery_graph ["No Music"] good_voltage
      dead_battery "battery_voltage" (Some SUGGESTS_AGAINST)
  ∧ (∀ s, ¬ supporting_contribution weak_battery_graph ["No Music"]
              good_voltage dead_battery "battery_voltage" s)
  ∧ "battery_voltage" ∈ supporting_evidence r.
Proof.
  intros r. split; [by vm_compute|]. split; [|split].
  - exists (sensor_map (battery_edge "<" SUGGESTS_AGAINST)).
    split; [vm_compute; right; left|by vm_compute].
  - intros s (ev & Hin & Hn & _ & Hs). vm_compute in Hin.
    repeat (apply elem_of_cons in Hin as [->|Hin]);
      [by vm_compute in Hn|by vm_compute in Hs|by apply elem_of_nil in Hin].
  - simpl. right. left.
Qed.

(* ===================================================================== *)
(** * Properties of the truth table *)
(* ===================================================================== *)

Section RegistryFacts.

Variable test_case : Inputs.

(** The [if] of the registry loop tests the spec's exact match. *)
Lemma inputs_match_exact exp :
  inputs_match exp test_case = true ↔ spec_exact_match exp test_case.
Proof.
  unfold inputs_match, spec_exact_match.
  rewrite andb_true_iff, !bool_decide_eq_true.
  split; intros [Hobs Hsens]; (split; [|done]).
  - intros o. by rewrite <-!(elem_of_list_to_set (C:=gset string)), Hobs.
  - apply set_eq. intros o. by rewrite !elem_of_list_to_set.
Qed.

Lemma registry_no_match l acc :
  (∀ exp, exp ∈ l → ¬ spec_exact_match exp test_case) →
  foldl (registry_step test_case) acc l = acc.
Proof.
  revert acc. induction l as [|exp l IH]; intros acc Hno; simpl; [done|].
  rewrite IH by (intros ??; apply Hno; by right).
  unfold registry_step. destruct acc as [h ex].
  destruct (inputs_match exp test_case) eqn:E; [|done].
  apply inputs_match_exact in E. destruct (Hno exp); [by left|done].
Qed.

Lemma registry_last_match l1 exp l2 acc :
  spec_exact_match exp test_case →
  (∀ exp', exp' ∈ l2 → ¬ spec_exact_match exp' test_case) →
  foldl (registry_step test_case) acc (l1 ++ exp :: l2) = (true, expected exp).
Proof.
  intros Hm%inputs_match_exact Hno. rewrite foldl_app. simpl.
  rewrite registry_no_match by done.
  unfold registry_step at 1. destruct (foldl _ _ l1). by rewrite Hm.
Qed.

End RegistryFacts.

Lemma registry_cases (test_case : Inputs) (l : list TestCase) :
  (∀ exp, exp ∈ l → ¬ spec_exact_match exp test_case)
  ∨ ∃ l1 exp l2, l = l1 ++ exp :: l2
                 ∧ spec_exact_match exp test_case
                 ∧ ∀ exp', exp' ∈ l2 → ¬ spec_exact_match exp' test_case.
Proof.
  induction l as [|x l IH] using rev_ind.
  - left. by intros ? ?%elem_of_nil.
  - destruct (inputs_match x test_case) eqn:E.
    + right. exists l, x, []. apply inputs_match_exact in E.
      split; [done|]. split; [done|]. by intros ? ?%elem_of_nil.
    + assert (¬ spec_exact_match x test_case) as Hx
        by (rewrite <-inputs_match_exact; congruence).
      destruct IH as [Hno|(l1 & exp & l2 & -> & Hm & Hno)].
      * left. intros exp [?| ->%list_elem_of_singleton]%elem_of_app; auto.
      * right. exists l1, exp, (l2 ++ [x]).
        split; [by rewrite <-app_assoc|]. split; [done|].
        intros exp' [?| ->%list_elem_of_singleton]%elem_of_app; auto.
Qed.

Lemma length_pos_nonempty {A} (l : list A) :
  bool_decide (0 < length l) = true ↔ l ≠ [].
Proof.
  rewrite bool_decide_eq_true. destruct l; simpl; [|split; [done|lia]].
  split; [lia|done].
Qed.

(** C7 (amended) -- registry matching and the surprise flag.  When the
    diagnosis call returns, [run_test_case] returns a result whose
    [has_surprise] is true if and only if some registered expectation matches
    the case input exactly and the diff against the last such expectation in
    registration order is non-empty: [unexpected] holds the actual entries
    absent from its expected list, [missing] the expected entries absent from
    the actual ones.  When no registered expectation matches, [has_surprise]
    is false and both lists are empty. *)
Theorem registry_matching
    (engine : list string → gmap string Qc → result (list DiagnosticResult))
    (tt : TruthTable) (test_case : Inputs) (ds : list DiagnosticResult) :
  engine (tc_observations test_case) (tc_sensor_values test_case) = Ok ds →
  ∃ r, run_test_case engine tt test_case = Ok r
    ∧ diagnosed_failure_modes r = to_outcome <$> ds
    ∧ (has_surprise r = true
       ↔ ∃ l1 exp l2,
           expected_outcomes tt = l1 ++ exp :: l2
           ∧ spec_exact_match exp test_case
           ∧ (∀ exp', exp' ∈ l2 → ¬ spec_exact_match exp' test_case)
           ∧ (filter (fun a => a ∉ expected exp) (to_outcome <$> ds) ≠ []
              ∨ filter (fun e => e ∉ to_outcome <$> ds) (expected exp) ≠ []))
    ∧ (∀ l1 exp l2,
         expected_outcomes tt = l1 ++ exp :: l2 →
         spec_exact_match exp test_case →
         (∀ exp', exp' ∈ l2 → ¬ spec_exact_match exp' test_case) →
         expected_failure_modes r = expected exp
         ∧ unexpected_results r
           = filter (fun a => a ∉ expected exp) (to_outcome <$> ds)
         ∧ missing_results r
           = filter (fun e => e ∉ to_outcome <$> ds) (expected exp))
    ∧ ((∀ exp, exp ∈ expected_outcomes tt → ¬ spec_exact_match exp test_case) →
       has_surprise r = false
       ∧ unexpected_results r = [] ∧ missing_results r = []).
Proof.
  intros Hds. unfold run_test_case. rewrite Hds. simpl.
  destruct (find_expected tt test_case) as [h ex] eqn:E.
  eexists. split; [done|]. simpl. split; [done|].
  unfold find_expected in E.
  destruct (registry_cases test_case (expected_outcomes tt))
    as [Hno|(l1 & exp & l2 & Hl & Hm & Hno)].
  - rewrite registry_no_match in E by done. injection E as <- <-.
    split; [|split; [|done]].
    + split; [done|]. intros (l1 & exp & l2 & Hl & Hm & _).
      destruct (Hno exp); [|done]. rewrite Hl, elem_of_app. right. by left.
    + intros l1 exp l2 Hl Hm _.
      destruct (Hno exp); [|done]. rewrite Hl, elem_of_app. right. by left.
  - pose proof E as E'.
    rewrite Hl, (registry_last_match _ _ _ _ _ Hm Hno) in E'.
    injection E' as <- <-. simpl.
    assert (∀ l1' exp' l2',
              expected_outcomes tt = l1' ++ exp' :: l2' →
              spec_exact_match exp' test_case →
              (∀ x, x ∈ l2' → ¬ spec_exact_match x test_case) →
              expected exp' = expected exp) as Hsame.
    { intros l1' exp' l2' Hl' Hm' Hno'.
      rewrite Hl', (registry_last_match _ _ _ _ _ Hm' Hno') in E.
      by injection E. }
    split; [|split].
    + rewrite orb_true_iff, !length_pos_nonempty. split.
      * intros Hdiff. by exists l1, exp, l2.
      * intros (l1' & exp' & l2' & Hl' & Hm' & Hno' & Hdiff).
        by rewrite (Hsame _ _ _ Hl' Hm' Hno') in Hdiff.
    + intros l1' exp' l2' Hl' Hm' Hno'.
      by rewrite (Hsame _ _ _ Hl' Hm' Hno').
    + intros Hnone. destruct (Hnone exp); [|done].
      rewrite Hl, elem_of_app. right. by left.
Qed.

Lemma registry_matching_witness :
  let ds := diagnose battery_graph ["No Music"] low_voltage in
  graph_engine battery_graph (tc_observations low_battery_case)
    (tc_sensor_values low_battery_case) = Ok ds
  ∧ ∃ r, run_test_case (graph_engine battery_graph) once_registered
           low_battery_case = Ok r
         ∧ diagnosed_failure_modes r = to_outcome <$> ds.
Proof.
  intros ds. split; [reflexivity|].
  destruct (registry_matching (graph_engine battery_graph) once_registered
              low_battery_case ds eq_refl) as (r & Hrun & Hactual & _).
  exists r. split; [exact Hrun|exact Hactual].
Defined.

(** C7 as stated fails on [twice_registered]: the first registration matches
    the case exactly and the diff against it is non-empty (the confirmed Dead
    Battery is unexpected), yet [has_surprise] is false, because the second
    registration of the same input overwrote the first. *)
Lemma registry_matching_counterexample :
  ∃ r, run_test_case (graph_engine battery_graph) twice_registered
         low_battery_case = Ok r
    ∧ has_surprise r = false
    ∧ ∃ exp, exp ∈ expected_outcomes twice_registered
             ∧ spec_exact_match exp low_battery_case
             ∧ filter (fun a => a ∉ expected exp) (diagnosed_failure_modes r)
               ≠ [].
Proof.
  eexists. split; [by vm_compute|]. split; [done|].
  exists (expect_low_battery []). split; [simpl; left|].
  split; [by apply inputs_match_exact; vm_compute|by vm_compute].
Qed.

(* ===================================================================== *)
(** ** The generated observation combinations *)
(* ===================================================================== *)

Section Combinations.

Context {A : Type}.
Implicit Types (l c : list A) (r : nat).

Lemma combinations_0 l : combinations l 0 = [[]].
Proof. by destruct l. Qed.

Lemma combinations_nil_S r : combinations (@nil A) (S r) = [].
Proof. done. Qed.

Lemma combinations_cons_S x l r :
  combinations (x :: l) (S r)
  = (cons x <$> combinations l r) ++ combinations l (S r).
Proof. done. Qed.

(** The combinations of size [r] are the subsequences of length [r]. *)
Lemma elem_of_combinations l r c :
  c ∈ combinations l r ↔ c `sublist_of` l ∧ length c = r.
Proof.
  revert r c. induction l as [|x l IH]; intros [|r] c.
  - rewrite combinations_0, list_elem_of_singleton.
    split; [intros ->; split; [constructor|done]|].
    by intros [_ ->%nil_length_inv].
  - rewrite combinations_nil_S, elem_of_nil, sublist_nil_r.
    split; [done|]. by intros [-> ?].
  - rewrite combinations_0, list_elem_of_singleton.
    split; [intros ->; split; [apply sublist_nil_l|done]|].
    by intros [_ ->%nil_length_inv].
  - rewrite combinations_cons_S, elem_of_app, list_elem_of_fmap, sublist_cons_r.
    setoid_rewrite IH. split.
    + intros [(c' & -> & Hsub & <-)|[Hsub Hlen]]; [|by auto].
      split; [right; by exists c'|done].
    + intros [[Hsub|(c' & -> & Hsub)] Hlen]; [by right|].
      left. exists c'. simpl in Hlen. by simplify_eq.
Qed.

Lemma combinations_too_long l r : length l < r → combinations l r = [].
Proof.
  intros Hlt. apply elem_of_nil_inv. intros c [Hsub Hlen]%elem_of_combinations.
  apply sublist_length in Hsub. lia.
Qed.

(** The number of combinations of sizes below [n]. *)
Lemma combinations_below_cons x l n :
  length (r ← seq 0 (S n); combinations (x :: l) r)
  = length (r ← seq 0 n; combinations l r)
    + length (r ← seq 0 (S n); combinations l r).
Proof.
  induction n as [|n IH].
  - simpl. by rewrite !combinations_0.
  - rewrite (seq_S (S n)), !bind_app, !length_app, IH.
    rewrite (seq_S n), !bind_app, !length_app, !bind_singleton.
    cbn [Nat.add]. rewrite combinations_cons_S, length_app, length_fmap. lia.
Qed.

Lemma combinations_count l :
  length (r ← seq 0 (S (length l)); combinations l r) = 2 ^ length l.
Proof.
  induction l as [|x l IH].
  - done.
  - cbn [length]. rewrite combinations_below_cons, IH.
    rewrite (seq_S (S (length l))), bind_app, length_app, IH, bind_singleton.
    cbn [Nat.add].
    rewrite (combinations_too_long l (S (length l))) by lia.
    rewrite Nat.pow_succ_r'. simpl. lia.
Qed.

Lemma combinations_NoDup l r : NoDup l → NoDup (combinations l r).
Proof.
  intros Hl. revert r. induction Hl as [|x l Hx Hl IH]; intros [|r].
  - rewrite combinations_0. apply NoDup_singleton.
  - rewrite combinations_nil_S. constructor.
  - rewrite combinations_0. apply NoDup_singleton.
  - rewrite combinations_cons_S. apply NoDup_app. split; [|split].
    + apply NoDup_fmap_2; [|done]. by intros ?? [=].
    + intros c (c' & -> & _)%list_elem_of_fmap [Hsub _]%elem_of_combinations.
      apply Hx. eapply elem_of_sublist; [|done]. by left.
    + done.
Qed.

End Combinations.

Lemma observation_combinations_sizes (vary : list string) :
  observation_combinations vary
  = (r ← seq 0 (S (length vary)); combinations vary r).
Proof.
  unfold observation_combinations. cbn [seq].
  by rewrite bind_cons, combinations_0.
Qed.

Lemma observation_combinations_length (vary : list string) :
  length (observation_combinations vary) = 2 ^ length vary.
Proof. rewrite observation_combinations_sizes. apply combinations_count. Qed.

Lemma elem_of_observation_combinations (vary c : list string) :
  c ∈ observation_combinations vary ↔ c `sublist_of` vary.
Proof.
  rewrite observation_combinations_sizes, list_elem_of_bind. split.
  - by intros (r & [? _]%elem_of_combinations & _).
  - intros Hsub. exists (length c). split; [by apply elem_of_combinations|].
    apply elem_of_seq. apply sublist_length in Hsub. lia.
Qed.

Lemma observation_combinations_NoDup (vary : list string) :
  NoDup vary → NoDup (observation_combinations vary).
Proof.
  intros Hvary. rewrite observation_combinations_sizes. apply NoDup_bind.
  - intros r1 r2 c _ _ [_ <-]%elem_of_combinations [_ <-]%elem_of_combinations.
    done.
  - intros r _. by apply combinations_NoDup.
  - apply NoDup_seq.
Qed.

(** C8 (amended) -- power-set completeness.  With no fixed observations,
    [generate_test_cases] varies the given observations, or, when none is
    given, every observation registered in the truth table.  For the [k]
    varied names it builds exactly [2 ^ k] observation combinations: the
    subsequences of the varied list, the empty one included, pairwise
    distinct when the names are.  Each combination, unchanged by the empty
    fixed set, is paired with every sensor combination. *)
Theorem power_set_completeness (tt : TruthTable)
    (vary_observations vary_sensors : list string)
    (fixed_sensor_values : list (string * Qc)) :
  let varied := if decide (vary_observations = [])
                then elements (tt_observations tt)
                else vary_observations in
  let combos := observation_combinations varied in
  length combos = 2 ^ length varied
  ∧ [] ∈ combos
  ∧ (∀ c, c ∈ combos ↔ c `sublist_of` varied)
  ∧ (NoDup varied → NoDup combos)
  ∧ (∀ sensor_combos,
       sensor_value_combinations tt vary_sensors [∅] = Ok sensor_combos →
       generate_test_cases tt vary_observations [] vary_sensors
         fixed_sensor_values
       = Ok (obs_combo ← combos;
             sensor_combo ← sensor_combos;
             [ {| tc_observations := obs_combo;
                  tc_sensor_values :=
                    with_fixed_sensors sensor_combo fixed_sensor_values |} ]))
  ∧ ∃ cases,
      generate_test_cases tt vary_observations [] [] fixed_sensor_values
      = Ok cases
      ∧ tc_observations <$> cases = combos.
Proof.
  intros varied combos.
  assert (∀ vs scs,
            sensor_value_combinations tt vs [∅] = Ok scs →
            generate_test_cases tt vary_observations [] vs fixed_sensor_values
            = Ok (obs_combo ← combos;
                  sensor_combo ← scs;
                  [ {| tc_observations := obs_combo;
                       tc_sensor_values :=
                         with_fixed_sensors sensor_combo
                           fixed_sensor_values |} ])) as Hgen.
  { intros vs scs Hscs. unfold generate_test_cases. rewrite Hscs.
    subst combos varied. case_decide as Hvary.
    - by rewrite (bool_decide_eq_true_2 (vary_observations = [])).
    - by rewrite (bool_decide_eq_false_2 (vary_observations = [])). }
  split; [apply observation_combinations_length|].
  split; [apply elem_of_observation_combinations, sublist_nil_l|].
  split; [apply elem_of_observation_combinations|].
  split; [apply observation_combinations_NoDup|].
  split; [apply Hgen|].
  eexists. split; [by apply Hgen|].
  generalize combos. intros l. induction l as [|c l IH]; [done|].
  rewrite bind_cons, fmap_app, IH. done.
Qed.

Lemma power_set_completeness_witness :
  let vary := ["No Music"; "No Sound"] in
  NoDup vary
  ∧ sensor_value_combinations empty_table [] [∅] = Ok [∅]
  ∧ length (observation_combinations vary) = 4
  ∧ NoDup (observation_combinations vary)
  ∧ ∃ cases, generate_test_cases empty_table vary [] [] [] = Ok cases
             ∧ tc_observations <$> cases = observation_combinations vary.
Proof.
  intros vary.
  assert (NoDup vary) as Hvary
    by (apply (bool_decide_unpack (NoDup vary)); by vm_compute).
  destruct (power_set_completeness empty_table vary [] [])
    as (Hlen & _ & _ & Hnodup & _ & Hcases).
  split; [exact Hvary|]. split; [reflexivity|].
  split; [exact Hlen|]. split; [exact (Hnodup Hvary)|exact Hcases].
Defined.

(** C8 as stated fails for [k = 0] on a truth table that has registered
    observations: asked to vary no observation, with none fixed,
    [generate_test_cases] varies the registered No Music and returns two
    combinations, not [2 ^ 0 = 1]. *)
Lemma power_set_completeness_counterexample :
  ∃ cases, generate_test_cases once_registered [] [] [] [] = Ok cases
    ∧ tc_observations <$> cases = [[]; ["No Music"]]
    ∧ length cases ≠ 2 ^ length (@nil string).
Proof. eexists. split; [by vm_compute|]. split; by vm_compute. Qed.

(* ===================================================================== *)
(** ** Running a batch *)
(* ===================================================================== *)

Section BatchFacts.

Context {A B : Type}.
Variable f : A → result B.

Lemma for_each_Ok l ys :
  for_each f l = Ok ys ↔ Forall2 (fun x y => f x = Ok y) l ys.
Proof.
  revert ys. induction l as [|x l IH]; intros ys; simpl.
  - split; [intros [=]; subst; constructor|].
    intros Hys. apply Forall2_nil_inv_l in Hys. by subst.
  - destruct (f x) as [y|e] eqn:Hx; simpl.
    + destruct (for_each f l) as [ys'|e] eqn:Hl; simpl.
      * split.
        -- intros [=]; subst. constructor; [done|by apply IH].
        -- intros (y' & ys'' & Hy & Hys & ->)%Forall2_cons_inv_l.
           apply IH in Hys. congruence.
      * split; [done|].
        intros (y' & ys'' & Hy & Hys & ->)%Forall2_cons_inv_l.
        by apply IH in Hys.
    + split; [done|].
      intros (y' & ys'' & Hy & Hys & ->)%Forall2_cons_inv_l. congruence.
Qed.

Lemma for_each_Raise l1 x l2 e :
  (∀ a, a ∈ l1 → ∃ b, f a = Ok b) →
  f x = Raise e →
  for_each f (l1 ++ x :: l2) = Raise e.
Proof.
  intros Hok Hx. induction l1 as [|a l1 IH]; simpl.
  - by rewrite Hx.
  - destruct (Hok a) as [b ->]; [by left|]. simpl.
    rewrite IH; [done|]. intros ??. apply Hok. by right.
Qed.

End BatchFacts.

(** A case raises exactly when its diagnosis call does. *)
Lemma run_test_case_Raise
    (engine : list string → gmap string Qc → result (list DiagnosticResult))
    (tt : TruthTable) (test_case : Inputs) (e : exn) :
  run_test_case engine tt test_case = Raise e
  ↔ engine (tc_observations test_case) (tc_sensor_values test_case) = Raise e.
Proof.
  unfold run_test_case.
  destruct (engine _ _) as [ds|e']; simpl; [|split; congruence].
  destruct (find_expected tt test_case). split; discriminate.
Qed.

(** C9 (amended) -- running a batch.  [run_truth_table] returns a list of
    results exactly when the run of every case returns, and the list then
    holds one result per case, in order.  If the diagnosis call of one case
    raises while the cases before it return, the exception leaves
    [run_truth_table]: the batch is aborted at that case and no result is
    returned, not even for the cases already run.  Generated cases are run
    like given ones. *)
Theorem batch_aborts_on_failure
    (engine : list string → gmap string Qc → result (list DiagnosticResult))
    (tt : TruthTable) (vary_observations : list string)
    (fixed_observations : list (string * bool)) (vary_sensors : list string)
    (fixed_sensor_values : list (string * Qc)) (cases : list Inputs) :
  let run given :=
    run_truth_table engine tt vary_observations fixed_observations
      vary_sensors fixed_sensor_values given in
  (∀ results,
     run (Some cases) = Ok results
     ↔ Forall2 (fun test_case r => run_test_case engine tt test_case = Ok r)
         cases results)
  ∧ (∀ before test_case after e,
       cases = before ++ test_case :: after →
       (∀ c, c ∈ before → ∃ r, run_test_case engine tt c = Ok r) →
       engine (tc_observations test_case) (tc_sensor_values test_case)
       = Raise e →
       run (Some cases) = Raise e)
  ∧ (generate_test_cases tt vary_observations fixed_observations vary_sensors
       fixed_sensor_values = Ok cases →
     run None = run (Some cases)).
Proof.
  intros run. subst run. unfold run_truth_table. simpl.
  split; [|split].
  - intros results. apply for_each_Ok.
  - intros before test_case after e -> Hbefore Hraise.
    apply for_each_Raise; [done|]. by apply run_test_case_Raise.
  - by intros ->.
Qed.

Lemma batch_aborts_on_failure_witness :
  let cases := [mkInputs [] ∅; mkInputs ["No Music"] ∅; mkInputs ["No Sound"] ∅] in
  generate_test_cases empty_table ["No Music"; "No Sound"] [] [] []
  = Ok (cases ++ [mkInputs ["No Music"; "No Sound"] ∅])
  ∧ run_truth_table flaky_engine empty_table [] [] [] [] (Some cases)
    = Raise (EngineError "connection lost").
Proof.
  intros cases. split; [by vm_compute|].
  destruct (batch_aborts_on_failure flaky_engine empty_table [] [] [] [] cases)
    as (_ & Habort & _).
  apply (Habort [mkInputs [] ∅] (mkInputs ["No Music"] ∅)
           [mkInputs ["No Sound"] ∅]); [done| |done].
  intros c ->%list_elem_of_singleton. by eexists.
Defined.

(** C9 as stated fails with [flaky_engine]: of the four generated cases the
    second one raises; [run_truth_table] then raises too instead of returning
    results, although the first and third case return when run alone. *)
Lemma batch_robustness_counterexample :
  generate_test_cases empty_table ["No Music"; "No Sound"] [] [] []
  = Ok [mkInputs [] ∅; mkInputs ["No Music"] ∅; mkInputs ["No Sound"] ∅;
        mkInputs ["No Music"; "No Sound"] ∅]
  ∧ run_truth_table flaky_engine empty_table ["No Music"; "No Sound"] [] [] []
      None
    = Raise (EngineError "connection lost")
  ∧ (∃ r, run_test_case flaky_engine empty_table (mkInputs [] ∅) = Ok r)
  ∧ (∃ r, run_test_case flaky_engine empty_table (mkInputs ["No Sound"] ∅)
          = Ok r).
Proof.
  split; [by vm_compute|]. split; [by vm_compute|].
  split; eexists; by vm_compute.
Qed.

(* ===================================================================== *)
(** * Properties of [get_test_recommendations] *)
(* ===================================================================== *)

Section DistinctFacts.

Context `{EqDecision A}.
Implicit Types (l : list A) (x : A).

Lemma elem_of_distinct l x : x ∈ distinct l ↔ x ∈ l.
Proof.
  induction l as [|y l IH]; simpl; [done|].
  rewrite !elem_of_cons, list_elem_of_filter, IH.
  destruct (decide (x = y)); tauto.
Qed.

Lemma NoDup_distinct l : NoDup (distinct l).
Proof.
  induction l as [|y l IH]; simpl; [constructor|].
  apply NoDup_cons. split; [|by apply NoDup_filter].
  by intros [? _]%list_elem_of_filter.
Qed.

End DistinctFacts.

Section RecommendFacts.

Variable g : Graph.
Variable observations : list string.

Local Abbreviation matches := (recommendation_matches g observations).
Local Abbreviation groups := (recommendation_groups g observations).
Local Abbreviation sorted_rows := (recommendation_rows g observations).

Lemma elem_of_recommendation_matches fm e :
  (fm, e) ∈ matches
  ↔ fm ∈ candidates g observations ∧ e ∈ untested_edges g observations fm.
Proof.
  unfold recommendation_matches. rewrite list_elem_of_bind. split.
  - intros (fm' & (e' & Hin & He)%list_elem_of_bind & Hfm).
    apply list_elem_of_singleton in Hin. by simplify_eq.
  - intros [Hfm He]. exists fm. split; [|done].
    apply list_elem_of_bind. exists e. split; [by left|done].
Qed.

Lemma group_keys_NoDup : NoDup (row_key <$> groups).
Proof.
  unfold recommendation_groups. rewrite <-list_fmap_compose.
  rewrite (list_fmap_ext _ id) by done. rewrite list_fmap_id.
  apply NoDup_distinct.
Qed.

Lemma elem_of_group_keys k :
  k ∈ row_key <$> groups ↔ ∃ n, helps_with g observations k n.
Proof.
  unfold recommendation_groups. rewrite <-list_fmap_compose.
  rewrite (list_fmap_ext _ id) by done. rewrite list_fmap_id.
  rewrite elem_of_distinct, list_elem_of_fmap. unfold helps_with. split.
  - intros ([fm e] & -> & [??]%elem_of_recommendation_matches). eauto 10.
  - intros (n & fm & e & Hfm & He & <- & _). exists (fm, e).
    split; [done|]. by apply elem_of_recommendation_matches.
Qed.

Lemma group_would_help_with row :
  row ∈ groups →
  NoDup (row_would_help_with row)
  ∧ ∀ n, n ∈ row_would_help_with row
         ↔ helps_with g observations (row_key row) n.
Proof.
  unfold recommendation_groups.
  intros (k & -> & _)%list_elem_of_fmap. simpl.
  split; [apply NoDup_distinct|]. intros n.
  rewrite elem_of_distinct, list_elem_of_omap. unfold helps_with. split.
  - intros ([fm e] & [??]%elem_of_recommendation_matches & Hn).
    case_bool_decide; [|done]. simplify_eq. eauto 10.
  - intros (fm & e & Hfm & He & <- & <-). exists (fm, e).
    split; [by apply elem_of_recommendation_matches|].
    by rewrite bool_decide_eq_true_2.
Qed.

Lemma insert_by_size_perm r l : insert_by_size r l ≡ₚ r :: l.
Proof.
  induction l as [|r' l IH]; simpl; [done|].
  case_bool_decide; [done|]. rewrite IH. apply Permutation_swap.
Qed.

Lemma recommendation_rows_perm : sorted_rows ≡ₚ groups.
Proof.
  unfold recommendation_rows. induction groups as [|r l IH]; simpl; [done|].
  by rewrite insert_by_size_perm, IH.
Qed.

Lemma insert_by_size_sorted r l :
  StronglySorted larger_first l → StronglySorted larger_first (insert_by_size r l).
Proof.
  induction 1 as [|r' l Hl IH Hr']; simpl.
  - repeat constructor.
  - case_bool_decide as Hle.
    + constructor; [by constructor|]. constructor; [done|].
      eapply Forall_impl; [done|]. unfold larger_first. simpl. lia.
    + constructor; [done|].
      rewrite insert_by_size_perm. constructor; [|done].
      unfold larger_first. lia.
Qed.

Lemma recommendation_rows_sorted : StronglySorted larger_first sorted_rows.
Proof.
  unfold recommendation_rows. induction groups as [|r l IH]; simpl.
  - constructor.
  - by apply insert_by_size_sorted.
Qed.

Lemma to_recommendation_Ok number_of_str row r :
  to_recommendation number_of_str row = Ok r →
  record_of_group number_of_str row r.
Proof.
  unfold to_recommendation, record_of_group.
  destruct (row_key row) as [[[ev op] th] [s|]]; simpl; [|done].
  destruct op as [v|]; simpl.
  - destruct (ComparisonOperator_of_value v); simpl; [|done].
    destruct (validate_threshold _ _ th) as [t|]; simpl; [|done].
    by intros [= <-].
  - destruct (validate_threshold _ _ th) as [t|]; simpl; [|done].
    by intros [= <-].
Qed.

End RecommendFacts.

Lemma Forall2_elem_of_r {A B} (P : A → B → Prop) (l : list A) (k : list B)
    (y : B) :
  Forall2 P l k → y ∈ k → ∃ x, x ∈ l ∧ P x y.
Proof.
  intros HP (i & Hi)%list_elem_of_lookup_1.
  destruct (Forall2_lookup_r _ _ _ _ _ HP Hi) as (x & Hx & Hxy).
  exists x. split; [by eapply list_elem_of_lookup_2|done].
Qed.

(** An order is carried along a pointwise relation. *)
Lemma StronglySorted_Forall2 {A B} (P : A → B → Prop)
    (R : relation A) (R' : relation B) (l : list A) (k : list B) :
  (∀ a b a' b', P a a' → P b b' → R a b → R' a' b') →
  Forall2 P l k → StronglySorted R l → StronglySorted R' k.
Proof.
  intros HR HP. induction HP as [|a a' l k Ha HP IH]; [constructor|].
  intros [Hfirst Hrest]%StronglySorted_cons.
  constructor; [by apply IH|].
  apply Forall_forall. intros b' Hb'.
  destruct (Forall2_elem_of_r _ _ _ _ HP Hb') as (b & Hb & Hbb').
  rewrite Forall_forall in Hfirst. eauto.
Qed.

Lemma record_of_group_name (number_of_str : string → option Qc)
    (observations : list string) (g : Graph)
    (row : RecommendationRow) (r : TestRecommendation) (n : string) :
  record_of_group number_of_str row r →
  helps_with g observations (row_key row) n →
  rec_name r ∉ observations.
Proof.
  unfold record_of_group, helps_with.
  intros Hrec (fm & e & _ & He & Hkey & _).
  rewrite <-Hkey in Hrec. simpl in Hrec. destruct Hrec as (-> & _).
  unfold untested_edges in He.
  by apply list_elem_of_filter in He as [(_ & ? & _) _].
Qed.

(** C10 (amended) -- recommendation filtering, grouping and order.  When
    [get_test_recommendations] returns, every record names an evidence source
    that is not in the observation set; there is exactly one record per group
    of evidence edges, a group being the edges towards candidate failure
    modes that share the source node, the operator, the threshold and the
    [when_true_strength]; the [would_help_with] of a record holds, once each,
    the names of the candidate failure modes its group bears on; and the
    records are sorted descending by the size of [would_help_with]. *)
Theorem recommendation_grouping (number_of_str : string → option Qc)
    (g : Graph) (observations : list string)
    (recs : list TestRecommendation) :
  get_test_recommendations number_of_str g observations = Ok recs →
  (∀ r, r ∈ recs → rec_name r ∉ observations)
  ∧ (∃ rows,
       Forall2 (record_of_group number_of_str) rows recs
       ∧ NoDup (row_key <$> rows)
       ∧ (∀ k, k ∈ row_key <$> rows ↔ ∃ n, helps_with g observations k n)
       ∧ ∀ row, row ∈ rows →
           NoDup (row_would_help_with row)
           ∧ ∀ n, n ∈ row_would_help_with row
                  ↔ helps_with g observations (row_key row) n)
  ∧ StronglySorted
      (fun a b => (length (would_help_with b) ≤ length (would_help_with a))%nat)
      recs.
Proof.
  unfold get_test_recommendations. intros Hrecs%for_each_Ok.
  assert (Forall2 (record_of_group number_of_str)
            (recommendation_rows g observations) recs) as Hrows.
  { eapply Forall2_impl; [done|]. apply to_recommendation_Ok. }
  pose proof (recommendation_rows_perm g observations) as Hperm.
  assert (∀ k, k ∈ row_key <$> recommendation_rows g observations
               ↔ ∃ n, helps_with g observations k n) as Hkeys.
  { intros k. rewrite Hperm. apply elem_of_group_keys. }
  split; [|split].
  - intros r Hr.
    destruct (Forall2_elem_of_r _ _ _ _ Hrows Hr) as (row & Hrow & Hrec).
    destruct (proj1 (Hkeys (row_key row))) as [n Hn];
      [by apply list_elem_of_fmap_2|].
    by eapply (record_of_group_name number_of_str).
  - exists (recommendation_rows g observations).
    split; [done|]. split; [|split; [done|]].
    + rewrite Hperm. apply group_keys_NoDup.
    + intros row Hrow. apply group_would_help_with. by rewrite <-Hperm.
  - eapply StronglySorted_Forall2;
      [|exact Hrows|apply recommendation_rows_sorted].
    intros a b a' b' Ha Hb. unfold record_of_group, larger_first in *.
    destruct (row_key a) as [[[??]?]?], (row_key b) as [[[??]?]?].
    destruct Ha as (_ & _ & _ & _ & ->), Hb as (_ & _ & _ & _ & ->). done.
Qed.

(** [get_test_recommendations] returns whenever the evidence edges carry a
    [when_true_strength], an operator (if any) that is a member of
    [ComparisonOperator] and a threshold (if any) that is a number. *)
Lemma get_test_recommendations_returns
    (number_of_str : string → option Qc) (g : Graph)
    (observations : list string) :
  (∀ e, e ∈ evidence g →
        is_Some (e_when_true_strength e)
        ∧ (∀ o, e_operator e = Some o →
                is_Some (ComparisonOperator_of_value o))
        ∧ (∀ th, e_threshold e = Some th → ∃ t, th = TNum t)) →
  ∃ recs, get_test_recommendations number_of_str g observations = Ok recs.
Proof.
  intros Hwf. unfold get_test_recommendations.
  assert (∀ row, row ∈ recommendation_rows g observations →
                 ∃ r, to_recommendation number_of_str row = Ok r) as Hall.
  { intros row Hrow.
    assert (row_key row ∈ row_key <$> recommendation_rows g observations)
      as Hk by by apply list_elem_of_fmap_2.
    rewrite recommendation_rows_perm in Hk.
    apply elem_of_group_keys in Hk as (n & fm & e & _ & He & Hkey & _).
    apply list_elem_of_filter in He as [_ He].
    destruct (Hwf e He) as ([s Hs] & Hop & Hth).
    assert (validate_threshold "TestRecommendation" number_of_str
              (e_threshold e) = Ok (e_threshold e)) as Hvalid.
    { destruct (e_threshold e) as [th|]; [|done].
      by destruct (Hth th eq_refl) as [t ->]. }
    unfold to_recommendation. rewrite <-Hkey. unfold key_of. rewrite Hs.
    simpl. destruct (e_operator e) as [o|]; simpl.
    - destruct (Hop o eq_refl) as [op ->]. simpl. rewrite Hvalid.
      by eexists.
    - rewrite Hvalid. by eexists. }
  induction (recommendation_rows g observations) as [|row rows IH]; simpl.
  - by eexists.
  - destruct (Hall row) as [r ->]; [by left|]. simpl.
    destruct IH as [rs ->]; [intros ??; apply Hall; by right|].
    by eexists.
Qed.

Lemma recommendation_grouping_witness :
  let recs :=
    [ {| rec_name := "Crackling";
         rec_type := "observation";
         strength_if_true := SUGGESTS;
         would_help_with := ["Blown Speaker"];
         rec_operator := None;
         rec_threshold := None |};
      {| rec_name := "battery_voltage";
         rec_type := "sensor_reading";
         strength_if_true := CONFIRMS;
         would_help_with := ["Dead Battery"];
         rec_operator := Some LESS_THAN;
         rec_threshold := Some (TNum (Q2Qc 4)) |} ] in
  get_test_recommendations (fun _ => None) no_sound_graph ["No Sound"]
  = Ok recs
  ∧ (∀ r, r ∈ recs → rec_name r ∉ ["No Sound"])
  ∧ StronglySorted
      (fun a b => (length (would_help_with b) ≤ length (would_help_with a))%nat)
      recs.
Proof.
  intros recs.
  assert (get_test_recommendations (fun _ => None) no_sound_graph
            ["No Sound"] = Ok recs) as Hrecs by by vm_compute.
  destruct (recommendation_grouping (fun _ => None) no_sound_graph
              ["No Sound"] recs Hrecs) as (Hnames & _ & Hsorted).
  split; [exact Hrecs|]. split; [exact Hnames|exact Hsorted].
Defined.

(** C10 as stated fails on [two_threshold_graph]: the voltage sensor is
    evidence for both candidates, with different operators and thresholds,
    and is returned in two records, each helping with one failure mode,
    instead of one record helping with both. *)
Lemma recommendation_grouping_counterexample :
  let recs :=
    [ {| rec_name := "Crackling";
         rec_type := "observation";
         strength_if_true := SUGGESTS;
         would_help_with := ["Blown Speaker"];
         rec_operator := None;
         rec_threshold := None |};
      {| rec_name := "battery_voltage";
         rec_type := "sensor_reading";
         strength_if_true := SUGGESTS;
         would_help_with := ["Blown Speaker"];
         rec_operator := Some GREATER_THAN;
         rec_threshold := Some (TNum (Q2Qc 10)) |};
      {| rec_name := "battery_voltage";
         rec_type := "sensor_reading";
         strength_if_true := CONFIRMS;
         would_help_with := ["Dead Battery"];
         rec_operator := Some LESS_THAN;
         rec_threshold := Some (TNum (Q2Qc 4)) |} ] in
  get_test_recommendations (fun _ => None) two_threshold_graph ["No Sound"]
  = Ok recs
  ∧ ¬ NoDup (rec_name <$> recs)
  ∧ ¬ ∃ r, r ∈ recs ∧ rec_name r = "battery_voltage"
           ∧ "Dead Battery" ∈ would_help_with r
           ∧ "Blown Speaker" ∈ would_help_with r.
Proof.
  intros recs. split; [by vm_compute|]. split.
  - apply (bool_decide_eq_false_1 (NoDup (rec_name <$> recs))). by vm_compute.
  - intros (r & Hr & _ & Hdead & Hblown). subst recs.
    repeat (apply elem_of_cons in Hr as [->|Hr]);
      [..|by apply elem_of_nil in Hr]; simpl in *.
    + by apply list_elem_of_singleton in Hdead.
    + by apply list_elem_of_singleton in Hdead.
    + by apply list_elem_of_singleton in Hblown.
Qed.

(* ===================================================================== *)
(** * Further properties of [diagnose] *)
(* ===================================================================== *)

Lemma filter_all {A} (P : A → Prop) `{∀ x, Decision (P x)} (l : list A) :
  (∀ x, x ∈ l → P x) → filter P l = l.
Proof.
  induction l as [|x l IH]; intros HP; [done|].
  rewrite filter_cons, decide_True by (apply HP; by left).
  f_equal. apply IH. intros ??. apply HP. by right.
Qed.

Lemma filter_ext_in {A} (P Q : A → Prop) `{∀ x, Decision (P x)}
    `{∀ x, Decision (Q x)} (l : list A) :
  (∀ x, x ∈ l → P x ↔ Q x) → filter P l = filter Q l.
Proof.
  induction l as [|x l IH]; intros HPQ; [done|].
  rewrite !filter_cons, IH by (intros ??; apply HPQ; by right).
  destruct (HPQ x) as [H1 H2]; [by left|].
  by repeat case_decide; auto; tauto.
Qed.

Lemma omap_ext_in {A B} (f f' : A → option B) (l : list A) :
  (∀ x, x ∈ l → f x = f' x) → omap f l = omap f' l.
Proof.
  intros Hf. apply list_omap_ext, Forall_Forall2_diag, Forall_forall.
  exact Hf.
Qed.

Section RowFacts.

Variable g : Graph.
Variable observations : list string.
Variable sensor_readings : gmap string Qc.

(** The null row of an [OPTIONAL MATCH] without match never passes
    [WHERE evidence.name IS NOT NULL]; every other map has a name. *)
Lemma evidence_rows_maps fm :
  evidence_rows g observations sensor_readings fm
  = (observation_map <$> observation_edges g observations fm)
    ++ (sensor_map <$> sensor_edges g sensor_readings fm).
Proof.
  unfold evidence_rows, all_evidence, observation_evidence, sensor_evidence.
  rewrite filter_app. f_equal.
  - destruct (observation_edges g observations fm) as [|e es]; [done|].
    apply filter_all. intros ev (e' & -> & _)%list_elem_of_fmap. by eexists.
  - destruct (sensor_edges g sensor_readings fm) as [|e es]; [done|].
    apply filter_all. intros ev (e' & -> & _)%list_elem_of_fmap. by eexists.
Qed.

End RowFacts.

(** X1 -- which edges give evidence.  The evidence rows of a failure mode
    are exactly the maps of its evidence edges whose source is an observation
    named in the input, or a sensor that has a reading: an observation that
    is not reported and a sensor without a value contribute nothing, and no
    row is left of an [OPTIONAL MATCH] that matched nothing. *)
Theorem evidence_rows_exact (g : Graph) (observations : list string)
    (sensor_readings : gmap string Qc) (fm : Node) (ev : Evidence) :
  ev ∈ evidence_rows g observations sensor_readings fm
  ↔ ∃ e, e ∈ evidence g ∧ e_target e = fm
         ∧ ((node_type (e_source e) = ObservationT
             ∧ node_name (e_source e) ∈ observations
             ∧ ev = observation_map e)
            ∨ (node_type (e_source e) = SensorReadingT
               ∧ is_Some (sensor_readings !! node_name (e_source e))
               ∧ ev = sensor_map e)).
Proof.
  rewrite evidence_rows_maps, elem_of_app, !list_elem_of_fmap.
  unfold observation_edges, sensor_edges. split.
  - intros [(e & -> & [(?&?&?) ?]%list_elem_of_filter)
           |(e & -> & [(?&?&?) ?]%list_elem_of_filter)];
      exists e; auto 10.
  - intros (e & He & Ht & [(?&?&->)|(?&?&->)]); [left|right];
      exists e; (split; [done|]); by apply list_elem_of_filter.
Qed.

Section OrderFacts.

Lemma insert_by_key_sorted r l :
  StronglySorted by_order_key l → StronglySorted by_order_key (insert_by_key r l).
Proof.
  induction 1 as [|r' l Hl IH Hr']; simpl.
  - repeat constructor.
  - case_bool_decide as Hle.
    + constructor; [by constructor|]. constructor; [done|].
      eapply Forall_impl; [done|]. unfold by_order_key. simpl. lia.
    + constructor; [done|].
      rewrite insert_by_key_perm. constructor; [|done].
      unfold by_order_key. lia.
Qed.

End OrderFacts.

(** X2 -- ranking.  The records returned by [diagnose] are in ascending
    order of the [ORDER BY] key: [confirms] first, then [suggests], then
    [suggests_against], then [inconclusive]. *)
Theorem diagnose_sorted (g : Graph) (observations : list string)
    (sensor_readings : gmap string Qc) :
  StronglySorted by_order_key (diagnose g observations sensor_readings).
Proof.
  unfold diagnose, order_by_key.
  induction (omap _ _) as [|r l IH]; simpl; [constructor|].
  by apply insert_by_key_sorted.
Qed.

(** X3 -- what a returned record looks like.  A record returned by
    [diagnose] never has the confidence [rules_out], always lists at least
    one evidence name -- a candidate without any evidence row is not
    returned -- and every name of its contradicting list is in its supporting
    list too. *)
Theorem diagnose_record_shape (g : Graph) (observations : list string)
    (sensor_readings : gmap string Qc) (r : DiagnosticResult) :
  r ∈ diagnose g observations sensor_readings →
  confidence r ≠ RULES_OUT
  ∧ supporting_evidence r ≠ []
  ∧ ∀ name, name ∈ contradicting_evidence r → name ∈ supporting_evidence r.
Proof.
  intros (fm & _ & Hrow)%elem_of_diagnose.
  apply result_row_Some in Hrow as (Hrows & -> & Hconf).
  split; [done|]. simpl. split.
  - destruct (evidence_rows g observations sensor_readings fm)
      as [|ev l] eqn:E; [done|].
    assert (ev ∈ evidence_rows g observations sensor_readings fm) as Hin
      by (rewrite E; by left).
    destruct (evidence_rows_named _ _ _ _ _ Hin) as [n Hn].
    intros Hnil.
    assert (n ∈ collect_supporting_evidence (ev :: l)) as Hn'
      by (apply list_elem_of_omap; exists ev; split; [by left|done]).
    rewrite Hnil in Hn'. by apply elem_of_nil in Hn'.
  - intros name. unfold collect_contradicting_evidence,
      collect_supporting_evidence. rewrite !list_elem_of_omap.
    intros (ev & [_ Hin]%list_elem_of_filter & Hn). eauto.
Qed.

Lemma diagnose_record_shape_witness :
  let r := {| failure_mode := "Dead Battery";
              confidence := INCONCLUSIVE;
              supporting_evidence := ["No Music"; "battery_voltage"];
              contradicting_evidence := ["battery_voltage"] |} in
  r ∈ diagnose weak_battery_graph ["No Music"] good_voltage
  ∧ confidence r ≠ RULES_OUT
  ∧ supporting_evidence r ≠ [].
Proof.
  intros r.
  assert (r ∈ diagnose weak_battery_graph ["No Music"] good_voltage) as Hr
    by (vm_compute; left).
  destruct (diagnose_record_shape weak_battery_graph ["No Music"]
              good_voltage r Hr) as (Hconf & Hsup & _).
  split; [exact Hr|]. split; [exact Hconf|exact Hsup].
Defined.

Section CandidateFacts.

Variable g : Graph.

Lemma explains_observation_true observations fm :
  explains_observation g observations fm = true
  ↔ ∃ c, c ∈ causes g ∧ c_source c = fm
         ∧ node_type (c_target c) = ObservationT
         ∧ node_name (c_target c) ∈ observations.
Proof.
  unfold explains_observation. rewrite existsb_exists.
  setoid_rewrite andb_true_iff. setoid_rewrite andb_true_iff.
  setoid_rewrite bool_decide_eq_true. setoid_rewrite <-list_elem_of_In.
  split; intros (c & ? & ?); exists c; tauto.
Qed.

Lemma candidates_same_set observations observations' :
  (∀ o, o ∈ observations ↔ o ∈ observations') →
  candidates g observations = candidates g observations'.
Proof.
  intros Hset. unfold candidates. apply filter_ext_in. intros fm _.
  rewrite !explains_observation_true. by setoid_rewrite Hset.
Qed.

Lemma no_candidates observations :
  (∀ c, c ∈ causes g → node_type (c_target c) = ObservationT →
        node_name (c_target c) ∉ observations) →
  candidates g observations = [].
Proof.
  intros Hno. apply elem_of_nil_inv. intros fm.
  intros (_ & _ & (c & Hc & _ & Hty & Hin)%explains_observation_true)
    %candidate_elem.
  by apply (Hno c).
Qed.

End CandidateFacts.

(** X4 -- nothing to explain.  When no [CAUSES] edge leads to an observation
    named in the input -- in particular when the input names no observation
    at all -- there is no candidate: [diagnose] returns the empty list and
    [get_test_recommendations] returns no recommendation, neither raising. *)
Theorem nothing_explained (number_of_str : string → option Qc) (g : Graph)
    (observations : list string) (sensor_readings : gmap string Qc) :
  (∀ c, c ∈ causes g → node_type (c_target c) = ObservationT →
        node_name (c_target c) ∉ observations) →
  diagnose g observations sensor_readings = []
  ∧ get_test_recommendations number_of_str g observations = Ok [].
Proof.
  intros Hno%no_candidates. split.
  - unfold diagnose. by rewrite Hno.
  - unfold get_test_recommendations, recommendation_rows,
      recommendation_groups, recommendation_matches. by rewrite Hno.
Qed.

Lemma nothing_explained_witness :
  (∀ c, c ∈ causes battery_graph → node_type (c_target c) = ObservationT →
        node_name (c_target c) ∉ @nil string)
  ∧ diagnose battery_graph [] low_voltage = []
  ∧ get_test_recommendations (fun _ => None) battery_graph [] = Ok [].
Proof.
  assert (∀ c, c ∈ causes battery_graph →
               node_type (c_target c) = ObservationT →
               node_name (c_target c) ∉ @nil string) as Hno
    by (intros c _ _; apply not_elem_of_nil).
  split; [exact Hno|].
  exact (nothing_explained (fun _ => None) battery_graph [] low_voltage
           Hno).
Defined.

(** X5 -- observation monotonicity.  A failure mode that is a candidate for
    a set of observations stays a candidate when observations are added. *)
Theorem candidates_monotone (g : Graph) (observations observations' : list string)
    (fm : Node) :
  (∀ o, o ∈ observations → o ∈ observations') →
  fm ∈ candidates g observations → fm ∈ candidates g observations'.
Proof.
  intros Hsub. rewrite !candidate_elem, !explains_observation_true.
  intros (Hin & Hty & c & Hc & Hsrc & Hobs & Hname). eauto 10.
Qed.

Lemma candidates_monotone_witness :
  (∀ o, o ∈ ["No Music"] → o ∈ ["Crackling"; "No Music"])
  ∧ dead_battery ∈ candidates battery_graph ["No Music"]
  ∧ dead_battery ∈ candidates battery_graph ["Crackling"; "No Music"].
Proof.
  assert (∀ o, o ∈ ["No Music"] → o ∈ ["Crackling"; "No Music"]) as Hsub
    by (intros o ->%list_elem_of_singleton; right; left).
  assert (dead_battery ∈ candidates battery_graph ["No Music"]) as Hcand
    by (vm_compute; left).
  split; [exact Hsub|]. split; [exact Hcand|].
  exact (candidates_monotone battery_graph ["No Music"]
           ["Crackling"; "No Music"] dead_battery Hsub Hcand).
Defined.

(** X6 -- the observations are a set.  [diagnose] depends on which
    observations are named, not on their order or on repetitions. *)
Theorem diagnose_observation_set (g : Graph)
    (observations observations' : list string)
    (sensor_readings : gmap string Qc) :
  (∀ o, o ∈ observations ↔ o ∈ observations') →
  diagnose g observations sensor_readings
  = diagnose g observations' sensor_readings.
Proof.
  intros Hset. unfold diagnose. rewrite (candidates_same_set _ _ _ Hset).
  f_equal. apply omap_ext_in. intros fm _.
  unfold result_row, grouped_row. rewrite !evidence_rows_maps.
  assert (observation_edges g observations fm
          = observation_edges g observations' fm) as ->; [|done].
  unfold observation_edges. apply filter_ext_in. intros e _.
  by rewrite Hset.
Qed.

Lemma diagnose_observation_set_witness :
  (∀ o, o ∈ ["No Sound"; "Crackling"]
        ↔ o ∈ ["Crackling"; "No Sound"; "Crackling"])
  ∧ diagnose no_sound_graph ["No Sound"; "Crackling"] low_voltage
    = diagnose no_sound_graph ["Crackling"; "No Sound"; "Crackling"]
        low_voltage.
Proof.
  assert (∀ o, o ∈ ["No Sound"; "Crackling"]
               ↔ o ∈ ["Crackling"; "No Sound"; "Crackling"]) as Hset.
  { intros o. rewrite !elem_of_cons, elem_of_nil. tauto. }
  split; [exact Hset|].
  exact (diagnose_observation_set no_sound_graph _ _ low_voltage Hset).
Defined.

Section ReadingFacts.

Variable g : Graph.
Variable observations : list string.
Variables sensor_readings sensor_readings' : gmap string Qc.

(** The two assignments agree on every sensor that is the source of an
    evidence edge. *)
Hypothesis Hagree :
  ∀ e, e ∈ evidence g → node_type (e_source e) = SensorReadingT →
       sensor_readings !! node_name (e_source e)
       = sensor_readings' !! node_name (e_source e).

Lemma sensor_edges_agree fm :
  sensor_edges g sensor_readings fm = sensor_edges g sensor_readings' fm.
Proof.
  unfold sensor_edges. apply filter_ext_in. intros e He.
  split; intros (? & Hty & ?); (split; [done|split; [done|]]).
  - by rewrite <-Hagree.
  - by rewrite Hagree.
Qed.

Lemma evidence_rows_agree fm :
  evidence_rows g observations sensor_readings fm
  = evidence_rows g observations sensor_readings' fm.
Proof. by rewrite !evidence_rows_maps, sensor_edges_agree. Qed.

Lemma row_reading_agree fm ev :
  ev ∈ evidence_rows g observations sensor_readings fm →
  ev_evidence_type ev = EvSensor →
  reading sensor_readings ev = reading sensor_readings' ev.
Proof.
  rewrite evidence_rows_maps, elem_of_app, !list_elem_of_fmap.
  intros [(e & -> & _)|(e & -> & He)] Hty; [done|].
  apply list_elem_of_filter in He as [(_ & Hs & _) He].
  unfold reading. simpl. by apply Hagree.
Qed.

Lemma row_columns_agree fm ev :
  ev ∈ evidence_rows g observations sensor_readings fm →
  effective_strength sensor_readings ev = effective_strength sensor_readings' ev
  ∧ contradicting_flag sensor_readings ev
    = contradicting_flag sensor_readings' ev
  ∧ when_false_strength_value sensor_readings ev
    = when_false_strength_value sensor_readings' ev.
Proof.
  intros Hin.
  unfold effective_strength, contradicting_flag, when_false_strength_value,
    comparison_fails.
  destruct (ev_evidence_type ev) eqn:Hty; [done|].
  by rewrite (row_reading_agree fm ev Hin Hty).
Qed.

Lemma result_row_agree fm :
  result_row g observations sensor_readings fm
  = result_row g observations sensor_readings' fm.
Proof.
  unfold result_row, grouped_row. rewrite <-evidence_rows_agree.
  assert (aggregate sensor_readings fm
            (evidence_rows g observations sensor_readings fm)
          = aggregate sensor_readings' fm
              (evidence_rows g observations sensor_readings fm)) as Hagg.
  { unfold aggregate, collect_contradicting_evidence,
      collect_false_strengths, collect_strengths.
    rewrite (filter_ext_in
               (fun ev => contradicting_flag sensor_readings ev
                          = Some "contradicting")
               (fun ev => contradicting_flag sensor_readings' ev
                          = Some "contradicting"))
      by (intros ev Hev;
          by destruct (row_columns_agree fm ev Hev) as (_ & -> & _)).
    rewrite (omap_ext_in (when_false_strength_value sensor_readings)
               (when_false_strength_value sensor_readings'))
      by (intros ev Hev; by destruct (row_columns_agree fm ev Hev) as (_&_&->)).
    rewrite (omap_ext_in (effective_strength sensor_readings)
               (effective_strength sensor_readings'))
      by (intros ev Hev; by destruct (row_columns_agree fm ev Hev) as (->&_)).
    done. }
  destruct (evidence_rows g observations sensor_readings fm) as [|ev0 l0];
    [done|].
  by rewrite Hagg.
Qed.

End ReadingFacts.

(** X7 -- readings that no edge looks at.  [diagnose] depends on the
    readings of the sensors that are the source of an evidence edge, and on
    nothing else of the assignment: a value for an unknown sensor name is
    inert, raising no error. *)
Theorem diagnose_relevant_readings (g : Graph) (observations : list string)
    (sensor_readings sensor_readings' : gmap string Qc) :
  (∀ e, e ∈ evidence g → node_type (e_source e) = SensorReadingT →
        sensor_readings !! node_name (e_source e)
        = sensor_readings' !! node_name (e_source e)) →
  diagnose g observations sensor_readings
  = diagnose g observations sensor_readings'.
Proof.
  intros Hagree. unfold diagnose. f_equal. apply omap_ext_in. intros fm _.
  by apply result_row_agree.
Qed.

Lemma diagnose_relevant_readings_witness :
  let with_humidity : gmap string Qc := <[ "humidity" := Q2Qc 40 ]> low_voltage in
  (∀ e, e ∈ evidence battery_graph →
        node_type (e_source e) = SensorReadingT →
        low_voltage !! node_name (e_source e)
        = with_humidity !! node_name (e_source e))
  ∧ diagnose battery_graph ["No Music"] low_voltage
    = diagnose battery_graph ["No Music"] with_humidity.
Proof.
  intros with_humidity.
  assert (∀ e, e ∈ evidence battery_graph →
               node_type (e_source e) = SensorReadingT →
               low_voltage !! node_name (e_source e)
               = with_humidity !! node_name (e_source e)) as Hagree.
  { intros e ->%list_elem_of_singleton _. by vm_compute. }
  split; [exact Hagree|].
  exact (diagnose_relevant_readings battery_graph ["No Music"] low_voltage
           with_humidity Hagree).
Defined.

(** X8 -- a verdict has a reason.  A returned record whose confidence is not
    [inconclusive] has no contradicting evidence, and some supporting
    contribution of its failure mode carries exactly the reported
    confidence. *)
Theorem confidence_has_support (g : Graph) (observations : list string)
    (sensor_readings : gmap string Qc) (fm : Node) (r : DiagnosticResult) :
  unique_name g fm →
  r ∈ diagnose g observations sensor_readings →
  failure_mode r = node_name fm →
  confidence r ≠ INCONCLUSIVE →
  contradicting_evidence r = []
  ∧ ∃ name, supporting_contribution g observations sensor_readings fm name
              (confidence r).
Proof.
  intros Huniq Hr Hname Hc.
  apply (diagnose_named _ _ _ _ _ Huniq Hr) in Hname.
  apply result_row_Some in Hname as (_ & -> & Hne).
  unfold aggregate, overall_confidence in *; simpl in *.
  case_bool_decide as Hruled; [done|].
  case_bool_decide as Hcontra; [done|].
  split; [destruct (collect_contradicting_evidence _ _);
          [done|simpl in Hcontra; lia]|].
  apply strengths_are_supporting.
  repeat case_bool_decide; try done;
    match goal with
    | H : 0 < length (filter (fun x => x = ?s) _) |- ?s ∈ _ =>
        by apply filter_eq_nonempty in H
    end.
Qed.

Lemma confidence_has_support_witness :
  let r := {| failure_mode := "Dead Battery";
              confidence := CONFIRMS;
              supporting_evidence := ["battery_voltage"];
              contradicting_evidence := [] |} in
  unique_name battery_graph dead_battery
  ∧ r ∈ diagnose battery_graph ["No Music"] low_voltage
  ∧ ∃ name, supporting_contribution battery_graph ["No Music"] low_voltage
              dead_battery name CONFIRMS.
Proof.
  intros r.
  assert (unique_name battery_graph dead_battery) as Huniq
    by solve_unique_name.
  assert (r ∈ diagnose battery_graph ["No Music"] low_voltage) as Hr
    by (vm_compute; left).
  destruct (confidence_has_support battery_graph ["No Music"] low_voltage
              dead_battery r Huniq Hr eq_refl) as [_ Hsup]; [done|].
  split; [exact Huniq|]. split; [exact Hr|exact Hsup].
Defined.

(* ===================================================================== *)
(** * Further properties of [get_test_recommendations] *)
(* ===================================================================== *)

Lemma for_each_returns {A B} (f : A → result B) (l : list A) :
  (∃ ys, for_each f l = Ok ys) ↔ ∀ x, x ∈ l → ∃ y, f x = Ok y.
Proof.
  induction l as [|x l IH]; simpl.
  - split; [by intros _ ? ?%elem_of_nil|by eexists].
  - split.
    + intros [ys Hys] x' Hx'. destruct (f x) as [y|e] eqn:Hx; [|done].
      simpl in Hys. destruct (for_each f l) as [ys'|e] eqn:Hl; [|done].
      apply elem_of_cons in Hx' as [->|Hx']; [by eexists|].
      apply IH; [by eexists|done].
    + intros Hall. destruct (Hall x) as [y ->]; [by left|]. simpl.
      destruct (proj2 IH) as [ys ->]; [|by eexists].
      intros ??. apply Hall. by right.
Qed.

Lemma for_each_Raise_inv {A B} (f : A → result B) (l : list A) e :
  for_each f l = Raise e → ∃ x, x ∈ l ∧ f x = Raise e.
Proof.
  induction l as [|x l IH]; simpl; [done|].
  destruct (f x) as [y|e'] eqn:Hx; simpl.
  - destruct (for_each f l) as [ys|e'] eqn:Hl; simpl; [done|].
    intros [= ->]. destruct IH as (x' & ? & ?); [done|].
    exists x'. split; [by right|done].
  - intros [= ->]. exists x. split; [by left|done].
Qed.

Lemma validate_threshold_returns (cls : string)
    (number_of_str : string → option Qc) (th : option Threshold) :
  (∃ t, validate_threshold cls number_of_str th = Ok t)
  ↔ ∀ items text, th = Some (TList items) → inl text ∈ items →
                  is_Some (number_of_str text).
Proof.
  destruct th as [[t|items]|]; simpl.
  - split; [done|by eexists].
  - split.
    + intros [t Ht] items' text [= <-] Hin.
      destruct (for_each _ items) as [numbers|] eqn:Hnumbers; [|done].
      destruct (proj1 (for_each_returns _ _) (ex_intro _ _ Hnumbers)
                  (inl text) Hin) as [y Hy].
      simpl in Hy. by destruct (number_of_str text); [eexists|].
    + intros Hall.
      destruct (for_each _ items) as [numbers|e] eqn:Hnumbers; [by eexists|].
      apply for_each_Raise_inv in Hnumbers as ([text|v] & Hin & Hraise);
        [|done].
      destruct (Hall items text eq_refl Hin) as [v Hv].
      by rewrite Hv in Hraise.
  - split; [done|by eexists].
Qed.

Lemma to_recommendation_returns (number_of_str : string → option Qc)
    (row : RecommendationRow) :
  (∃ r, to_recommendation number_of_str row = Ok r)
  ↔ is_Some (row_key row).2
    ∧ (∀ o, (row_key row).1.1.2 = Some o →
            is_Some (ComparisonOperator_of_value o))
    ∧ ∀ items text, (row_key row).1.2 = Some (TList items) →
                    inl text ∈ items → is_Some (number_of_str text).
Proof.
  unfold to_recommendation.
  destruct (row_key row) as [[[ev op] th] st]; simpl.
  rewrite <-(validate_threshold_returns "TestRecommendation" number_of_str
               th).
  split.
  - intros [r Hr]. destruct st as [s|]; [|done]. simpl in Hr.
    split; [by eexists|].
    destruct op as [o|]; simpl in Hr.
    + destruct (ComparisonOperator_of_value o) eqn:Ho; [|done].
      simpl in Hr. split; [by intros ? [= <-]; rewrite Ho|].
      destruct (validate_threshold _ _ th) as [t|] eqn:Ht; [|done].
      by exists t.
    + split; [done|].
      destruct (validate_threshold _ _ th) as [t|] eqn:Ht; [|done].
      by exists t.
  - intros ([s ->] & Hop & [t Ht]). simpl. rewrite Ht.
    destruct op as [o|]; simpl; [|by eexists].
    destruct (Hop o eq_refl) as [c ->]. by eexists.
Qed.

(** X9 -- when recommending fails.  [get_test_recommendations] returns a
    list exactly when every evidence edge that leads to a candidate from a
    source outside the observations carries a [when_true_strength], an
    operator, if any, that is a value of [ComparisonOperator] (["=="]
    included), and a threshold that is a number, a list of numbers and of
    strings pydantic reads a number from, or null.  A single edge without
    them makes the whole call raise. *)
Theorem recommendations_return_iff (number_of_str : string → option Qc)
    (g : Graph) (observations : list string) :
  (∃ recs, get_test_recommendations number_of_str g observations = Ok recs)
  ↔ ∀ fm e, fm ∈ candidates g observations →
            e ∈ untested_edges g observations fm →
            is_Some (e_when_true_strength e)
            ∧ (∀ o, e_operator e = Some o →
                    is_Some (ComparisonOperator_of_value o))
            ∧ ∀ items text, e_threshold e = Some (TList items) →
                            inl text ∈ items →
                            is_Some (number_of_str text).
Proof.
  unfold get_test_recommendations. rewrite for_each_returns.
  setoid_rewrite to_recommendation_returns. split.
  - intros Hall fm e Hfm He.
    assert (key_of e ∈ row_key <$> recommendation_rows g observations) as Hk.
    { rewrite recommendation_rows_perm. apply elem_of_group_keys.
      exists (node_name fm), fm, e. auto. }
    apply list_elem_of_fmap in Hk as (row & Hkey & Hrow).
    specialize (Hall row Hrow). by rewrite <-Hkey in Hall.
  - intros Hall row Hrow.
    assert (row_key row ∈ row_key <$> recommendation_rows g observations)
      as Hk by by apply list_elem_of_fmap_2.
    rewrite recommendation_rows_perm in Hk.
    apply elem_of_group_keys in Hk as (n & fm & e & Hfm & He & Hkey & _).
    rewrite <-Hkey. by apply (Hall fm e).
Qed.

(* ===================================================================== *)
(** * Further properties of the truth table *)
(* ===================================================================== *)

Section GenerateFacts.

Variable tt : TruthTable.

Lemma generate_test_cases_Ok vary_observations fixed_observations vary_sensors
    fixed_sensor_values cases :
  generate_test_cases tt vary_observations fixed_observations vary_sensors
    fixed_sensor_values = Ok cases
  ↔ ∃ sensor_combos,
      sensor_value_combinations tt vary_sensors [∅] = Ok sensor_combos
      ∧ cases
        = (obs_combo ← observation_combinations
                          (if bool_decide (vary_observations = [])
                              && bool_decide (fixed_observations = [])
                           then elements (tt_observations tt)
                           else vary_observations);
           sensor_combo ← sensor_combos;
           [ {| tc_observations :=
                  with_fixed_observations obs_combo fixed_observations;
                tc_sensor_values :=
                  with_fixed_sensors sensor_combo fixed_sensor_values |} ]).
Proof.
  unfold generate_test_cases.
  destruct (sensor_value_combinations tt vary_sensors [∅]) as [scs|e]; simpl.
  - split; [intros [= <-]; by exists scs|by intros (? & [= <-] & ->)].
  - split; [done|by intros (? & ? & _)].
Qed.

Lemma elem_of_generated cases obs_combos sensor_combos fixed_observations
    fixed_sensor_values case :
  cases = (obs_combo ← obs_combos;
           sensor_combo ← sensor_combos;
           [ {| tc_observations :=
                  with_fixed_observations obs_combo fixed_observations;
                tc_sensor_values :=
                  with_fixed_sensors sensor_combo fixed_sensor_values |} ]) →
  case ∈ cases
  ↔ ∃ obs_combo sensor_combo,
      obs_combo ∈ obs_combos ∧ sensor_combo ∈ sensor_combos
      ∧ case = {| tc_observations :=
                    with_fixed_observations obs_combo fixed_observations;
                  tc_sensor_values :=
                    with_fixed_sensors sensor_combo fixed_sensor_values |}.
Proof.
  intros ->. rewrite list_elem_of_bind. split.
  - intros (oc & (sc & ->%list_elem_of_singleton & ?)%list_elem_of_bind & ?).
    by exists oc, sc.
  - intros (oc & sc & ? & ? & ->). exists oc. split; [|done].
    apply list_elem_of_bind. exists sc. split; [by left|done].
Qed.

Lemma elem_of_with_fixed_observations obs_combo fixed_observations o :
  o ∈ with_fixed_observations obs_combo fixed_observations
  ↔ o ∈ obs_combo ∨ (o, true) ∈ fixed_observations.
Proof.
  unfold with_fixed_observations. revert obs_combo.
  induction fixed_observations as [|[o' present] fixed IH]; intros obs_combo;
    simpl.
  - rewrite elem_of_nil. tauto.
  - rewrite IH, elem_of_cons. destruct present; simpl.
    + case_bool_decide as Hnew.
      * rewrite elem_of_app, list_elem_of_singleton.
        split; [intros [[?| ->]|?]; auto|intros [?|[[= ->]|?]]; auto].
      * split; [intros [?|?]; auto|intros [?|[[= ->]|?]]; auto].
    + split; [intros [?|?]; auto|intros [?|[[=]|?]]; auto].
Qed.

Lemma with_fixed_observations_NoDup obs_combo fixed_observations :
  NoDup obs_combo → NoDup (with_fixed_observations obs_combo fixed_observations).
Proof.
  unfold with_fixed_observations. revert obs_combo.
  induction fixed_observations as [|[o' present] fixed IH]; intros obs_combo Hnd;
    simpl; [done|].
  apply IH. destruct present; simpl; [|done].
  case_bool_decide as Hnew; [|done].
  apply NoDup_app. split; [done|]. split; [|apply NoDup_singleton].
  by intros o Ho ->%list_elem_of_singleton.
Qed.

End GenerateFacts.

(** X10 -- fixed observations.  The observations of every generated test
    case are a subsequence of the varied names, followed by the fixed
    observations that are marked present and missing from it: an observation
    is in the case exactly when it is in the combination or fixed as present
    (one fixed as absent is never added), and no name is repeated unless the
    varied list repeats it. *)
Theorem generated_observations (tt : TruthTable)
    (vary_observations : list string)
    (fixed_observations : list (string * bool)) (vary_sensors : list string)
    (fixed_sensor_values : list (string * Qc)) (cases : list Inputs)
    (case : Inputs) :
  generate_test_cases tt vary_observations fixed_observations vary_sensors
    fixed_sensor_values = Ok cases →
  case ∈ cases →
  ∃ obs_combo,
    obs_combo `sublist_of`
      (if bool_decide (vary_observations = [])
          && bool_decide (fixed_observations = [])
       then elements (tt_observations tt) else vary_observations)
    ∧ (∀ o, o ∈ tc_observations case
            ↔ o ∈ obs_combo ∨ (o, true) ∈ fixed_observations)
    ∧ (NoDup obs_combo → NoDup (tc_observations case)).
Proof.
  intros (scs & _ & Hcases)%generate_test_cases_Ok Hcase.
  apply (elem_of_generated _ _ _ _ _ _ Hcases) in Hcase
    as (oc & sc & Hoc & _ & ->).
  exists oc. split; [by apply elem_of_observation_combinations|].
  split; [intros o; apply elem_of_with_fixed_observations|].
  apply with_fixed_observations_NoDup.
Qed.

Lemma generated_observations_witness :
  let case := {| tc_observations := ["No Sound"; "No Music"];
                 tc_sensor_values := ∅ |} in
  ∃ cases,
    generate_test_cases empty_table ["Crackling"; "No Sound"]
      [("No Music", true); ("Smoke", false)] [] [] = Ok cases
    ∧ case ∈ cases
    ∧ ∀ o, o ∈ tc_observations case
           ↔ o ∈ ["No Sound"] ∨ (o, true) ∈ [("No Music", true); ("Smoke", false)].
Proof.
  intros case. eexists. split; [by vm_compute|].
  assert (case ∈ [ mkInputs ["No Music"] ∅;
                   mkInputs ["Crackling"; "No Music"] ∅;
                   mkInputs ["No Sound"; "No Music"] ∅;
                   mkInputs ["Crackling"; "No Sound"; "No Music"] ∅ ]) as Hcase
    by (right; right; left).
  split; [exact Hcase|].
  destruct (generated_observations empty_table ["Crackling"; "No Sound"]
              [("No Music", true); ("Smoke", false)] [] [] _ case eq_refl Hcase)
    as (oc & _ & Hiff & _).
  intros o. rewrite !elem_of_cons, !elem_of_nil. simpl.
  rewrite !elem_of_cons, !elem_of_nil. split.
  - intros [->|[->|[]]]; [left; by left|right; by left].
  - intros [[->|[]]|[[= ->]|[[=]|[]]]]; auto.
Defined.

Section SensorCombinationFacts.

Variable tt : TruthTable.

Lemma values_around_Ok th values :
  values_around th = Ok values
  ↔ ∃ t, th = Some (TNum t)
         ∧ values = [Some (float_sub t tenth); Some (float_add t tenth);
                     Some t].
Proof.
  unfold values_around. destruct th as [[t|items]|]; split;
    try done; try (by intros (? & [=] & _)).
  - intros [= <-]. by exists t.
  - by intros (? & [= <-] & ->).
Qed.

Lemma values_around_Raise th e :
  values_around th = Raise e
  ↔ (∀ t, th ≠ Some (TNum t))
    ∧ e = TypeError "unsupported operand type(s) for -".
Proof.
  unfold values_around. destruct th as [[t|items]|]; split;
    try done; try (by intros [= <-]); try (by intros [_ ->]).
  intros [Hnot _]. by destruct (Hnot t).
Qed.

(** The first thing that is raised in a loop is raised by its body. *)

Lemma sensor_test_values_Ok info values :
  sensor_test_values info = Ok values →
  length values = 3 * length (thresholds info) + 1
  ∧ (∀ th, th ∈ thresholds info → ∃ t, th = Some (TNum t))
  ∧ ∀ v, Some v ∈ values →
         ∃ t, Some (TNum t) ∈ thresholds info
              ∧ (v = float_sub t tenth ∨ v = float_add t tenth ∨ v = t).
Proof.
  unfold sensor_test_values.
  destruct (for_each values_around (thresholds info)) as [vs|e] eqn:E;
    simpl; [|done].
  intros [= <-]. apply for_each_Ok in E.
  induction E as [|th vals ths vs Hth E IH]; simpl.
  - split; [done|]. split; [by intros ? ?%elem_of_nil|].
    by intros v [=]%list_elem_of_singleton.
  - apply values_around_Ok in Hth as (t & -> & ->).
    destruct IH as (Hlen & Hnum & Hvals). split; [|split].
    + simpl. rewrite Hlen. lia.
    + intros th [->|?]%elem_of_cons; [by eexists|auto].
    + intros v. simpl. rewrite !elem_of_cons.
      intros [[= ->]|[[= ->]|[[= ->]|Hv]]];
        [exists t; split; [by left|auto]..|].
      destruct (Hvals v Hv) as (t' & ? & ?). exists t'. split; [by right|done].
Qed.

Lemma sensor_test_values_Raise info e :
  sensor_test_values info = Raise e →
  (∃ th, th ∈ thresholds info ∧ ∀ t, th ≠ Some (TNum t))
  ∧ e = TypeError "unsupported operand type(s) for -".
Proof.
  unfold sensor_test_values.
  destruct (for_each values_around (thresholds info)) as [vs|e'] eqn:E;
    simpl; [done|].
  intros [= ->]. apply for_each_Raise_inv in E as (th & Hth & Hraise).
  apply values_around_Raise in Hraise as [Hnot ->]. eauto.
Qed.

Lemma sensor_test_values_returns info :
  (∀ th, th ∈ thresholds info → ∃ t, th = Some (TNum t)) →
  ∃ values, sensor_test_values info = Ok values.
Proof.
  intros Hnum. unfold sensor_test_values.
  destruct (proj2 (for_each_returns values_around (thresholds info)))
    as [vs ->]; [|by eexists].
  intros th Hth. destruct (Hnum th Hth) as [t ->]. by eexists.
Qed.

Lemma length_extend_combinations sensor_name values combos :
  length (extend_combinations sensor_name values combos)
  = length combos * length values.
Proof.
  unfold extend_combinations.
  induction combos as [|m combos IH]; [done|].
  rewrite bind_cons, length_app, IH. simpl. f_equal.
  clear IH. induction values as [|v values IH]; [done|].
  rewrite bind_cons, length_app, IH. done.
Qed.

Lemma sensor_value_combinations_length vary_sensors combos sensor_combos :
  sensor_value_combinations tt vary_sensors combos = Ok sensor_combos →
  length sensor_combos
  = length combos * sensor_combination_count tt vary_sensors.
Proof.
  revert combos. induction vary_sensors as [|s rest IH]; intros combos; simpl.
  - intros [= <-]. lia.
  - destruct (tt_sensor_readings tt !! s) as [info|]; [|by apply IH].
    destruct (sensor_test_values info) as [values|e] eqn:Hv; simpl; [|done].
    intros ->%IH. rewrite length_extend_combinations.
    apply sensor_test_values_Ok in Hv as [-> _]. lia.
Qed.

(** When the loop over the varied sensors returns, and when it raises. *)
Lemma sensor_value_combinations_cases vary_sensors combos :
  match sensor_value_combinations tt vary_sensors combos with
  | Ok _ =>
      ∀ s info th, s ∈ vary_sensors → tt_sensor_readings tt !! s = Some info →
                   th ∈ thresholds info → ∃ t, th = Some (TNum t)
  | Raise e =>
      e = TypeError "unsupported operand type(s) for -"
      ∧ ∃ s info th, s ∈ vary_sensors
                     ∧ tt_sensor_readings tt !! s = Some info
                     ∧ th ∈ thresholds info ∧ ∀ t, th ≠ Some (TNum t)
  end.
Proof.
  revert combos. induction vary_sensors as [|s rest IH]; intros combos; simpl.
  - by intros ??? ?%elem_of_nil.
  - destruct (tt_sensor_readings tt !! s) as [info|] eqn:Hs.
    + destruct (sensor_test_values info) as [values|e] eqn:Hv; simpl.
      * specialize (IH (extend_combinations s values combos)).
        destruct (sensor_value_combinations tt rest _) as [scs|e].
        -- intros s' info' th [->|Hin]%elem_of_cons Hs' Hth; [|by eauto].
           rewrite Hs in Hs'. injection Hs' as <-.
           apply sensor_test_values_Ok in Hv as (_ & Hnum & _). auto.
        -- destruct IH as (-> & s' & info' & th & ? & ? & ? & ?).
           split; [done|]. exists s', info', th. split; [by right|done].
      * apply sensor_test_values_Raise in Hv as [(th & Hth & Hnot) ->].
        split; [done|]. exists s, info, th. split; [by left|done].
    + specialize (IH combos).
      destruct (sensor_value_combinations tt rest combos) as [scs|e].
      * intros s' info' th [->|Hin]%elem_of_cons Hs' Hth; [congruence|eauto].
      * destruct IH as (-> & s' & info' & th & ? & ? & ? & ?).
        split; [done|]. exists s', info', th. split; [by right|done].
Qed.

End SensorCombinationFacts.

(** X11 -- how many test cases.  When [generate_test_cases] returns, the
    number of cases is the number of observation combinations, [2 ^ k] for
    the [k] varied names, times the number of sensor combinations: the
    product, over the varied sensors that are registered, of three values per
    threshold plus one for "no reading".  A varied sensor that is not
    registered is skipped. *)
Theorem generated_case_count (tt : TruthTable)
    (vary_observations : list string)
    (fixed_observations : list (string * bool)) (vary_sensors : list string)
    (fixed_sensor_values : list (string * Qc)) (cases : list Inputs) :
  generate_test_cases tt vary_observations fixed_observations vary_sensors
    fixed_sensor_values = Ok cases →
  length cases
  = 2 ^ length (if bool_decide (vary_observations = [])
                   && bool_decide (fixed_observations = [])
                then elements (tt_observations tt) else vary_observations)
    * sensor_combination_count tt vary_sensors.
Proof.
  intros (scs & Hscs & ->)%generate_test_cases_Ok.
  apply sensor_value_combinations_length in Hscs. simpl in Hscs.
  rewrite <-observation_combinations_length.
  replace (sensor_combination_count tt vary_sensors) with (length scs) by lia.
  induction (observation_combinations _) as [|oc ocs IH]; [done|].
  rewrite bind_cons, length_app, IH. simpl. f_equal.
  clear. induction scs as [|sc scs IH]; [done|].
  rewrite bind_cons, length_app, IH. done.
Qed.

Lemma generated_case_count_witness :
  ∃ cases,
    generate_test_cases battery_table ["No Music"] []
      ["battery_voltage"; "humidity"] [] = Ok cases
    ∧ length cases = 8.
Proof.
  eexists. split; [by vm_compute|].
  exact (generated_case_count battery_table ["No Music"] []
           ["battery_voltage"; "humidity"] [] _ eq_refl).
Defined.

(** X12 -- thresholds that are no numbers.  [generate_test_cases] returns
    exactly when every threshold of every varied, registered sensor is a
    number; a threshold that is a list (as for the operator [in]) or null
    makes it raise a [TypeError], and it raises nothing else. *)
Theorem generate_test_cases_returns_iff (tt : TruthTable)
    (vary_observations : list string)
    (fixed_observations : list (string * bool)) (vary_sensors : list string)
    (fixed_sensor_values : list (string * Qc)) :
  ((∃ cases,
      generate_test_cases tt vary_observations fixed_observations vary_sensors
        fixed_sensor_values = Ok cases)
   ↔ ∀ s info th, s ∈ vary_sensors → tt_sensor_readings tt !! s = Some info →
                  th ∈ thresholds info → ∃ t, th = Some (TNum t))
  ∧ ∀ e, generate_test_cases tt vary_observations fixed_observations
           vary_sensors fixed_sensor_values = Raise e →
         e = TypeError "unsupported operand type(s) for -".
Proof.
  pose proof (sensor_value_combinations_cases tt vary_sensors [∅]) as Hcases.
  unfold generate_test_cases.
  destruct (sensor_value_combinations tt vary_sensors [∅]) as [scs|e]; simpl.
  - split; [|done]. split; [done|by eexists].
  - destruct Hcases as (-> & s & info & th & Hs & Hinfo & Hth & Hnot).
    split; [|by intros ? [= <-]]. split; [by intros [? ?]|].
    intros Hnum. destruct (Hnum s info th Hs Hinfo Hth) as [t ->].
    by destruct (Hnot t).
Qed.

Section FixedSensorFacts.

Implicit Types (m : gmap string Qc) (fixed : list (string * Qc)).

Lemma with_fixed_sensors_other m fixed k :
  k ∉ fixed.*1 → with_fixed_sensors m fixed !! k = m !! k.
Proof.
  unfold with_fixed_sensors. revert m.
  induction fixed as [|[k' v'] fixed IH]; intros m Hk; simpl; [done|].
  apply not_elem_of_cons in Hk as [Hne Hk]. simpl in Hne.
  rewrite IH by done. by rewrite lookup_insert_ne.
Qed.

Lemma with_fixed_sensors_fixed m fixed k v :
  NoDup fixed.*1 → (k, v) ∈ fixed → with_fixed_sensors m fixed !! k = Some v.
Proof.
  unfold with_fixed_sensors. revert m.
  induction fixed as [|[k' v'] fixed IH]; intros m Hnd Hin; simpl.
  - by apply elem_of_nil in Hin.
  - apply NoDup_cons in Hnd as [Hk' Hnd].
    apply elem_of_cons in Hin as [[= -> ->]|Hin]; [|by apply IH].
    pose proof (with_fixed_sensors_other (<[k':=v']> m) fixed k' Hk') as Hother.
    unfold with_fixed_sensors in Hother.
    by rewrite Hother, lookup_insert_eq.
Qed.

End FixedSensorFacts.

Section VariedSensorFacts.

Variable tt : TruthTable.

(** A value that [generate_test_cases] may give to the varied sensor [k]. *)
Local Abbreviation test_value k v :=
  (∃ info t, tt_sensor_readings tt !! k = Some info
             ∧ Some (TNum t) ∈ thresholds info
             ∧ (v = float_sub t tenth ∨ v = float_add t tenth ∨ v = t)).

Lemma sensor_value_combinations_values vary_sensors combos sensor_combos m :
  sensor_value_combinations tt vary_sensors combos = Ok sensor_combos →
  m ∈ sensor_combos →
  ∃ m0, m0 ∈ combos
        ∧ ∀ k, m !! k = m0 !! k
               ∨ (k ∈ vary_sensors ∧ ∃ v, m !! k = Some v ∧ test_value k v).
Proof.
  revert combos. induction vary_sensors as [|s rest IH]; intros combos; simpl.
  - intros [= <-] Hm. exists m. auto.
  - destruct (tt_sensor_readings tt !! s) as [info|] eqn:Hs.
    + destruct (sensor_test_values info) as [values|e] eqn:Hv; simpl; [|done].
      intros Hscs Hm. destruct (IH _ Hscs Hm) as (m1 & Hm1 & Hk).
      unfold extend_combinations in Hm1.
      apply list_elem_of_bind in Hm1
        as (m0 & (value & ->%list_elem_of_singleton & Hvalue)%list_elem_of_bind
            & Hm0).
      exists m0. split; [done|]. intros k.
      destruct (Hk k) as [Heq|(Hin & v & Hv' & Htest)];
        [|right; split; [by right|eauto]].
      destruct value as [v|]; [|by left].
      destruct (decide (s = k)) as [->|Hne];
        [|left; by rewrite Heq, lookup_insert_ne].
      right. split; [by left|]. exists v.
      rewrite Heq, lookup_insert_eq. split; [done|].
      apply sensor_test_values_Ok in Hv as (_ & _ & Hvals).
      destruct (Hvals v Hvalue) as (t & ? & ?). by exists info, t.
    + intros Hscs Hm. destruct (IH _ Hscs Hm) as (m0 & Hm0 & Hk).
      exists m0. split; [done|]. intros k.
      destruct (Hk k) as [?|(? & ?)]; [by left|right].
      split; [by right|done].
Qed.

End VariedSensorFacts.

(** The float nearest to 0.3, less the float nearest to 0.1, is
    0.19999999999999998 and not the float nearest to 0.2. *)
Example float_sub_rounds :
  let three_tenths := Q2Qc (5404319552844595 # 18014398509481984) in
  values_around (Some (TNum three_tenths))
  = Ok [Some (Q2Qc (7205759403792793 # 36028797018963968));
        Some (Q2Qc (3602879701896397 # 9007199254740992));
        Some three_tenths]
  ∧ float_sub three_tenths tenth
    ≠ Q2Qc (3602879701896397 # 18014398509481984).
Proof.
  split.
  - unfold values_around. repeat f_equal; apply Qc_is_canon; by vm_compute.
  - intros H. apply (f_equal this) in H. by vm_compute in H.
Qed.

(** X13 -- the sensor values of a generated case.  In every generated test
    case a fixed sensor has its fixed value, also when it is varied as well;
    any other sensor that has a value is a varied, registered sensor, and the
    value is one of its thresholds [t], or the float [t - 0.1] or [t + 0.1]
    as Python rounds it.  The dict of fixed values has each key once. *)
Theorem generated_sensor_values (tt : TruthTable)
    (vary_observations : list string)
    (fixed_observations : list (string * bool)) (vary_sensors : list string)
    (fixed_sensor_values : list (string * Qc)) (cases : list Inputs)
    (case : Inputs) (k : string) :
  NoDup fixed_sensor_values.*1 →
  generate_test_cases tt vary_observations fixed_observations vary_sensors
    fixed_sensor_values = Ok cases →
  case ∈ cases →
  (∀ v, (k, v) ∈ fixed_sensor_values → tc_sensor_values case !! k = Some v)
  ∧ (k ∉ fixed_sensor_values.*1 →
     ∀ v, tc_sensor_values case !! k = Some v →
          k ∈ vary_sensors
          ∧ ∃ info t, tt_sensor_readings tt !! k = Some info
                      ∧ Some (TNum t) ∈ thresholds info
                      ∧ (v = float_sub t tenth ∨ v = float_add t tenth
                         ∨ v = t)).
Proof.
  intros Hnd (scs & Hscs & Hcases)%generate_test_cases_Ok Hcase.
  apply (elem_of_generated _ _ _ _ _ _ Hcases) in Hcase
    as (oc & sc & _ & Hsc & ->). simpl. split.
  - intros v Hv. by apply with_fixed_sensors_fixed.
  - intros Hk v. rewrite with_fixed_sensors_other by done. intros Hv.
    destruct (sensor_value_combinations_values _ _ _ _ _ Hscs Hsc)
      as (m0 & ->%list_elem_of_singleton & Hvalues).
    destruct (Hvalues k) as [Heq|(Hin & v' & Hv' & Htest)].
    + by rewrite Hv, lookup_empty in Heq.
    + rewrite Hv in Hv'. injection Hv' as <-. done.
Qed.

Lemma generated_sensor_values_witness :
  let case := {| tc_observations := ["No Music"];
                 tc_sensor_values :=
                   {[ "battery_voltage" := Q2Qc 12 ]} |} in
  ∃ cases,
    NoDup [("battery_voltage", Q2Qc 12)].*1
    ∧ generate_test_cases battery_table ["No Music"] [] ["battery_voltage"]
        [("battery_voltage", Q2Qc 12)] = Ok cases
    ∧ case ∈ cases
    ∧ tc_sensor_values case !! "battery_voltage" = Some (Q2Qc 12).
Proof.
  intros case.
  assert (NoDup [("battery_voltage", Q2Qc 12)].*1) as Hnd
    by (simpl; apply NoDup_singleton).
  eexists. split; [exact Hnd|].
  split; [by vm_compute|].
  assert (case ∈ ((fun obs => mkInputs obs {[ "battery_voltage" := Q2Qc 12 ]})
                  <$> [[]; []; []; []; ["No Music"]; ["No Music"];
                       ["No Music"]; ["No Music"]])) as Hcase
    by (simpl; do 4 right; left).
  split.
  - vm_compute. vm_compute in Hcase. exact Hcase.
  - refine (proj1 (generated_sensor_values battery_table ["No Music"] []
                     ["battery_voltage"] [("battery_voltage", Q2Qc 12)] _
                     case "battery_voltage" Hnd eq_refl _) _ _).
    + vm_compute. vm_compute in Hcase. exact Hcase.
    + left.
Defined.

Section RunFacts.

Variable engine :
  list string → gmap string Qc → result (list DiagnosticResult).

Lemma filter_nil_iff {A} (P : A → Prop) `{∀ x, Decision (P x)} (l : list A) :
  filter P l = [] ↔ ∀ x, x ∈ l → ¬ P x.
Proof.
  split.
  - intros Hnil x Hx HP.
    assert (x ∈ filter P l) as Hin by by apply list_elem_of_filter.
    rewrite Hnil in Hin. by apply elem_of_nil in Hin.
  - intros Hall. apply elem_of_nil_inv. intros x [HP Hx]%list_elem_of_filter.
    by apply (Hall x).
Qed.

(** The result of a case whose last matching registration is [exp]. *)
Lemma run_test_case_matched tt test_case ds l1 exp l2 :
  engine (tc_observations test_case) (tc_sensor_values test_case) = Ok ds →
  expected_outcomes tt = l1 ++ exp :: l2 →
  spec_exact_match exp test_case →
  (∀ exp', exp' ∈ l2 → ¬ spec_exact_match exp' test_case) →
  run_test_case engine tt test_case
  = Ok {| inputs := test_case;
          diagnosed_failure_modes := to_outcome <$> ds;
          expected_failure_modes := expected exp;
          unexpected_results :=
            filter (fun a => a ∉ expected exp) (to_outcome <$> ds);
          missing_results :=
            filter (fun e => e ∉ to_outcome <$> ds) (expected exp);
          has_surprise :=
            bool_decide
              (0 < length (filter (fun a => a ∉ expected exp)
                             (to_outcome <$> ds)))
            || bool_decide
                 (0 < length (filter (fun e => e ∉ to_outcome <$> ds)
                                (expected exp))) |}.
Proof.
  intros Hds Hl Hm Hno. unfold run_test_case, find_expected.
  rewrite Hds, Hl, (registry_last_match _ _ _ _ _ Hm Hno). done.
Qed.

(** The result of a case that no registration matches. *)
Lemma run_test_case_unmatched tt test_case ds :
  engine (tc_observations test_case) (tc_sensor_values test_case) = Ok ds →
  (∀ exp, exp ∈ expected_outcomes tt → ¬ spec_exact_match exp test_case) →
  run_test_case engine tt test_case
  = Ok {| inputs := test_case;
          diagnosed_failure_modes := to_outcome <$> ds;
          expected_failure_modes := [];
          unexpected_results := [];
          missing_results := [];
          has_surprise := false |}.
Proof.
  intros Hds Hno. unfold run_test_case, find_expected.
  by rewrite Hds, registry_no_match.
Qed.

Lemma run_test_case_inputs tt test_case r :
  run_test_case engine tt test_case = Ok r → inputs r = test_case.
Proof.
  unfold run_test_case. destruct (engine _ _) as [ds|e]; simpl; [|done].
  destruct (find_expected tt test_case). by intros [= <-].
Qed.

End RunFacts.

(** X14 -- what counts as a surprise.  For a case whose diagnosis returns
    and that has a registered expectation, [has_surprise] is false exactly
    when the diagnosed and the expected entries are the same as sets of
    (failure mode, confidence) pairs: their order and repetitions do not
    matter, while the same failure mode with another confidence is both
    unexpected and missing. *)
Theorem surprise_compares_sets
    (engine : list string → gmap string Qc → result (list DiagnosticResult))
    (tt : TruthTable) (test_case : Inputs) (ds : list DiagnosticResult)
    (l1 : list TestCase) (exp : TestCase) (l2 : list TestCase) :
  engine (tc_observations test_case) (tc_sensor_values test_case) = Ok ds →
  expected_outcomes tt = l1 ++ exp :: l2 →
  spec_exact_match exp test_case →
  (∀ exp', exp' ∈ l2 → ¬ spec_exact_match exp' test_case) →
  ∃ r, run_test_case engine tt test_case = Ok r
       ∧ (has_surprise r = false
          ↔ ∀ x, x ∈ to_outcome <$> ds ↔ x ∈ expected exp).
Proof.
  intros Hds Hl Hm Hno. eexists.
  split; [by apply (run_test_case_matched _ _ _ _ _ _ _ Hds Hl Hm Hno)|].
  simpl. rewrite orb_false_iff, <-!not_true_iff_false, !length_pos_nonempty.
  split.
  - intros [Hun Hmiss] x.
    apply dec_stable in Hun, Hmiss.
    rewrite filter_nil_iff in Hun, Hmiss. split; intros Hx.
    + by apply dec_stable, (Hun x).
    + by apply dec_stable, (Hmiss x).
  - intros Hsame. split; intros Hne; apply Hne, filter_nil_iff;
      intros x Hx Hnot; apply Hnot; by apply Hsame.
Qed.

Lemma surprise_compares_sets_witness :
  let exp := expect_low_battery [mkOutcome "Dead Battery" CONFIRMS;
                                 mkOutcome "Dead Battery" CONFIRMS] in
  let tt := {| tt_observations := ∅;
               tt_sensor_readings := ∅;
               expected_outcomes := [exp] |} in
  spec_exact_match exp low_battery_case
  ∧ ∃ r, run_test_case (graph_engine battery_graph) tt low_battery_case = Ok r
         ∧ has_surprise r = false.
Proof.
  intros exp tt.
  assert (spec_exact_match exp low_battery_case) as Hm
    by (apply inputs_match_exact; by vm_compute).
  split; [exact Hm|].
  destruct (surprise_compares_sets (graph_engine battery_graph) tt
              low_battery_case
              (diagnose battery_graph ["No Music"] low_voltage)
              [] exp [] eq_refl eq_refl Hm) as (r & Hr & Hiff).
  { by intros ? ?%elem_of_nil. }
  exists r. split; [exact Hr|]. apply Hiff. intros x.
  assert (to_outcome <$> diagnose battery_graph ["No Music"] low_voltage
          = [mkOutcome "Dead Battery" CONFIRMS]) as -> by by vm_compute.
  simpl. rewrite !elem_of_cons, !elem_of_nil. tauto.
Defined.

(** X15 -- one result per case.  When [run_truth_table] returns, it returns
    as many results as there are cases, in the order of the cases, and each
    result records the inputs of its own case. *)
Theorem run_truth_table_results
    (engine : list string → gmap string Qc → result (list DiagnosticResult))
    (tt : TruthTable) (vary_observations : list string)
    (fixed_observations : list (string * bool)) (vary_sensors : list string)
    (fixed_sensor_values : list (string * Qc)) (cases : list Inputs)
    (results : list TruthTableResult) :
  run_truth_table engine tt vary_observations fixed_observations vary_sensors
    fixed_sensor_values (Some cases) = Ok results →
  length results = length cases ∧ inputs <$> results = cases.
Proof.
  unfold run_truth_table. simpl. intros Hall%for_each_Ok.
  induction Hall as [|tc r cases results Hr Hall [IHlen IHin]]; [done|].
  split; [simpl; by rewrite IHlen|].
  by rewrite fmap_cons, IHin, (run_test_case_inputs _ _ _ _ Hr).
Qed.

Lemma run_truth_table_results_witness :
  let cases := [low_battery_case; mkInputs ["No Music"] good_voltage] in
  ∃ results,
    run_truth_table (graph_engine battery_graph) once_registered [] [] [] []
      (Some cases) = Ok results
    ∧ length results = 2
    ∧ inputs <$> results = cases.
Proof.
  intros cases. eexists. split; [by vm_compute|].
  exact (run_truth_table_results (graph_engine battery_graph) once_registered
           [] [] [] [] cases _ eq_refl).
Defined.

(* ===================================================================== *)
(** * The enumerations' values, and registering expectations *)
(* ===================================================================== *)

Lemma EvidenceStrength_of_value_Some v s :
  EvidenceStrength_of_value v = Some s ↔ v = EvidenceStrength_value s.
Proof.
  unfold EvidenceStrength_of_value. split.
  - repeat case_bool_decide; intros [= <-]; by subst.
  - intros ->. by destruct s.
Qed.

(** X16 -- the operator values.  Every member of [ComparisonOperator] is
    read back from its value, and the only other string that is accepted is
    ["=="], which is read as [EQUALS]: a value run through the enumeration
    comes back unchanged, except that ["=="] comes back as ["="]. *)
Theorem ComparisonOperator_values (v : string) (op : ComparisonOperator) :
  ComparisonOperator_of_value (operator_value op) = Some op
  ∧ (ComparisonOperator_of_value v = Some op
     ↔ v = operator_value op ∨ (v = "==" ∧ op = EQUALS)).
Proof.
  split; [by destruct op|]. unfold ComparisonOperator_of_value. split.
  - repeat case_bool_decide; intros [= <-]; subst; auto.
  - intros [->|[-> ->]]; [by destruct op|done].
Qed.

Section RegisterFacts.

Variable tt : TruthTable.
Variable raw : RawTestCase.

Lemma register_expected_outcome_Ok tt' :
  register_expected_outcome tt raw = Ok tt'
  ↔ ∃ outcomes,
      for_each to_expected_outcome (raw_expected raw) = Ok outcomes
      ∧ tt' = {| tt_observations := tt_observations tt;
                 tt_sensor_readings := tt_sensor_readings tt;
                 expected_outcomes :=
                   expected_outcomes tt
                   ++ [ {| reg_observations := raw_observations raw;
                           reg_sensor_values := raw_sensor_values raw;
                           expected := outcomes |} ] |}.
Proof.
  unfold register_expected_outcome.
  destruct (for_each to_expected_outcome (raw_expected raw)) as [os|e]; simpl.
  - split; [intros [= <-]; by exists os|by intros (? & [= <-] & ->)].
  - split; [done|by intros (? & ? & _)].
Qed.

Lemma to_expected_outcome_Ok o e :
  to_expected_outcome o = Ok e
  ↔ o_failure_mode e = raw_failure_mode o
    ∧ EvidenceStrength_value (o_confidence e) = raw_confidence o.
Proof.
  unfold to_expected_outcome.
  destruct (EvidenceStrength_of_value (raw_confidence o)) as [c|] eqn:E.
  - apply EvidenceStrength_of_value_Some in E. split.
    + by intros [= <-].
    + destruct e as [n c']. simpl. intros [-> Hc]. do 2 f_equal.
      rewrite <-Hc in E. by destruct c, c'.
  - split; [done|]. intros [_ Hc].
    symmetry in Hc. apply EvidenceStrength_of_value_Some in Hc. congruence.
Qed.

End RegisterFacts.

(** X17 -- registering validates the confidences.
    [register_expected_outcome] returns exactly when every expected
    confidence is one of the five values of [EvidenceStrength]; it then adds
    one registration at the end of the registry, holding the expected entries
    as given and in their order, and changes nothing else.  Otherwise it
    raises and registers nothing. *)
Theorem register_expected_outcome_validates (tt : TruthTable)
    (raw : RawTestCase) :
  ((∃ tt', register_expected_outcome tt raw = Ok tt')
   ↔ ∀ o, o ∈ raw_expected raw →
          ∃ s, raw_confidence o = EvidenceStrength_value s)
  ∧ ∀ tt', register_expected_outcome tt raw = Ok tt' →
      tt_observations tt' = tt_observations tt
      ∧ tt_sensor_readings tt' = tt_sensor_readings tt
      ∧ ∃ outcomes,
          expected_outcomes tt'
          = expected_outcomes tt
            ++ [ {| reg_observations := raw_observations raw;
                    reg_sensor_values := raw_sensor_values raw;
                    expected := outcomes |} ]
          ∧ Forall2 (fun o e =>
                       o_failure_mode e = raw_failure_mode o
                       ∧ EvidenceStrength_value (o_confidence e)
                         = raw_confidence o)
                    (raw_expected raw) outcomes.
Proof.
  split.
  - transitivity (∃ outcomes,
                    for_each to_expected_outcome (raw_expected raw)
                    = Ok outcomes).
    + setoid_rewrite register_expected_outcome_Ok. split.
      * intros (tt' & outcomes & Houts & _). by exists outcomes.
      * intros [outcomes Houts]. eauto.
    + rewrite for_each_returns. split; intros Hall o Ho.
      * destruct (Hall o Ho) as [e [_ <-]%to_expected_outcome_Ok]. by eexists.
      * destruct (Hall o Ho) as [c Hc].
        exists {| o_failure_mode := raw_failure_mode o; o_confidence := c |}.
        by apply to_expected_outcome_Ok.
  - intros tt' (outcomes & Houts & ->)%register_expected_outcome_Ok. simpl.
    split; [done|]. split; [done|]. exists outcomes. split; [done|].
    apply for_each_Ok in Houts. eapply Forall2_impl; [done|].
    intros o e. apply to_expected_outcome_Ok.
Qed.

(** X18 -- register, then run.  After an expectation is registered, a case
    whose input matches it exactly is compared with that expectation,
    whatever was registered for the same input before; a case whose input
    does not match it runs as it did before the registration. *)
Theorem register_then_run
    (engine : list string → gmap string Qc → result (list DiagnosticResult))
    (tt tt' : TruthTable) (raw : RawTestCase) (test_case : Inputs) :
  register_expected_outcome tt raw = Ok tt' →
  let matches :=
    (∀ o, o ∈ default [] (raw_observations raw) ↔ o ∈ tc_observations test_case)
    ∧ default ∅ (raw_sensor_values raw) = tc_sensor_values test_case in
  (matches →
   ∀ ds, engine (tc_observations test_case) (tc_sensor_values test_case)
         = Ok ds →
         ∃ r, run_test_case engine tt' test_case = Ok r
              ∧ for_each to_expected_outcome (raw_expected raw)
                = Ok (expected_failure_modes r))
  ∧ (¬ matches →
     run_test_case engine tt' test_case = run_test_case engine tt test_case).
Proof.
  intros (outcomes & Houts & ->)%register_expected_outcome_Ok matches.
  split.
  - intros Hm ds Hds.
    rewrite (run_test_case_matched engine _ test_case ds
               (expected_outcomes tt)
               {| reg_observations := raw_observations raw;
                  reg_sensor_values := raw_sensor_values raw;
                  expected := outcomes |} []); try done.
    + eexists. split; [done|]. exact Houts.
    + by intros ? ?%elem_of_nil.
  - intros Hm. unfold run_test_case, find_expected. simpl.
    rewrite foldl_app. simpl. unfold registry_step at 1.
    destruct (foldl _ _ (expected_outcomes tt)) as [h ex].
    destruct (inputs_match _ test_case) eqn:E; [|done].
    by apply inputs_match_exact in E.
Qed.

Lemma register_then_run_witness :
  let raw := {| raw_observations := Some ["No Music"];
                raw_sensor_values := Some low_voltage;
                raw_expected := [mkRawOutcome "Dead Battery" "confirms"] |} in
  ∃ tt' r,
    register_expected_outcome once_registered raw = Ok tt'
    ∧ run_test_case (graph_engine battery_graph) tt' low_battery_case = Ok r
    ∧ expected_failure_modes r = [mkOutcome "Dead Battery" CONFIRMS]
    ∧ has_surprise r = false.
Proof.
  intros raw.
  destruct (register_expected_outcome once_registered raw) as [tt'|e] eqn:E;
    [|by vm_compute in E].
  destruct (register_then_run (graph_engine battery_graph) once_registered
              tt' raw low_battery_case E) as [Hrun _].
  destruct (Hrun) with (ds := diagnose battery_graph ["No Music"] low_voltage)
    as (r & Hr & Hexp); [|done|].
  { split; [|done]. intros o. simpl. tauto. }
  exists tt', r. split; [done|]. split; [exact Hr|].
  vm_compute in E. injection E as <-.
  vm_compute in Hr. injection Hr as <-. split; by vm_compute.
Defined.

(* ===================================================================== *)
(** * Properties of [scan_graph] *)
(* ===================================================================== *)

Section ScanFacts.

Implicit Types (acc : gmap string SensorInfo) (row : SensorRow)
  (rows : list SensorRow).

(** The thresholds and operators recorded for a sensor name; none when the
    sensor is not registered. *)
Local Abbreviation thresholds_of acc name :=
  (default [] (thresholds <$> acc !! name)).
Local Abbreviation operators_of acc name :=
  (default [] (operators <$> acc !! name)).

Lemma elem_of_append_if_new {A} `{EqDecision A} (x y : A) (l : list A) :
  y ∈ append_if_new x l ↔ y ∈ l ∨ y = x.
Proof.
  unfold append_if_new. case_bool_decide as Hx.
  - split; [by left|]. by intros [?| ->].
  - by rewrite elem_of_app, list_elem_of_singleton.
Qed.

Lemma append_if_new_NoDup {A} `{EqDecision A} (x : A) (l : list A) :
  NoDup l → NoDup (append_if_new x l).
Proof.
  unfold append_if_new. case_bool_decide as Hx; [done|].
  intros Hl. apply NoDup_app. split; [done|].
  split; [|apply NoDup_singleton]. by intros y Hy ->%list_elem_of_singleton.
Qed.

Lemma scan_sensor_lookup acc row name :
  scan_sensor acc row !! name
  = if decide (row_sensor_name row = name)
    then Some {| unit := default (row_unit row) (unit <$> acc !! name);
                 thresholds :=
                   append_if_new (row_threshold row) (thresholds_of acc name);
                 operators :=
                   append_if_new (row_operator row) (operators_of acc name) |}
    else acc !! name.
Proof.
  unfold scan_sensor. case_decide as Hn.
  - subst. rewrite lookup_insert_eq. by destruct (acc !! row_sensor_name row).
  - by rewrite lookup_insert_ne.
Qed.

(** What the loop over the sensor records leaves for one sensor name. *)
Lemma scan_sensors_lookup rows acc name :
  let scanned := foldl scan_sensor acc rows in
  (is_Some (scanned !! name)
   ↔ is_Some (acc !! name) ∨ ∃ row, row ∈ rows ∧ row_sensor_name row = name)
  ∧ (∀ th, th ∈ thresholds_of scanned name
           ↔ th ∈ thresholds_of acc name
             ∨ ∃ row, row ∈ rows ∧ row_sensor_name row = name
                      ∧ row_threshold row = th)
  ∧ (∀ op, op ∈ operators_of scanned name
           ↔ op ∈ operators_of acc name
             ∨ ∃ row, row ∈ rows ∧ row_sensor_name row = name
                      ∧ row_operator row = op)
  ∧ (NoDup (thresholds_of acc name) → NoDup (thresholds_of scanned name))
  ∧ (NoDup (operators_of acc name) → NoDup (operators_of scanned name)).
Proof.
  induction rows as [|row rows IH] using rev_ind; simpl.
  - split; [|split; [|split]].
    + split; [by left|]. by intros [?|(? & ?%elem_of_nil & _)].
    + intros th. split; [by left|]. by intros [?|(? & ?%elem_of_nil & _)].
    + intros op. split; [by left|]. by intros [?|(? & ?%elem_of_nil & _)].
    + done.
  - rewrite foldl_app. simpl. simpl in IH.
    destruct IH as (Hsome & Hth & Hop & Hndt & Hndo).
    rewrite scan_sensor_lookup. case_decide as Hn.
    + subst name. simpl. split; [|split; [|split; [|split]]].
      * split; [intros _; right; exists row|by eexists].
        split; [|done]. apply elem_of_app. right. by left.
      * intros th. rewrite elem_of_append_if_new, Hth. split.
        -- intros [[?|(r & ? & ? & ?)]| ->]; [by left|right..].
           ++ exists r. split; [|done]. apply elem_of_app. by left.
           ++ exists row. split; [|done]. apply elem_of_app. right. by left.
        -- intros [?|(r & [?| ->%list_elem_of_singleton]%elem_of_app & ? & <-)];
             [left; by left|left; right; by exists r|by right].
      * intros op. rewrite elem_of_append_if_new, Hop. split.
        -- intros [[?|(r & ? & ? & ?)]| ->]; [by left|right..].
           ++ exists r. split; [|done]. apply elem_of_app. by left.
           ++ exists row. split; [|done]. apply elem_of_app. right. by left.
        -- intros [?|(r & [?| ->%list_elem_of_singleton]%elem_of_app & ? & <-)];
             [left; by left|left; right; by exists r|by right].
      * intros ?. by apply append_if_new_NoDup, Hndt.
      * intros ?. by apply append_if_new_NoDup, Hndo.
    + split; [|split; [|split; [|done]]].
      * rewrite Hsome. split.
        -- intros [?|(r & ? & ?)]; [by left|right]. exists r.
           split; [|done]. apply elem_of_app. by left.
        -- intros [?|(r & [?| ->%list_elem_of_singleton]%elem_of_app & ?)];
             [by left|right; by exists r|done].
      * intros th. rewrite Hth. split.
        -- intros [?|(r & ? & ? & ?)]; [by left|right]. exists r.
           split; [|done]. apply elem_of_app. by left.
        -- intros [?|(r & [?| ->%list_elem_of_singleton]%elem_of_app & ? & ?)];
             [by left|right; by exists r|done].
      * intros op. rewrite Hop. split.
        -- intros [?|(r & ? & ? & ?)]; [by left|right]. exists r.
           split; [|done]. apply elem_of_app. by left.
        -- intros [?|(r & [?| ->%list_elem_of_singleton]%elem_of_app & ? & ?)];
             [by left|right; by exists r|done].
Qed.

(** A record whose sensor, threshold and operator are already recorded
    changes nothing. *)
Lemma scan_sensor_absorbed acc row :
  is_Some (acc !! row_sensor_name row) →
  row_threshold row ∈ thresholds_of acc (row_sensor_name row) →
  row_operator row ∈ operators_of acc (row_sensor_name row) →
  scan_sensor acc row = acc.
Proof.
  intros [info Hinfo] Hth Hop. unfold scan_sensor.
  rewrite Hinfo in *. simpl in *. unfold append_if_new.
  rewrite !bool_decide_eq_true_2 by done.
  apply insert_id. rewrite Hinfo. by destruct info.
Qed.

Lemma scan_sensors_absorbed rows acc :
  (∀ row, row ∈ rows →
          is_Some (acc !! row_sensor_name row)
          ∧ row_threshold row ∈ thresholds_of acc (row_sensor_name row)
          ∧ row_operator row ∈ operators_of acc (row_sensor_name row)) →
  foldl scan_sensor acc rows = acc.
Proof.
  induction rows as [|row rows IH]; intros Hall; simpl; [done|].
  destruct (Hall row) as (? & ? & ?); [by left|].
  rewrite scan_sensor_absorbed by done.
  apply IH. intros ??. apply Hall. by right.
Qed.

Lemma scan_observations_elem (names : list string) (s : gset string) o :
  o ∈ foldl (fun observations name => {[ name ]} ∪ observations) s names
  ↔ o ∈ s ∨ o ∈ names.
Proof.
  revert s. induction names as [|n names IH]; intros s; simpl.
  - rewrite elem_of_nil. tauto.
  - rewrite IH, elem_of_union, elem_of_singleton, elem_of_cons. tauto.
Qed.

End ScanFacts.

(** X19 -- what a scan registers.  After [scan_graph] the truth table knows
    the observations it knew before and the names of all observation nodes;
    for every sensor name it knows the thresholds it knew before and those of
    the evidence edges from a sensor of that name to a failure mode, each
    threshold once if it held each once before.  The registered expectations
    are untouched. *)
Theorem scan_graph_registers (sensor_unit : Node → option string) (g : Graph)
    (tt : TruthTable) (name : string) :
  let tt' := scan_graph sensor_unit g tt in
  (name ∈ tt_observations tt'
   ↔ name ∈ tt_observations tt
     ∨ ∃ n, n ∈ nodes g ∧ node_type n = ObservationT ∧ node_name n = name)
  ∧ (∀ th, th ∈ default [] (thresholds <$> tt_sensor_readings tt' !! name)
           ↔ th ∈ default [] (thresholds <$> tt_sensor_readings tt !! name)
             ∨ ∃ e, e ∈ evidence g
                    ∧ node_type (e_source e) = SensorReadingT
                    ∧ node_type (e_target e) = FailureModeT
                    ∧ node_name (e_source e) = name
                    ∧ e_threshold e = th)
  ∧ (NoDup (default [] (thresholds <$> tt_sensor_readings tt !! name)) →
     NoDup (default [] (thresholds <$> tt_sensor_readings tt' !! name)))
  ∧ expected_outcomes tt' = expected_outcomes tt.
Proof.
  intros tt'. subst tt'. unfold scan_graph. simpl.
  destruct (scan_sensors_lookup (sensor_rows sensor_unit g)
              (tt_sensor_readings tt) name) as (_ & Hth & _ & Hnd & _).
  split; [|split; [|split; [exact Hnd|done]]].
  - rewrite scan_observations_elem. unfold observation_names.
    rewrite list_elem_of_fmap. split.
    + intros [?|(n & -> & [? ?]%list_elem_of_filter)]; [by left|right].
      by exists n.
    + intros [?|(n & ? & ? & <-)]; [by left|right].
      exists n. split; [done|]. by apply list_elem_of_filter.
  - intros th. rewrite Hth. unfold sensor_rows. split.
    + intros [?|(row & (e & -> & [[??]?]%list_elem_of_filter)%list_elem_of_fmap
                 & Hn & Ht)]; [by left|right]. simpl in *. by exists e.
    + intros [?|(e & ? & ? & ? & <- & <-)]; [by left|right].
      eexists. split;
        [apply (list_elem_of_fmap_2 _ _ e); by apply list_elem_of_filter|done].
Qed.

(** X20 -- scanning twice.  A second [scan_graph] of the same graph changes
    nothing: no observation, threshold or operator is registered twice. *)
Theorem scan_graph_idempotent (sensor_unit : Node → option string) (g : Graph)
    (tt : TruthTable) :
  scan_graph sensor_unit g (scan_graph sensor_unit g tt)
  = scan_graph sensor_unit g tt.
Proof.
  unfold scan_graph. simpl. f_equal.
  - apply set_eq. intros o. rewrite !scan_observations_elem. tauto.
  - apply scan_sensors_absorbed. intros row Hrow.
    destruct (scan_sensors_lookup (sensor_rows sensor_unit g)
                (tt_sensor_readings tt) (row_sensor_name row))
      as (Hsome & Hth & Hop & _).
    split; [apply Hsome; right; by exists row|].
    split; [apply Hth|apply Hop]; right; by exists row.
Qed.

(** X21 -- scan, then generate.  On a fresh truth table, [scan_graph]
    followed by [generate_test_cases] without arguments yields one test case
    per set of observation names of the graph, [2 ^ n] cases for [n] distinct
    names, none of them with a sensor value. *)
Theorem scan_then_generate (sensor_unit : Node → option string) (g : Graph) :
  ∃ cases,
    generate_test_cases (scan_graph sensor_unit g empty_table) [] [] [] []
    = Ok cases
    ∧ length cases
      = 2 ^ size (list_to_set (observation_names g) : gset string)
    ∧ ∀ case, case ∈ cases → tc_sensor_values case = ∅.
Proof.
  eexists. split; [reflexivity|].
  rewrite (bool_decide_eq_true_2 (@nil string = [])) by done.
  rewrite (bool_decide_eq_true_2 (@nil (string * bool) = [])) by done.
  cbn [andb].
  assert (tt_observations (scan_graph sensor_unit g empty_table)
          = list_to_set (observation_names g)) as ->.
  { apply set_eq. intros o. unfold scan_graph. simpl.
    rewrite scan_observations_elem, elem_of_list_to_set, elem_of_empty.
    tauto. }
  set (names := elements (list_to_set (observation_names g) : gset string)).
  split.
  - change (size (list_to_set (observation_names g) : gset string))
      with (length names).
    rewrite <-(observation_combinations_length names).
    induction (observation_combinations names) as [|oc ocs IH]; [done|].
    rewrite bind_cons, length_app, IH. done.
  - intros case (oc & (sc & ->%list_elem_of_singleton
                       & ->%list_elem_of_singleton)%list_elem_of_bind
                 & _)%list_elem_of_bind.
    done.
Qed.

(* ===================================================================== *)
(** * Facts about [explain_diagnosis] *)
(* ===================================================================== *)

Lemma for_each_elem {A B} (f : A → result B) (l : list A) (ys : list B) :
  for_each f l = Ok ys → ∀ y, y ∈ ys ↔ ∃ x, x ∈ l ∧ f x = Ok y.
Proof.
  revert ys. induction l as [|x l IH]; intros ys; simpl.
  - intros [= <-] y. split; [by intros ?%elem_of_nil|].
    by intros (? & ?%elem_of_nil & _).
  - destruct (f x) as [y0|e] eqn:Hx; [|done]. simpl.
    destruct (for_each f l) as [ys'|e] eqn:Hl; [|done]. simpl.
    intros [= <-] y. rewrite elem_of_cons, (IH ys' eq_refl y). split.
    + intros [->|(x' & ? & ?)]; [exists x; split; [by left|done]|].
      exists x'. split; [by right|done].
    + intros (x' & [->|?]%elem_of_cons & Hy); [left; congruence|].
      right. by exists x'.
Qed.

Lemma elem_of_concat {A} (x : A) (ls : list (list A)) :
  x ∈ concat ls ↔ ∃ l, x ∈ l ∧ l ∈ ls.
Proof.
  induction ls as [|l ls IH]; simpl.
  - split; [by intros ?%elem_of_nil|by intros (? & _ & ?%elem_of_nil)].
  - rewrite elem_of_app, IH. split.
    + intros [?|(l' & ? & ?)]; [exists l; split; [done|by left]|].
      exists l'. split; [done|by right].
    + intros (l' & ? & [->|?]%elem_of_cons); [by left|right; by exists l'].
Qed.

Lemma validate_threshold_Raise (cls : string)
    (number_of_str : string → option Qc) (th : option Threshold) (x : exn) :
  validate_threshold cls number_of_str th = Raise x →
  x = ValidationError cls
  ∧ ∃ items text, th = Some (TList items)
                  ∧ inl text ∈ items
                  ∧ number_of_str text = None.
Proof.
  destruct th as [[t|items]|]; simpl; [done| |done].
  destruct (for_each _ items) as [numbers|y] eqn:Hnumbers; [done|].
  simpl. intros [= ->].
  apply for_each_Raise_inv in Hnumbers as ([text|v] & Hin & Hraise); [|done].
  destruct (number_of_str text) eqn:Htext; [done|].
  injection Hraise as <-. split; [done|]. by exists items, text.
Qed.

Section ExplainFacts.

Variable number_of_str : string → option Qc.
Variable edge_name : EvidenceLink → option string.
Variable edge_rationale : EvidenceLink → option string.
Variable toString : Qc → string.
Variable g : Graph.
Variable failure_mode_name : string.
Variable observations : list string.
Variable sensor_readings : gmap string Qc.

Local Abbreviation reading_of e := (sensor_readings !! node_name (e_source e)).

(** What the branch that is taken says about the edge. *)
Lemma explain_branch_Some e b :
  explain_branch sensor_readings e = Some b →
  match b with
  | LessTrue =>
      e_operator e = Some "<"
      ∧ Cypher.lt (reading_of e) (e_threshold e) = Some true
  | GreaterTrue =>
      e_operator e = Some ">"
      ∧ Cypher.gt (reading_of e) (e_threshold e) = Some true
  | EqualTrue =>
      e_operator e = Some "="
      ∧ Cypher.eq (reading_of e) (e_threshold e) = Some true
  | LessFalse =>
      e_operator e = Some "<"
      ∧ Cypher.ge (reading_of e) (e_threshold e) = Some true
  | GreaterFalse =>
      e_operator e = Some ">"
      ∧ Cypher.le (reading_of e) (e_threshold e) = Some true
  | EqualFalse =>
      e_operator e = Some "="
      ∧ Cypher.ne (reading_of e) (e_threshold e) = Some true
  end.
Proof.
  unfold explain_branch.
  repeat match goal with
         | |- (if ?c then _ else _) = _ → _ =>
             destruct c eqn:?; [intros [= <-]; simpl; by apply when_operator|]
         end.
  done.
Qed.

Lemma explain_branch_for e s :
  (∃ b, explain_branch sensor_readings e = Some b
        ∧ branch_strength e b = Some s
        ∧ branch_for_or_against b = "for")
  ↔ effective_strength sensor_readings (sensor_map e) = Some s.
Proof.
  rewrite effective_strength_sensor by done. simpl.
  unfold reading. simpl. split.
  - intros (b & Hb%explain_branch_Some & Hs & Hside).
    destruct b; try done; simpl in Hs; tauto.
  - intros [Hs H]. unfold explain_branch.
    destruct (Cypher.is_true (Cypher.and (Cypher.str_eq _ "<") (Cypher.lt _ _)))
      eqn:Hlt; [by exists LessTrue|].
    destruct (Cypher.is_true (Cypher.and (Cypher.str_eq _ ">") (Cypher.gt _ _)))
      eqn:Hgt; [by exists GreaterTrue|].
    destruct (Cypher.is_true (Cypher.and (Cypher.str_eq _ "=") (Cypher.eq _ _)))
      eqn:Heq; [by exists EqualTrue|].
    apply not_true_iff_false in Hlt, Hgt, Heq.
    rewrite when_operator in Hlt, Hgt, Heq. tauto.
Qed.

Lemma explain_branch_against e s :
  (∃ b, explain_branch sensor_readings e = Some b
        ∧ branch_strength e b = Some s
        ∧ branch_for_or_against b = "against")
  ↔ comparison_fails sensor_readings (sensor_map e) = true
    ∧ e_when_false_strength e = Some s.
Proof.
  rewrite comparison_fails_true. simpl. unfold reading. simpl. split.
  - intros (b & Hb%explain_branch_Some & Hs & Hside).
    destruct b; try done; simpl in Hs; tauto.
  - intros [H Hs]. unfold explain_branch.
    destruct (Cypher.is_true (Cypher.and (Cypher.str_eq _ "<") (Cypher.lt _ _)))
      eqn:Hlt.
    { apply when_operator in Hlt as [Ho Hlt].
      destruct H as [[Ho' H]|[[Ho' H]|[Ho' H]]]; rewrite Ho in Ho';
        try discriminate. by destruct (lt_ge_exclusive _ _ Hlt H). }
    destruct (Cypher.is_true (Cypher.and (Cypher.str_eq _ ">") (Cypher.gt _ _)))
      eqn:Hgt.
    { apply when_operator in Hgt as [Ho Hgt].
      destruct H as [[Ho' H]|[[Ho' H]|[Ho' H]]]; rewrite Ho in Ho';
        try discriminate. by destruct (gt_le_exclusive _ _ Hgt H). }
    destruct (Cypher.is_true (Cypher.and (Cypher.str_eq _ "=") (Cypher.eq _ _)))
      eqn:Heq.
    { apply when_operator in Heq as [Ho Heq].
      destruct H as [[Ho' H]|[[Ho' H]|[Ho' H]]]; rewrite Ho in Ho';
        try discriminate. by destruct (eq_ne_exclusive _ _ Heq H). }
    destruct (Cypher.is_true (Cypher.and (Cypher.str_eq _ "<") (Cypher.ge _ _)))
      eqn:Hge; [by exists LessFalse|].
    destruct (Cypher.is_true (Cypher.and (Cypher.str_eq _ ">") (Cypher.le _ _)))
      eqn:Hle; [by exists GreaterFalse|].
    destruct (Cypher.is_true (Cypher.and (Cypher.str_eq _ "=") (Cypher.ne _ _)))
      eqn:Hne; [by exists EqualFalse|].
    apply not_true_iff_false in Hge, Hle, Hne.
    rewrite when_operator in Hge, Hle, Hne. tauto.
Qed.


Local Abbreviation the_sensor_row :=
  (sensor_row edge_name edge_rationale toString sensor_readings).
Local Abbreviation the_observation_row :=
  (observation_row edge_name edge_rationale).
Local Abbreviation the_failure_modes :=
  (explained_failure_modes g failure_mode_name).

(** The query fails on one kind of edge only. *)
Lemma sensor_row_Raise e x :
  is_Some (reading_of e) →
  the_sensor_row e = Raise x
  ↔ x = EngineError "toString"
    ∧ edge_name e = None
    ∧ e_operator e = Some "="
    ∧ ∃ l, e_threshold e = Some (TList l).
Proof.
  intros [v Hv]. unfold sensor_row, sensor_explanation.
  destruct (edge_name e) as [n|]; simpl; [split; [done|by intros (_ & ? & _)]|].
  destruct (explain_branch sensor_readings e) as [b|] eqn:Hb; simpl.
  - apply explain_branch_Some in Hb. rewrite Hv in Hb.
    destruct (e_threshold e) as [[t|l]|] eqn:Hth; simpl.
    + split; [done|]. by intros (_ & _ & _ & l & ?).
    + split.
      * intros [= <-]. destruct b; simpl in Hb; destruct Hb as [Ho Hc];
          try discriminate. eauto.
      * by intros (-> & _).
    + split; [done|]. by intros (_ & _ & _ & l & ?).
  - split; [done|]. intros (_ & _ & Ho & l & Hth). exfalso.
    unfold explain_branch in Hb. rewrite Ho, Hth, Hv in Hb.
    by vm_compute in Hb.
Qed.

(** A record of an observation edge with a strength is converted. *)
Lemma observation_row_converts e s :
  e_when_true_strength e = Some s →
  ∃ x, to_explanation number_of_str (the_observation_row e) = Ok x
       ∧ ex_name x = node_name (e_source e)
       ∧ ex_strength x = s
       ∧ for_or_against x = "for".
Proof.
  intros Hs. unfold to_explanation, observation_row, observation_explanation.
  simpl. rewrite Hs. simpl.
  destruct (edge_name e) as [n|]; simpl; by eexists.
Qed.

(** A comparison with [=] against a list is false. *)
Lemma explain_branch_list e items :
  is_Some (reading_of e) →
  e_operator e = Some "=" →
  e_threshold e = Some (TList items) →
  explain_branch sensor_readings e = Some EqualFalse.
Proof.
  intros [v Hv] Ho Hth. unfold explain_branch. by rewrite Ho, Hth, Hv.
Qed.

(** The conversion of a record of a sensor edge that the query keeps: only
    its threshold may still be refused. *)
Lemma sensor_row_conversion e r :
  is_Some (reading_of e) →
  the_sensor_row e = Ok r →
  is_Some (xr_strength r) →
  ∃ b s, explain_branch sensor_readings e = Some b
         ∧ branch_strength e b = Some s
         ∧ ((∃ x, to_explanation number_of_str r = Ok x
                  ∧ ex_name x = node_name (e_source e)
                  ∧ ex_strength x = s
                  ∧ for_or_against x = branch_for_or_against b)
            ∨ (∃ y, to_explanation number_of_str r = Raise y
                    ∧ validate_threshold "ExplanationEvidence" number_of_str
                        (e_threshold e) = Raise y)).
Proof.
  intros [v Hv]. unfold sensor_row.
  destruct (sensor_explanation _ _ _ e) as [text|?] eqn:Htext; [|done].
  simpl. intros [= <-]. simpl. intros [s Hs].
  destruct (explain_branch sensor_readings e) as [b|] eqn:Hb; [|done].
  simpl in Hs. exists b, s. split; [done|]. split; [done|].
  assert (∃ t, text = Some t) as [t ->].
  { unfold sensor_explanation in Htext.
    destruct (edge_name e) as [n|]; [injection Htext as <-; by eexists|].
    rewrite Hb in Htext. apply explain_branch_Some in Hb.
    rewrite Hv in *.
    destruct (e_threshold e) as [[t|l]|]; simpl in Htext.
    - injection Htext as <-. by eexists.
    - done.
    - destruct b, Hb as [_ Hb]; done. }
  assert (∃ c, e_operator e ≫= ComparisonOperator_of_value = Some c
               ∧ is_Some (e_operator e)) as (c & Hc & [op Hop]).
  { apply explain_branch_Some in Hb.
    destruct b, Hb as [-> _]; by eexists. }
  unfold to_explanation. simpl. rewrite Hs. simpl.
  rewrite Hop in *. simpl in Hc. rewrite Hc. simpl.
  destruct (validate_threshold _ _ (e_threshold e)) as [th|y]; simpl.
  - left. by eexists.
  - right. by eexists.
Qed.

Lemma explanation_rows_elem fm rows r :
  explanation_rows edge_name edge_rationale toString g observations
    sensor_readings fm = Ok rows →
  r ∈ rows ∧ is_Some (xr_strength r)
  ↔ is_Some (xr_strength r)
    ∧ ((∃ e, e ∈ observation_edges g observations fm
             ∧ r = the_observation_row e)
       ∨ (∃ e, e ∈ sensor_edges g sensor_readings fm
               ∧ the_sensor_row e = Ok r)).
Proof.
  unfold explanation_rows.
  destruct (for_each _ (sensor_edges g sensor_readings fm))
    as [srows|?] eqn:Hs; [|done].
  simpl. intros [= <-]. pose proof (for_each_elem _ _ _ Hs r) as Hr.
  rewrite elem_of_app. split.
  - intros [[Ho|Hsr] Hst]; (split; [done|]).
    + left. destruct (observation_edges g observations fm) as [|e es].
      * apply list_elem_of_singleton in Ho as ->. by destruct Hst.
      * apply (list_elem_of_fmap _ (e :: es)) in Ho as (e' & -> & ?).
        by exists e'.
    + right. destruct srows as [|r0 srows].
      * apply list_elem_of_singleton in Hsr as ->. by destruct Hst.
      * by apply Hr.
  - intros [Hst [(e & He & ->)|He]]; (split; [|done]).
    + left. destruct (observation_edges g observations fm) as [|e0 es];
        [by apply elem_of_nil in He|].
      by apply (list_elem_of_fmap_2 _ (e0 :: es)).
    + right. apply Hr in He. destruct srows; [by apply elem_of_nil in He|done].
Qed.

Lemma explain_query_elem rows r :
  explain_query edge_name edge_rationale toString g failure_mode_name
    observations sensor_readings = Ok rows →
  r ∈ rows
  ↔ is_Some (xr_strength r)
    ∧ ∃ fm, fm ∈ the_failure_modes
            ∧ ((∃ e, e ∈ observation_edges g observations fm
                     ∧ r = the_observation_row e)
               ∨ (∃ e, e ∈ sensor_edges g sensor_readings fm
                       ∧ the_sensor_row e = Ok r)).
Proof.
  unfold explain_query.
  destruct (for_each _ the_failure_modes) as [per|?] eqn:Hper; [|done].
  simpl. intros [= <-]. rewrite list_elem_of_filter, elem_of_concat.
  split.
  - intros [Hst (rows & Hr & Hin)].
    apply (for_each_elem _ _ _ Hper) in Hin as (fm & Hfm & Hrows).
    split; [done|]. exists fm. split; [done|].
    by apply (explanation_rows_elem fm rows r Hrows).
  - intros [Hst (fm & Hfm & H)]. split; [done|].
    destruct (proj1 (for_each_returns _ _) (ex_intro _ per Hper) fm Hfm)
      as [rows Hrows].
    exists rows. split.
    + by apply (explanation_rows_elem fm rows r Hrows).
    + apply (for_each_elem _ _ _ Hper). by exists fm.
Qed.

Lemma sensor_edges_reading fm e :
  e ∈ sensor_edges g sensor_readings fm → is_Some (reading_of e).
Proof. by intros [(_ & _ & ?) _]%list_elem_of_filter. Qed.

Local Abbreviation the_explanation :=
  (explain_diagnosis number_of_str edge_name edge_rationale toString g
     failure_mode_name observations sensor_readings).
Local Abbreviation the_query :=
  (explain_query edge_name edge_rationale toString g failure_mode_name
     observations sensor_readings).

Lemma explain_query_sensor_rows rows fm e :
  the_query = Ok rows →
  fm ∈ the_failure_modes →
  e ∈ sensor_edges g sensor_readings fm →
  ∃ r, the_sensor_row e = Ok r.
Proof.
  unfold explain_query. intros Hq Hfm He.
  destruct (for_each _ the_failure_modes) as [per|?] eqn:Hper; [|done].
  destruct (proj1 (for_each_returns _ _) (ex_intro _ per Hper) fm Hfm)
    as [rows' Hrows].
  unfold explanation_rows in Hrows.
  destruct (for_each _ (sensor_edges g sensor_readings fm))
    as [srows|?] eqn:Hs; [|done].
  exact (proj1 (for_each_returns _ _) (ex_intro _ srows Hs) e He).
Qed.

Lemma sensor_row_strength e r :
  the_sensor_row e = Ok r →
  xr_strength r = explain_branch sensor_readings e ≫= branch_strength e.
Proof.
  unfold sensor_row. destruct (sensor_explanation _ _ _ e); [|done].
  simpl. by intros [= <-].
Qed.

(** The entries of an explanation, by the edge they come from. *)
Lemma explain_diagnosis_elem entries x :
  the_explanation = Ok entries →
  x ∈ entries
  ↔ ∃ fm, fm ∈ the_failure_modes
          ∧ ((∃ e, e ∈ observation_edges g observations fm
                   ∧ to_explanation number_of_str (the_observation_row e)
                     = Ok x)
             ∨ (∃ e r, e ∈ sensor_edges g sensor_readings fm
                       ∧ the_sensor_row e = Ok r
                       ∧ to_explanation number_of_str r = Ok x)).
Proof.
  unfold explain_diagnosis.
  destruct the_query as [rows|?] eqn:Hq; [|done]. simpl. intros Hd.
  rewrite (for_each_elem _ _ _ Hd x). split.
  - intros (r & Hr & Hx).
    apply (explain_query_elem _ _ Hq) in Hr
      as [_ (fm & Hfm & [(e & He & ->)|(e & He & Hr)])];
      exists fm; (split; [done|]); [left|right]; eauto.
  - intros (fm & Hfm & [(e & He & Hx)|(e & r & He & Hr & Hx)]).
    + exists (the_observation_row e). split; [|done].
      apply (explain_query_elem _ _ Hq). split.
      * unfold to_explanation in Hx.
        destruct (xr_strength (the_observation_row e)); [by eexists|done].
      * exists fm. split; [done|]. left. by exists e.
    + exists r. split; [|done].
      apply (explain_query_elem _ _ Hq). split.
      * unfold to_explanation in Hx.
        destruct (xr_strength r); [by eexists|done].
      * exists fm. split; [done|]. right. by exists e.
Qed.


Lemma explain_diagnosis_converts entries rows r :
  the_explanation = Ok entries →
  the_query = Ok rows →
  r ∈ rows → ∃ x, to_explanation number_of_str r = Ok x.
Proof.
  unfold explain_diagnosis. intros Hd Hq Hr. rewrite Hq in Hd. simpl in Hd.
  exact (proj1 (for_each_returns _ _) (ex_intro _ entries Hd) r Hr).
Qed.

(** X22 -- the failures of an explanation.  [explain_diagnosis] fails on one
    kind of edge only: a sensor edge of the failure mode whose sensor has a
    reading and that compares with [=] against a list.  If the edge has no
    [name] of its own the query fails ([toString] of a list); if it has one
    and stores a [when_false_strength], pydantic refuses the record when the
    list holds a string that it reads no number from.  In every other case
    [explain_diagnosis] returns. *)
Theorem explain_diagnosis_failure :
  match explain_diagnosis number_of_str edge_name edge_rationale toString g
          failure_mode_name observations sensor_readings with
  | Ok _ =>
      ∀ fm e items,
        fm ∈ explained_failure_modes g failure_mode_name →
        e ∈ sensor_edges g sensor_readings fm →
        e_operator e = Some "=" →
        e_threshold e = Some (TList items) →
        is_Some (edge_name e)
        ∧ (is_Some (e_when_false_strength e) →
           ∀ text, inl text ∈ items → is_Some (number_of_str text))
  | Raise x =>
      ∃ fm e items,
        fm ∈ explained_failure_modes g failure_mode_name
        ∧ e ∈ sensor_edges g sensor_readings fm
        ∧ e_operator e = Some "="
        ∧ e_threshold e = Some (TList items)
        ∧ ((x = EngineError "toString" ∧ edge_name e = None)
           ∨ (x = ValidationError "ExplanationEvidence"
              ∧ is_Some (e_when_false_strength e)
              ∧ ∃ text, inl text ∈ items ∧ number_of_str text = None))
  end.
Proof.
  destruct the_explanation as [entries|x] eqn:Hd.
  - assert (∃ rows, the_query = Ok rows) as [rows Hq].
    { unfold explain_diagnosis in Hd. destruct the_query; [by eexists|done]. }
    intros fm e items Hfm He Ho Hth.
    pose proof (sensor_edges_reading _ _ He) as Hv.
    destruct (explain_query_sensor_rows rows fm e Hq Hfm He) as [r Hr].
    split.
    + destruct (edge_name e) as [n|] eqn:Hn; [by eexists|].
      assert (the_sensor_row e = Raise (EngineError "toString")) as Hraise
        by (apply sensor_row_Raise; eauto).
      congruence.
    + intros [s Hs].
      pose proof (explain_branch_list e items Hv Ho Hth) as Hb.
      assert (xr_strength r = Some s) as Hst
        by by rewrite (sensor_row_strength e r Hr), Hb.
      assert (r ∈ rows) as Hin.
      { apply (explain_query_elem _ _ Hq). split; [by eexists|].
        exists fm. split; [done|]. right. by exists e. }
      destruct (explain_diagnosis_converts entries rows r Hd Hq Hin)
        as [x Hx].
      destruct (sensor_row_conversion e r Hv Hr)
        as (_ & _ & _ & _ & [(x' & Hx' & _)|(y & Hy & Hraise)]);
        [by eexists| |congruence].
      assert (∃ t, validate_threshold "ExplanationEvidence" number_of_str
                     (e_threshold e) = Ok t) as Hvalid.
      { unfold to_explanation in Hx'.
        assert (xr_threshold r = e_threshold e) as Hxr.
        { unfold sensor_row in Hr. destruct (sensor_explanation _ _ _ e);
            [|done]. simpl in Hr. by injection Hr as <-. }
        rewrite Hxr in Hx'.
        destruct (validate_threshold _ _ (e_threshold e)) as [t|y];
          [by eexists|].
        repeat (match type of Hx' with
                | context [match ?c with _ => _ end] => destruct c
                end; simpl in Hx'; try done). }
      intros text Hin'.
      exact (proj1 (validate_threshold_returns _ _ _) Hvalid items text
               Hth Hin').
  - unfold explain_diagnosis in Hd.
    destruct the_query as [rows|y] eqn:Hq; simpl in Hd.
    + apply for_each_Raise_inv in Hd as (r & Hr & Hx).
      apply (explain_query_elem _ _ Hq) in Hr
        as [[s Hs] (fm & Hfm & [(e & He & ->)|(e & He & Hr)])].
      { destruct (observation_row_converts e s Hs) as (x' & Hx' & _).
        congruence. }
      pose proof (sensor_edges_reading _ _ He) as Hv.
      destruct (sensor_row_conversion e r Hv Hr)
        as (b & s' & Hb & Hs' & [(x' & Hx' & _)|(y & Hy & Hraise)]);
        [by eexists|congruence|].
      assert (y = x) as -> by congruence.
      apply validate_threshold_Raise
        in Hraise as (-> & items & text & Hth & Hin & Hnone).
      apply explain_branch_Some in Hb. rewrite Hth in Hb.
      destruct Hv as [v Hv]. rewrite Hv in Hb.
      destruct b, Hb as [Ho Hb]; simpl in Hb; try discriminate.
      exists fm, e, items. repeat split; try done.
      right. repeat split; [by eexists|]. by exists text.
    + injection Hd as ->. unfold explain_query in Hq.
      destruct (for_each _ the_failure_modes) as [per|x'] eqn:Hper; [done|].
      injection Hq as ->.
      apply for_each_Raise_inv in Hper as (fm & Hfm & Hrows).
      unfold explanation_rows in Hrows.
      destruct (for_each _ (sensor_edges g sensor_readings fm))
        as [srows|x'] eqn:Hs; [done|].
      injection Hrows as ->.
      apply for_each_Raise_inv in Hs as (e & He & Hraise).
      apply sensor_row_Raise in Hraise as (-> & ? & ? & items & ?);
        [|by eapply sensor_edges_reading].
      exists fm, e, items. repeat split; try done. by left.
Qed.

(** X23 -- an explanation agrees with the diagnosis.  For a failure mode
    whose name is unique, the entries ['for'] of [explain_diagnosis] are the
    supporting contributions that [diagnose] counts for it, with the same
    strength, the entries ['against'] are its contradicting contributions
    that store a [when_false_strength], and there are no other entries. *)
Theorem explanation_sides (entries : list ExplanationEvidence) (fm : Node)
    (name : string) (s : EvidenceStrength) :
  explain_diagnosis number_of_str edge_name edge_rationale toString g
    failure_mode_name observations sensor_readings
  = Ok entries →
  fm ∈ nodes g →
  node_type fm = FailureModeT →
  node_name fm = failure_mode_name →
  unique_name g fm →
  ((∃ x, x ∈ entries ∧ ex_name x = name ∧ ex_strength x = s
         ∧ for_or_against x = "for")
   ↔ supporting_contribution g observations sensor_readings fm name s)
  ∧ ((∃ x, x ∈ entries ∧ ex_name x = name ∧ ex_strength x = s
           ∧ for_or_against x = "against")
     ↔ contradicting_contribution g observations sensor_readings fm name
         (Some s))
  ∧ ∀ x, x ∈ entries →
         for_or_against x = "for" ∨ for_or_against x = "against".
Proof.
  intros Hd Hfm Hty Hname Huniq.
  assert (fm ∈ the_failure_modes) as Hin by (by apply list_elem_of_filter).
  assert (∀ fm', fm' ∈ the_failure_modes → fm' = fm) as Hone.
  { intros fm' [[??] ?]%list_elem_of_filter. apply Huniq; congruence. }
  assert (∃ rows, the_query = Ok rows) as [rows Hq].
  { unfold explain_diagnosis in Hd. destruct the_query; [by eexists|done]. }
  unfold supporting_contribution, contradicting_contribution.
  rewrite evidence_rows_maps. split; [|split].
  - split.
    + intros (x & Hx & Hn & Hs & Hside).
      apply (explain_diagnosis_elem entries x Hd) in Hx
        as (fm' & Hfm' & [(e & He & Hx)|(e & r & He & Hr & Hx)]);
        apply Hone in Hfm' as ->.
      * exists (observation_map e). rewrite elem_of_app.
        split; [left; by apply list_elem_of_fmap_2|].
        destruct (e_when_true_strength e) as [s'|] eqn:Hs';
          [|by unfold to_explanation, observation_row in Hx; simpl in Hx;
              rewrite Hs' in Hx].
        destruct (observation_row_converts e s' Hs') as (x' & Hx' & ? & ? & ?).
        assert (x' = x) as -> by congruence.
        unfold effective_strength, contradicting_flag. simpl.
        repeat split; congruence.
      * assert (is_Some (xr_strength r)) as Hkept.
        { unfold to_explanation in Hx.
          destruct (xr_strength r); [by eexists|done]. }
        destruct (sensor_row_conversion e r (sensor_edges_reading _ _ He)
                    Hr Hkept)
          as (b & s' & Hb & Hs' & [(x' & Hx' & ? & ? & ?)|(y & Hy & _)]);
          [|congruence].
        assert (x' = x) as -> by congruence.
        assert (effective_strength sensor_readings (sensor_map e) = Some s)
          as Hes.
        { apply explain_branch_for. exists b. repeat split; congruence. }
        exists (sensor_map e). rewrite elem_of_app.
        split; [right; by apply list_elem_of_fmap_2|].
        split; [simpl; congruence|].
        split; [by eapply effective_strength_not_contradicting|done].
    + intros (ev & [(e & -> & He)%list_elem_of_fmap
                   |(e & -> & He)%list_elem_of_fmap]%elem_of_app
              & Hn & _ & Hes).
      * unfold effective_strength in Hes. simpl in Hes, Hn.
        destruct (observation_row_converts e s Hes) as (x & Hx & ? & ? & ?).
        exists x. split; [|repeat split; congruence].
        apply (explain_diagnosis_elem entries x Hd).
        exists fm. split; [done|]. left. by exists e.
      * apply explain_branch_for in Hes as (b & Hb & Hs & Hside).
        destruct (explain_query_sensor_rows rows fm e Hq Hin He) as [r Hr].
        assert (is_Some (xr_strength r)) as Hkept.
        { rewrite (sensor_row_strength e r Hr), Hb. simpl. by eexists. }
        assert (r ∈ rows) as Hrow.
        { apply (explain_query_elem _ _ Hq). split; [done|].
          exists fm. split; [done|]. right. by exists e. }
        destruct (explain_diagnosis_converts entries rows r Hd Hq Hrow)
          as [x0 Hx0].
        destruct (sensor_row_conversion e r (sensor_edges_reading _ _ He)
                    Hr Hkept)
          as (b' & s' & Hb' & Hs' & [(x & Hx & ? & ? & ?)|(y & Hy & _)]);
          [|congruence].
        assert (b' = b) as -> by congruence. simpl in Hn.
        exists x. split; [|repeat split; congruence].
        apply (explain_diagnosis_elem entries x Hd).
        exists fm. split; [done|]. right. by exists e, r.
  - split.
    + intros (x & Hx & Hn & Hs & Hside).
      apply (explain_diagnosis_elem entries x Hd) in Hx
        as (fm' & Hfm' & [(e & He & Hx)|(e & r & He & Hr & Hx)]);
        apply Hone in Hfm' as ->.
      * destruct (e_when_true_strength e) as [s'|] eqn:Hs';
          [|by unfold to_explanation, observation_row in Hx; simpl in Hx;
              rewrite Hs' in Hx].
        destruct (observation_row_converts e s' Hs') as (x' & Hx' & ? & ? & ?).
        assert (x' = x) as -> by congruence. congruence.
      * assert (is_Some (xr_strength r)) as Hkept.
        { unfold to_explanation in Hx.
          destruct (xr_strength r); [by eexists|done]. }
        destruct (sensor_row_conversion e r (sensor_edges_reading _ _ He)
                    Hr Hkept)
          as (b & s' & Hb & Hs' & [(x' & Hx' & ? & ? & ?)|(y & Hy & _)]);
          [|congruence].
        assert (x' = x) as -> by congruence.
        assert (comparison_fails sensor_readings (sensor_map e) = true
                ∧ e_when_false_strength e = Some s) as [Hf Hwf].
        { apply explain_branch_against. exists b. repeat split; congruence. }
        exists (sensor_map e). rewrite elem_of_app.
        split; [right; by apply list_elem_of_fmap_2|].
        unfold contradicting_flag, when_false_strength_value. simpl.
        rewrite Hf. repeat split; congruence.
    + intros (ev & [(e & -> & He)%list_elem_of_fmap
                   |(e & -> & He)%list_elem_of_fmap]%elem_of_app
              & Hn & Hflag & Hwf); [done|].
      unfold contradicting_flag, when_false_strength_value in Hflag, Hwf.
      simpl in Hflag, Hwf, Hn.
      destruct (comparison_fails sensor_readings (sensor_map e)) eqn:Hf;
        [|done].
      destruct (proj2 (explain_branch_against e s) (conj Hf Hwf))
        as (b & Hb & Hs & Hside).
      destruct (explain_query_sensor_rows rows fm e Hq Hin He) as [r Hr].
      assert (is_Some (xr_strength r)) as Hkept.
      { rewrite (sensor_row_strength e r Hr), Hb. simpl. by eexists. }
      assert (r ∈ rows) as Hrow.
      { apply (explain_query_elem _ _ Hq). split; [done|].
        exists fm. split; [done|]. right. by exists e. }
      destruct (explain_diagnosis_converts entries rows r Hd Hq Hrow)
        as [x0 Hx0].
      destruct (sensor_row_conversion e r (sensor_edges_reading _ _ He)
                  Hr Hkept)
        as (b' & s' & Hb' & Hs' & [(x & Hx & ? & ? & ?)|(y & Hy & _)]);
        [|congruence].
      assert (b' = b) as -> by congruence.
      exists x. split; [|repeat split; congruence].
      apply (explain_diagnosis_elem entries x Hd).
      exists fm. split; [done|]. right. by exists e, r.
  - intros x (fm' & Hfm' & [(e & He & Hx)|(e & r & He & Hr & Hx)])
             %(explain_diagnosis_elem entries x Hd).
    + destruct (e_when_true_strength e) as [s'|] eqn:Hs';
        [|by unfold to_explanation, observation_row in Hx; simpl in Hx;
            rewrite Hs' in Hx].
      destruct (observation_row_converts e s' Hs') as (x' & Hx' & ? & ? & ?).
      left. congruence.
    + assert (is_Some (xr_strength r)) as Hkept.
      { unfold to_explanation in Hx.
        destruct (xr_strength r); [by eexists|done]. }
      destruct (sensor_row_conversion e r (sensor_edges_reading _ _ He)
                  Hr Hkept)
        as (b & s' & Hb & Hs' & [(x' & Hx' & ? & ? & Hside)|(y & Hy & _)]);
        [|congruence].
      assert (x' = x) as -> by congruence.
      rewrite Hside. destruct b; simpl; auto.
Qed.

(** X24 -- nothing to explain.  For a name that no failure mode of the graph
    bears, and for an input without observations and readings,
    [explain_diagnosis] returns the empty list and does not raise. *)
Theorem explain_nothing :
  (∀ n, n ∈ nodes g → node_type n = FailureModeT →
        node_name n ≠ failure_mode_name)
  ∨ (observations = [] ∧ sensor_readings = ∅) →
  explain_diagnosis number_of_str edge_name edge_rationale toString g
    failure_mode_name observations sensor_readings
  = Ok [].
Proof.
  intros H.
  assert (∀ fm, fm ∈ the_failure_modes →
                observation_edges g observations fm = []
                ∧ sensor_edges g sensor_readings fm = []) as Hnone.
  { intros fm [[Hty Hn] Hfm]%list_elem_of_filter.
    destruct H as [H|[-> ->]]; [by destruct (H fm Hfm Hty)|].
    split; apply filter_nil_iff.
    - intros e _ (_ & _ & ?%elem_of_nil). done.
    - intros e _ (_ & _ & [v Hv]). by rewrite lookup_empty in Hv. }
  assert (∃ rows, the_query = Ok rows) as [rows Hq].
  { unfold explain_query.
    destruct (proj2 (for_each_returns
                       (explanation_rows edge_name edge_rationale toString g
                          observations sensor_readings)
                       the_failure_modes)) as [per ->]; [|by eexists].
    intros fm [_ Hs]%Hnone. unfold explanation_rows. rewrite Hs. simpl.
    by eexists. }
  assert (rows = []) as ->.
  { apply elem_of_nil_inv. intros r Hr.
    apply (explain_query_elem _ _ Hq) in Hr
      as [_ (fm & [Ho Hs]%Hnone & [(e & He & _)|(e & He & _)])].
    - rewrite Ho in He. by apply elem_of_nil in He.
    - rewrite Hs in He. by apply elem_of_nil in He. }
  unfold explain_diagnosis. by rewrite Hq.
Qed.

End ExplainFacts.

Lemma explanation_sides_witness :
  ∃ entries,
    explain_diagnosis (fun _ => None) (fun _ => None) (fun _ => None)
      (fun _ => "12.0")
      weak_battery_graph "Dead Battery" ["No Music"] good_voltage
    = Ok entries
    ∧ dead_battery ∈ nodes weak_battery_graph
    ∧ node_type dead_battery = FailureModeT
    ∧ node_name dead_battery = "Dead Battery"
    ∧ unique_name weak_battery_graph dead_battery
    ∧ ((∃ x, x ∈ entries ∧ ex_name x = "battery_voltage"
             ∧ ex_strength x = SUGGESTS_AGAINST ∧ for_or_against x = "for")
       ↔ supporting_contribution weak_battery_graph ["No Music"] good_voltage
           dead_battery "battery_voltage" SUGGESTS_AGAINST)
    ∧ ((∃ x, x ∈ entries ∧ ex_name x = "battery_voltage"
             ∧ ex_strength x = SUGGESTS_AGAINST
             ∧ for_or_against x = "against")
       ↔ contradicting_contribution weak_battery_graph ["No Music"]
           good_voltage dead_battery "battery_voltage"
           (Some SUGGESTS_AGAINST))
    ∧ ∀ x, x ∈ entries →
           for_or_against x = "for" ∨ for_or_against x = "against".
Proof.
  destruct (explain_diagnosis (fun _ => None) (fun _ => None) (fun _ => None)
              (fun _ => "12.0") weak_battery_graph "Dead Battery"
              ["No Music"] good_voltage) as [entries|x] eqn:Hd;
    [|by vm_compute in Hd].
  assert (dead_battery ∈ nodes weak_battery_graph) as Hin by (by left).
  assert (unique_name weak_battery_graph dead_battery) as Huniq
    by solve_unique_name.
  exists entries. split; [done|].
  split; [exact Hin|]. split; [reflexivity|]. split; [reflexivity|].
  split; [exact Huniq|].
  exact (explanation_sides (fun _ => None) (fun _ => None) (fun _ => None)
           (fun _ => "12.0")
           weak_battery_graph "Dead Battery" ["No Music"] good_voltage
           entries dead_battery "battery_voltage" SUGGESTS_AGAINST
           Hd Hin eq_refl eq_refl Huniq).
Defined.

Lemma explain_nothing_witness :
  ((∀ n, n ∈ nodes weak_battery_graph → node_type n = FailureModeT →
         node_name n ≠ "Blown Speaker")
   ∨ (["No Music"] = [] ∧ good_voltage = ∅))
  ∧ explain_diagnosis (fun _ => None) (fun _ => None) (fun _ => None)
      (fun _ => "12.0")
      weak_battery_graph "Blown Speaker" ["No Music"] good_voltage
    = Ok [].
Proof.
  assert ((∀ n, n ∈ nodes weak_battery_graph → node_type n = FailureModeT →
                node_name n ≠ "Blown Speaker")
          ∨ (["No Music"] = [] ∧ good_voltage = ∅)) as H.
  { left. intros n Hn Hty. cbn in Hn.
    repeat (apply elem_of_cons in Hn as [->|Hn]); try done.
    by apply elem_of_nil in Hn. }
  split; [exact H|].
  exact (explain_nothing (fun _ => None) (fun _ => None) (fun _ => None)
           (fun _ => "12.0")
           weak_battery_graph "Blown Speaker" ["No Music"] good_voltage H).
Defined.

(* ===================================================================== *)
(** * Facts about [get_causal_paths] *)
(* ===================================================================== *)

Lemma causal_trails_S g fuel used n t :
  t ∈ causal_trails g (S fuel) used n
  ↔ ∃ i c, causes g !! i = Some c ∧ c_source c = n ∧ (i ∉ used)
           ∧ (t = [c_target c]
              ∨ ∃ rest, t = c_target c :: rest
                        ∧ rest ∈ causal_trails g fuel (i :: used) (c_target c)).
Proof.
  simpl. rewrite list_elem_of_bind. split.
  - intros ([i c] & Ht & (i' & c' & [= -> ->] & Hc)%elem_of_lookup_imap).
    simpl in Ht. case_decide as Hd; [|by apply elem_of_nil in Ht].
    destruct Hd as [Hs Hi]. exists i', c'. repeat split; try done.
    apply elem_of_cons in Ht as [->|(rest & -> & ?)%list_elem_of_fmap];
      [by left|right; by exists rest].
  - intros (i & c & Hc & Hs & Hi & Ht). exists (i, c). split.
    + simpl. rewrite decide_True by done.
      destruct Ht as [->|(rest & -> & ?)]; [by left|].
      right. by apply list_elem_of_fmap_2.
    + by apply (elem_of_lookup_imap_2 pair).
Qed.

Lemma causal_trails_sound g fuel used n t :
  t ∈ causal_trails g fuel used n → is_trail g used n t.
Proof.
  revert used n t. induction fuel as [|fuel IH]; intros used n t.
  - by intros ?%elem_of_nil.
  - intros (i & c & Hc & Hs & Hi & [->|(rest & -> & Hr)])%causal_trails_S.
    + by eapply trail_last.
    + eapply trail_step; eauto.
Qed.

Lemma bounded_NoDup_length (l : list nat) (n : nat) :
  NoDup l → (∀ i, i ∈ l → (i < n)%nat) → (length l ≤ n)%nat.
Proof.
  intros Hnd Hlt. rewrite <-(length_seq n 0).
  apply submseteq_length, NoDup_submseteq; [done|].
  intros i Hi. apply elem_of_seq. split; [lia|]. by apply Hlt.
Qed.

Lemma causal_trails_complete g used n t :
  is_trail g used n t →
  ∀ fuel, NoDup used →
          (∀ i, i ∈ used → (i < length (causes g))%nat) →
          (length (causes g) ≤ fuel + length used)%nat →
          t ∈ causal_trails g fuel used n.
Proof.
  induction 1 as [used n i c Hc Hs Hi|used n i c rest Hc Hs Hi Hrest IH];
    intros fuel Hnd Hlt Hfuel.
  - assert (length (i :: used) ≤ length (causes g))%nat as Hlen.
    { apply bounded_NoDup_length; [by constructor|].
      intros j [->|?]%elem_of_cons; [by eapply lookup_lt_Some|by apply Hlt]. }
    simpl in Hlen. destruct fuel as [|fuel]; [lia|].
    apply causal_trails_S. exists i, c. repeat split; try done. by left.
  - assert (length (i :: used) ≤ length (causes g))%nat as Hlen.
    { apply bounded_NoDup_length; [by constructor|].
      intros j [->|?]%elem_of_cons; [by eapply lookup_lt_Some|by apply Hlt]. }
    simpl in Hlen. destruct fuel as [|fuel]; [lia|].
    apply causal_trails_S. exists i, c. repeat split; try done. right.
    exists rest. split; [done|]. apply IH.
    + by constructor.
    + intros j [->|?]%elem_of_cons; [by eapply lookup_lt_Some|by apply Hlt].
    + simpl. lia.
Qed.

(** X25 -- all causal paths.  [get_causal_paths] returns the record of
    every path of one or more [CAUSES] edges, no edge taken twice, that leads
    from a failure mode of the given name to an observed observation, and
    nothing else; a cycle of [CAUSES] edges does not stop it. *)
Theorem causal_paths_complete (g : Graph) (name : string)
    (observations : list string) (p : CausalPath) :
  p ∈ get_causal_paths g name observations
  ↔ ∃ fm trail, fm ∈ nodes g
                ∧ node_type fm = FailureModeT
                ∧ node_name fm = name
                ∧ is_trail g [] fm trail
                ∧ causal_path_record observations fm trail = Some p.
Proof.
  unfold get_causal_paths. rewrite list_elem_of_bind. split.
  - intros (fm & (trail & Ht & Hp)%list_elem_of_omap
            & [[??]?]%list_elem_of_filter).
    exists fm, trail. repeat split; try done.
    by eapply causal_trails_sound.
  - intros (fm & trail & Hfm & Hty & Hn & Ht & Hp). exists fm. split.
    + apply list_elem_of_omap. exists trail. split; [|done].
      apply causal_trails_complete; [done|constructor| |simpl; lia].
      by intros i ?%elem_of_nil.
    + by apply list_elem_of_filter.
Qed.

Lemma causal_trails_no_edge g fuel used n :
  (∀ c, c ∈ causes g → c_source c ≠ n) →
  causal_trails g fuel used n = [].
Proof.
  intros Hno. apply elem_of_nil_inv. intros t Ht.
  destruct fuel as [|fuel]; [by apply elem_of_nil in Ht|].
  apply causal_trails_S in Ht as (i & c & Hc & Hs & _).
  by apply (Hno c); [eapply list_elem_of_lookup_2|].
Qed.

(** X26 -- direct causes.  In a graph whose [CAUSES] edges all lead from a
    failure mode to an observation, the causal paths are the single edges
    from the failure mode to the observed observations it causes, and no
    record has an intermediate node. *)
Theorem causal_paths_direct (g : Graph) (name : string)
    (observations : list string) (p : CausalPath) :
  (∀ c, c ∈ causes g → node_type (c_source c) = FailureModeT
                       ∧ node_type (c_target c) = ObservationT) →
  p ∈ get_causal_paths g name observations
  ↔ intermediate_nodes p = []
    ∧ cp_failure_mode p = name
    ∧ cp_observation p ∈ observations
    ∧ ∃ c, c ∈ causes g
           ∧ c_source c ∈ nodes g
           ∧ node_name (c_source c) = name
           ∧ node_name (c_target c) = cp_observation p.
Proof.
  intros Hschema.
  assert (∀ used fm t,
            t ∈ causal_trails g (length (causes g)) used fm
            → ∃ c, c ∈ causes g ∧ c_source c = fm ∧ t = [c_target c])
    as Hone.
  { intros used fm t Ht.
    destruct (length (causes g)) as [|fuel]; [by apply elem_of_nil in Ht|].
    apply causal_trails_S in Ht
      as (i & c & Hc%list_elem_of_lookup_2 & Hs & _ & [->|(rest & _ & Hr)]);
      [by exists c|].
    rewrite causal_trails_no_edge in Hr; [by apply elem_of_nil in Hr|].
    intros c' [Hty' _]%Hschema Heq.
    destruct (Hschema c Hc) as [_ Hty]. congruence. }
  unfold get_causal_paths. rewrite list_elem_of_bind. split.
  - intros (fm & (trail & Ht & Hp)%list_elem_of_omap
            & [[Hty Hn] Hfm]%list_elem_of_filter).
    apply Hone in Ht as (c & Hc & <- & ->).
    unfold causal_path_record in Hp. simpl in Hp.
    case_decide as Hd; [|done]. destruct Hd as [_ Hobs].
    injection Hp as <-. simpl. repeat split; try done.
    by exists c.
  - intros (Hi & Hn & Hobs & c & Hc & Hfm & Hs & Ht).
    exists (c_source c). split.
    + apply list_elem_of_omap. exists [c_target c]. split.
      * apply list_elem_of_lookup_1 in Hc as [i Hi'].
        apply causal_trails_complete; [|constructor| |simpl; lia].
        -- by eapply (trail_last g [] _ i c); [| |apply not_elem_of_nil].
        -- by intros j ?%elem_of_nil.
      * unfold causal_path_record. simpl.
        destruct (Hschema c Hc) as [_ Hty].
        rewrite decide_True by (by rewrite Ht).
        destruct p as [pf po pi]. simpl in *. by subst.
    + apply list_elem_of_filter. by destruct (Hschema c Hc) as [Hty _].
Qed.

Lemma causal_paths_direct_witness :
  (∀ c, c ∈ causes weak_battery_graph →
        node_type (c_source c) = FailureModeT
        ∧ node_type (c_target c) = ObservationT)
  ∧ (mkCausalPath "Dead Battery" "No Music" []
     ∈ get_causal_paths weak_battery_graph "Dead Battery" ["No Music"]
     ↔ intermediate_nodes (mkCausalPath "Dead Battery" "No Music" []) = []
       ∧ cp_failure_mode (mkCausalPath "Dead Battery" "No Music" [])
         = "Dead Battery"
       ∧ cp_observation (mkCausalPath "Dead Battery" "No Music" [])
         ∈ ["No Music"]
       ∧ ∃ c, c ∈ causes weak_battery_graph
              ∧ c_source c ∈ nodes weak_battery_graph
              ∧ node_name (c_source c) = "Dead Battery"
              ∧ node_name (c_target c)
                = cp_observation (mkCausalPath "Dead Battery" "No Music" [])).
Proof.
  assert (∀ c, c ∈ causes weak_battery_graph →
               node_type (c_source c) = FailureModeT
               ∧ node_type (c_target c) = ObservationT) as Hschema.
  { intros c Hc. cbn in Hc.
    apply elem_of_cons in Hc as [->|Hc]; [by split|].
    by apply elem_of_nil in Hc. }
  split; [exact Hschema|].
  exact (causal_paths_direct weak_battery_graph "Dead Battery" ["No Music"]
           (mkCausalPath "Dead Battery" "No Music" []) Hschema).
Defined.

(** A path through a second failure mode names it as intermediate node. *)
Example chain_path :
  get_causal_paths chain_graph "Short Circuit" ["No Music"]
  = [mkCausalPath "Short Circuit" "No Music" ["Blown Fuse"]].
Proof. reflexivity. Qed.

(* ===================================================================== *)
(** * [diagnose] against the contributions of the spec *)
(* ===================================================================== *)

Lemma operator_value_inj op op' :
  operator_value op = operator_value op' → op = op'.
Proof. by destruct op, op'. Qed.

Lemma spec_operator_holds_dec op v th :
  spec_operator_holds op v th ∨ ¬ spec_operator_holds op v th.
Proof.
  destruct op, th as [t|items]; simpl; try (by right; intros []).
  - destruct (decide (v = t)); auto.
  - destruct (Qclt_le_dec v t) as [?|?%Qcle_not_lt]; auto.
  - destruct (Qclt_le_dec t v) as [?|?%Qcle_not_lt]; auto.
  - destruct (Qclt_le_dec t v) as [?%Qclt_not_le|?]; auto.
  - destruct (Qclt_le_dec v t) as [?%Qclt_not_le|?]; auto.
  - destruct (decide (inr v ∈ items)); auto.
Qed.

Section SpecContributionFacts.

Variable g : Graph.
Variable observations : list string.
Variable sensor_readings : gmap string Qc.
Variable fm : Node.
Hypothesis Hevaluates : query_evaluates g sensor_readings fm.

(** Where the query evaluates every comparison, its columns and the spec's
    contributions agree. *)
Lemma spec_contradicting_flagged name s :
  spec_contradicting_contribution g observations sensor_readings fm name s
  ↔ contradicting_contribution g observations sensor_readings fm name s.
Proof.
  split.
  - intros (e & v & op & th & Hin & Ht & Hn & Hty & Hv & Hop & Hth & Hnot
            & Hs).
    rewrite <-Hn in Hv.
    destruct (Hevaluates e Hin Ht Hty) as (op' & t & Hop3 & Hop' & Hth');
      [by eexists|].
    assert (op' = op) as -> by (apply operator_value_inj; congruence).
    assert (th = TNum t) as -> by congruence.
    destruct (sensor_row_false sensor_readings e v t op Hv Hop Hth' Hop3 Hnot)
      as (_ & Hflag & Hvalue).
    exists (sensor_map e). split; [|split; [by rewrite <-Hn|]].
    + apply sensor_edge_row; [done..|by eexists].
    + split; [done|congruence].
  - intros (ev & Hin & Hn & Hflag & Hs).
    rewrite evidence_rows_maps in Hin.
    apply elem_of_app in Hin
      as [(e & -> & He)%list_elem_of_fmap|(e & -> & He)%list_elem_of_fmap];
      [done|].
    apply list_elem_of_filter in He as [(Ht & Hty & [v Hv]) Hin].
    destruct (Hevaluates e Hin Ht Hty) as (op & t & Hop3 & Hop & Hth);
      [by eexists|].
    simpl in Hn. injection Hn as Hn.
    exists e, v, op, (TNum t). rewrite <-Hn.
    repeat split; try done.
    + intros Hholds.
      destruct (sensor_row_true sensor_readings e v t op Hv Hop Hth Hop3
                  Hholds) as (_ & Hflag' & _). congruence.
    + destruct (spec_operator_holds_dec op v (TNum t)) as [Hholds|Hnot].
      * destruct (sensor_row_true sensor_readings e v t op Hv Hop Hth Hop3
                    Hholds) as (_ & Hflag' & _). congruence.
      * destruct (sensor_row_false sensor_readings e v t op Hv Hop Hth Hop3
                    Hnot) as (_ & _ & Hvalue). congruence.
Qed.

Lemma spec_supporting_collected name s :
  spec_supporting_contribution g observations sensor_readings fm name s
  ↔ supporting_contribution g observations sensor_readings fm name s.
Proof.
  split.
  - intros (e & Hin & Ht & Hn & Hs
            & [[Hty Hobs]|(Hty & v & op & th & Hv & Hop & Hth & Hholds)]).
    + exists (observation_map e). rewrite evidence_rows_maps, elem_of_app.
      split; [left; apply list_elem_of_fmap_2, list_elem_of_filter|].
      { rewrite Hn. done. }
      split; [by rewrite <-Hn|]. done.
    + rewrite <-Hn in Hv.
      destruct (Hevaluates e Hin Ht Hty) as (op' & t & Hop3 & Hop' & Hth');
        [by eexists|].
      assert (op' = op) as -> by (apply operator_value_inj; congruence).
      assert (th = TNum t) as -> by congruence.
      destruct (sensor_row_true sensor_readings e v t op Hv Hop Hth' Hop3
                  Hholds) as (Heff & Hflag & _).
      exists (sensor_map e). split; [|split; [by rewrite <-Hn|]].
      * apply sensor_edge_row; [done..|by eexists].
      * split; [done|congruence].
  - intros (ev & Hin & Hn & Hflag & Hs).
    rewrite evidence_rows_maps in Hin.
    apply elem_of_app in Hin
      as [(e & -> & He)%list_elem_of_fmap|(e & -> & He)%list_elem_of_fmap].
    + apply list_elem_of_filter in He as [(Ht & Hty & Hobs) Hin].
      simpl in Hn. injection Hn as Hn. exists e. rewrite <-Hn.
      repeat split; try done. by left.
    + apply list_elem_of_filter in He as [(Ht & Hty & [v Hv]) Hin].
      destruct (Hevaluates e Hin Ht Hty) as (op & t & Hop3 & Hop & Hth);
        [by eexists|].
      simpl in Hn. injection Hn as Hn.
      destruct (spec_operator_holds_dec op v (TNum t)) as [Hholds|Hnot].
      * destruct (sensor_row_true sensor_readings e v t op Hv Hop Hth Hop3
                    Hholds) as (Heff & _).
        exists e. rewrite <-Hn. repeat split; try done; [congruence|].
        right. split; [done|]. by exists v, op, (TNum t).
      * destruct (sensor_row_false sensor_readings e v t op Hv Hop Hth Hop3
                    Hnot) as (Heff & _). congruence.
Qed.

End SpecContributionFacts.

Lemma spec_first_in_precedence_ext (l l' : list EvidenceStrength) :
  (∀ s, s ∈ l ↔ s ∈ l') →
  spec_first_in_precedence l = spec_first_in_precedence l'.
Proof.
  intros Hsame. unfold spec_first_in_precedence.
  by rewrite (filter_ext_in (fun s => s ∈ l) (fun s => s ∈ l') precedence).
Qed.

Lemma evaluated_edge_row (g : Graph) (observations : list string)
    (sensor_readings : gmap string Qc) (fm : Node) (e : EvidenceLink) :
  e ∈ evidence g → e_target e = fm →
  spec_evaluated_edge observations sensor_readings e →
  evidence_rows g observations sensor_readings fm ≠ [].
Proof.
  intros Hin Ht [[Hty Hobs]|[Hty Hv]] Hnil.
  - assert (observation_map e
            ∈ evidence_rows g observations sensor_readings fm) as Hrow.
    { rewrite evidence_rows_maps, elem_of_app. left.
      by apply list_elem_of_fmap_2, list_elem_of_filter. }
    rewrite Hnil in Hrow. by apply elem_of_nil in Hrow.
  - pose proof (sensor_edge_row g observations sensor_readings e fm Hin Ht
                  Hty Hv) as Hrow.
    rewrite Hnil in Hrow. by apply elem_of_nil in Hrow.
Qed.

(** Closes [query_evaluates] on a concrete graph, edge by edge. *)
Ltac solve_query_evaluates :=
  let Hin := fresh "Hin" in
  let Hv := fresh "Hv" in
  intros ? Hin ? ? Hv; cbn in Hin;
  repeat (apply elem_of_cons in Hin as [->|Hin]);
  try (by apply elem_of_nil in Hin);
  try discriminate;
  first
    [ by (exists EQUALS; eexists; split; [rewrite !elem_of_cons; auto|done])
    | by (exists LESS_THAN; eexists;
          split; [rewrite !elem_of_cons; auto|done])
    | by (exists GREATER_THAN; eexists;
          split; [rewrite !elem_of_cons; auto|done])
    | by (destruct Hv as [? Hv]; vm_compute in Hv) ].

(** Closes "no contradicting contribution", in the spec's words, on concrete
    inputs: every evidence edge is inspected. *)
Ltac solve_no_spec_contradiction :=
  let Hin := fresh "Hin" in
  let Hv := fresh "Hv" in
  let Hop := fresh "Hop" in
  let Hth := fresh "Hth" in
  let Hnot := fresh "Hnot" in
  intros ? ? (? & ? & op & ? & Hin & _ & <- & ? & Hv & Hop & Hth & Hnot & _);
  cbn in Hin;
  repeat (apply elem_of_cons in Hin as [->|Hin]);
  try (by apply elem_of_nil in Hin);
  try discriminate;
  try (by vm_compute in Hv);
  vm_compute in Hv; injection Hv as <-;
  injection Hth as <-;
  destruct op; try discriminate;
  apply Hnot; by vm_compute.

(** C1 -- rule-out dominance, broken for [<=] and [>=].  On
    [operator_graph "<="] the reading 12.0 fails [<= 4.0] on an edge whose
    [when_false_strength] is [rules_out]: Dead Battery has a contradicting
    contribution of strength [rules_out], and [diagnose] returns it all the
    same, as inconclusive.  So it does on [operator_graph ">="] with the
    reading 3.5.  The query has a branch for [<], [>] and [=] only. *)
Theorem rule_out_dominance_fails :
  unique_name (operator_graph "<=") dead_battery
  ∧ spec_contradicting_contribution (operator_graph "<=") ["No Music"]
      good_voltage dead_battery "battery_voltage" (Some RULES_OUT)
  ∧ diagnose (operator_graph "<=") ["No Music"] good_voltage
    = [ {| failure_mode := "Dead Battery";
           confidence := INCONCLUSIVE;
           supporting_evidence := ["battery_voltage"];
           contradicting_evidence := [] |} ]
  ∧ unique_name (operator_graph ">=") dead_battery
  ∧ spec_contradicting_contribution (operator_graph ">=") ["No Music"]
      low_voltage dead_battery "battery_voltage" (Some RULES_OUT)
  ∧ diagnose (operator_graph ">=") ["No Music"] low_voltage
    = [ {| failure_mode := "Dead Battery";
           confidence := INCONCLUSIVE;
           supporting_evidence := ["battery_voltage"];
           contradicting_evidence := [] |} ].
Proof.
  split; [solve_unique_name|]. split; [|split; [by vm_compute|]].
  { exists (battery_edge "<=" RULES_OUT), (Q2Qc 12), LESS_THAN_EQUAL,
      (TNum (Q2Qc 4)).
    split; [by left|]. repeat split; try done;
      simpl; by apply (bool_decide_unpack _). }
  split; [solve_unique_name|]. split; [|by vm_compute].
  exists (battery_edge ">=" RULES_OUT), (Q2Qc (7 # 2)), GREATER_THAN_EQUAL,
    (TNum (Q2Qc 4)).
  split; [by left|]. repeat split; try done;
    simpl; by apply (bool_decide_unpack _).
Qed.

(** C2 -- contradiction forces inconclusive, broken for [<=].  On
    [weak_operator_graph "<="] with No Music observed and the reading 12.0,
    Dead Battery has a supporting [confirms] contribution and a
    contradicting [suggests_against] one, and [diagnose] reports [confirms]:
    the query has no branch for [<=], so the contradiction is never
    flagged. *)
Theorem contradiction_forces_inconclusive_fails :
  unique_name (weak_operator_graph "<=") dead_battery
  ∧ spec_supporting_contribution (weak_operator_graph "<=") ["No Music"]
      good_voltage dead_battery "No Music" CONFIRMS
  ∧ spec_contradicting_contribution (weak_operator_graph "<=") ["No Music"]
      good_voltage dead_battery "battery_voltage" (Some SUGGESTS_AGAINST)
  ∧ diagnose (weak_operator_graph "<=") ["No Music"] good_voltage
    = [ {| failure_mode := "Dead Battery";
           confidence := CONFIRMS;
           supporting_evidence := ["No Music"; "battery_voltage"];
           contradicting_evidence := [] |} ].
Proof.
  split; [solve_unique_name|]. split; [|split; [|by vm_compute]].
  - exists (observation_edge no_music dead_battery CONFIRMS).
    split; [by left|]. repeat split; try done. left. split; [done|by left].
  - exists (battery_edge "<=" SUGGESTS_AGAINST), (Q2Qc 12), LESS_THAN_EQUAL,
      (TNum (Q2Qc 4)).
    split; [right; by left|]. repeat split; try done;
      simpl; by apply (bool_decide_unpack _).
Qed.

(** C3 (amended) -- precedence order.  Take a candidate failure mode with at
    least one evidence edge that the aggregator evaluates and no
    contradicting contribution, its sensor edges comparing with [=], [<] or
    [>] against a number.  Let [c] be the first of [confirms], [suggests],
    [suggests_against], [rules_out] among the strengths of its supporting
    contributions, or [inconclusive] if none of them is there.  When [c] is
    [rules_out] the failure mode is not returned; otherwise it is returned,
    and every record named after it reports the confidence [c]. *)
Theorem precedence_order (g : Graph) (observations : list string)
    (sensor_readings : gmap string Qc) (fm : Node)
    (present : list EvidenceStrength) :
  unique_name g fm →
  fm ∈ candidates g observations →
  query_evaluates g sensor_readings fm →
  (∃ e, e ∈ evidence g ∧ e_target e = fm
        ∧ spec_evaluated_edge observations sensor_readings e) →
  (∀ name s, ¬ spec_contradicting_contribution g observations
                 sensor_readings fm name s) →
  (∀ s, s ∈ present
        ↔ ∃ name, spec_supporting_contribution g observations
                    sensor_readings fm name s) →
  let c := spec_first_in_precedence present in
  if decide (c = RULES_OUT)
  then node_name fm
       ∉ failure_mode <$> diagnose g observations sensor_readings
  else (∃ r, r ∈ diagnose g observations sensor_readings
             ∧ failure_mode r = node_name fm)
       ∧ ∀ r, r ∈ diagnose g observations sensor_readings →
              failure_mode r = node_name fm → confidence r = c.
Proof.
  intros Huniq Hcand Hevaluates (e & Hin & Ht & He) Hno Hpresent c.
  assert (c = spec_first_in_precedence
                (collect_strengths sensor_readings
                   (evidence_rows g observations sensor_readings fm)))
    as ->.
  { apply spec_first_in_precedence_ext. intros s.
    rewrite Hpresent, strengths_are_supporting.
    by setoid_rewrite (spec_supporting_collected g observations
                         sensor_readings fm Hevaluates). }
  apply precedence_of_strengths; [done|done|by eapply evaluated_edge_row|].
  intros name s Hc. apply (Hno name s).
  by apply spec_contradicting_flagged.
Qed.

Lemma precedence_order_witness :
  unique_name battery_graph dead_battery
  ∧ dead_battery ∈ candidates battery_graph ["No Music"]
  ∧ query_evaluates battery_graph low_voltage dead_battery
  ∧ (∃ e, e ∈ evidence battery_graph ∧ e_target e = dead_battery
          ∧ spec_evaluated_edge ["No Music"] low_voltage e)
  ∧ (∀ name s, ¬ spec_contradicting_contribution battery_graph ["No Music"]
                   low_voltage dead_battery name s)
  ∧ (∀ s, s ∈ [CONFIRMS]
          ↔ ∃ name, spec_supporting_contribution battery_graph ["No Music"]
                      low_voltage dead_battery name s)
  ∧ (∃ r, r ∈ diagnose battery_graph ["No Music"] low_voltage
          ∧ failure_mode r = node_name dead_battery)
  ∧ ∀ r, r ∈ diagnose battery_graph ["No Music"] low_voltage →
         failure_mode r = node_name dead_battery → confidence r = CONFIRMS.
Proof.
  assert (unique_name battery_graph dead_battery) as Huniq
    by solve_unique_name.
  assert (dead_battery ∈ candidates battery_graph ["No Music"]) as Hcand
    by (vm_compute; left).
  assert (query_evaluates battery_graph low_voltage dead_battery) as Hev
    by solve_query_evaluates.
  assert (∃ e, e ∈ evidence battery_graph ∧ e_target e = dead_battery
               ∧ spec_evaluated_edge ["No Music"] low_voltage e) as Hedge.
  { exists (battery_edge "<" RULES_OUT). split; [by left|]. split; [done|].
    right. split; [done|]. by exists (Q2Qc (7 # 2)). }
  assert (∀ name s, ¬ spec_contradicting_contribution battery_graph
                        ["No Music"] low_voltage dead_battery name s) as Hno
    by solve_no_spec_contradiction.
  assert (∀ s, s ∈ [CONFIRMS]
               ↔ ∃ name, spec_supporting_contribution battery_graph
                           ["No Music"] low_voltage dead_battery name s)
    as Hpresent.
  { intros s. rewrite list_elem_of_singleton. split.
    - intros ->. exists "battery_voltage".
      exists (battery_edge "<" RULES_OUT). split; [by left|].
      repeat split; try done. right. split; [done|].
      exists (Q2Qc (7 # 2)), LESS_THAN, (TNum (Q2Qc 4)).
      repeat split; try done; by apply (bool_decide_unpack _).
    - intros (name & e & Hin & _ & _ & Hs & _). cbn in Hin.
      apply elem_of_cons in Hin as [->|Hin]; [by injection Hs|].
      by apply elem_of_nil in Hin. }
  split; [exact Huniq|]. split; [exact Hcand|]. split; [exact Hev|].
  split; [exact Hedge|]. split; [exact Hno|]. split; [exact Hpresent|].
  exact (precedence_order battery_graph ["No Music"] low_voltage dead_battery
           [CONFIRMS] Huniq Hcand Hev Hedge Hno Hpresent).
Defined.

(** C3 as stated fails twice.  On [led_graph], with No Music and the power
    LED both observed, Dead Battery is a candidate whose only contribution is
    a supporting [rules_out]: none of [confirms], [suggests],
    [suggests_against] is present, and no record, inconclusive or other, is
    returned for it.  On [battery_graph], with No Music observed and no
    reading, Dead Battery is a candidate without any contribution, and it is
    not returned either. *)
Lemma precedence_order_counterexample :
  let observations := ["No Music"; "Power LED On"] in
  (dead_battery ∈ candidates led_graph observations
   ∧ (∀ name s, ¬ spec_contradicting_contribution led_graph observations ∅
                    dead_battery name s)
   ∧ spec_supporting_contribution led_graph observations ∅ dead_battery
       "Power LED On" RULES_OUT
   ∧ (∀ name s, spec_supporting_contribution led_graph observations ∅
                  dead_battery name s → s = RULES_OUT)
   ∧ diagnose led_graph observations ∅ = [])
  ∧ (dead_battery ∈ candidates battery_graph ["No Music"]
     ∧ (∀ name s, ¬ spec_contradicting_contribution battery_graph
                      ["No Music"] ∅ dead_battery name s)
     ∧ (∀ name s, ¬ spec_supporting_contribution battery_graph ["No Music"]
                      ∅ dead_battery name s)
     ∧ diagnose battery_graph ["No Music"] ∅ = []).
Proof.
  intros observations. split.
  - split; [vm_compute; left|]. split; [solve_no_spec_contradiction|].
    split.
    { exists (observation_edge power_led_on dead_battery RULES_OUT).
      split; [by left|]. repeat split; try done.
      left. split; [done|]. right. by left. }
    split; [|by vm_compute].
    intros name s (e & Hin & _ & _ & Hs & _). cbn in Hin.
    apply elem_of_cons in Hin as [->|Hin]; [by injection Hs|].
    by apply elem_of_nil in Hin.
  - split; [vm_compute; left|]. split; [solve_no_spec_contradiction|].
    split; [|by vm_compute].
    intros name s (e & Hin & _ & <- & _ & [[Hty _]|(_ & v & _ & _ & Hv & _)]);
      cbn in Hin;
      (apply elem_of_cons in Hin as [->|Hin];
       [|by apply elem_of_nil in Hin]).
    + done.
    + by vm_compute in Hv.
Qed.

(** X27 -- rule-out dominance, where the query evaluates.  If every sensor
    edge of a failure mode that has a reading compares with [=], [<] or [>]
    against a number, a contradicting contribution of strength [rules_out]
    keeps the failure mode out of the result of [diagnose], whatever
    supports it. *)
Theorem rule_out_dominance (g : Graph) (observations : list string)
    (sensor_readings : gmap string Qc) (fm : Node) (name : string) :
  unique_name g fm →
  query_evaluates g sensor_readings fm →
  spec_contradicting_contribution g observations sensor_readings fm name
    (Some RULES_OUT) →
  node_name fm ∉ failure_mode <$> diagnose g observations sensor_readings.
Proof.
  intros Huniq Hevaluates Hc.
  apply (flagged_rules_out_absent g observations sensor_readings fm name
           Huniq).
  by apply spec_contradicting_flagged.
Qed.

Lemma rule_out_dominance_witness :
  unique_name battery_graph dead_battery
  ∧ query_evaluates battery_graph good_voltage dead_battery
  ∧ spec_contradicting_contribution battery_graph ["No Music"] good_voltage
      dead_battery "battery_voltage" (Some RULES_OUT)
  ∧ node_name dead_battery
    ∉ failure_mode <$> diagnose battery_graph ["No Music"] good_voltage.
Proof.
  assert (unique_name battery_graph dead_battery) as Huniq
    by solve_unique_name.
  assert (query_evaluates battery_graph good_voltage dead_battery) as Hev
    by solve_query_evaluates.
  assert (spec_contradicting_contribution battery_graph ["No Music"]
            good_voltage dead_battery "battery_voltage" (Some RULES_OUT))
    as Hc.
  { exists (battery_edge "<" RULES_OUT), (Q2Qc 12), LESS_THAN,
      (TNum (Q2Qc 4)).
    split; [by left|]. repeat split; try done;
      simpl; by apply (bool_decide_unpack _). }
  split; [exact Huniq|]. split; [exact Hev|]. split; [exact Hc|].
  exact (rule_out_dominance battery_graph ["No Music"] good_voltage
           dead_battery "battery_voltage" Huniq Hev Hc).
Defined.

(** X28 -- contradiction forces inconclusive, where the query evaluates.
    Under the same condition on the sensor edges, a returned record whose
    failure mode has a contradicting contribution, whatever its strength,
    reports [inconclusive], a supporting [confirms] notwithstanding. *)
Theorem contradiction_forces_inconclusive (g : Graph)
    (observations : list string) (sensor_readings : gmap string Qc)
    (fm : Node) (name : string) (s : option EvidenceStrength)
    (r : DiagnosticResult) :
  unique_name g fm →
  query_evaluates g sensor_readings fm →
  r ∈ diagnose g observations sensor_readings →
  failure_mode r = node_name fm →
  spec_contradicting_contribution g observations sensor_readings fm name s →
  confidence r = INCONCLUSIVE.
Proof.
  intros Huniq Hevaluates Hr Hname Hc.
  apply (flagged_contradiction_inconclusive g observations sensor_readings
           fm name s r Huniq Hr Hname).
  by apply spec_contradicting_flagged.
Qed.

Lemma contradiction_forces_inconclusive_witness :
  let r := {| failure_mode := "Dead Battery";
              confidence := INCONCLUSIVE;
              supporting_evidence := ["No Music"; "battery_voltage"];
              contradicting_evidence := ["battery_voltage"] |} in
  unique_name weak_battery_graph dead_battery
  ∧ query_evaluates weak_battery_graph good_voltage dead_battery
  ∧ r ∈ diagnose weak_battery_graph ["No Music"] good_voltage
  ∧ failure_mode r = node_name dead_battery
  ∧ spec_supporting_contribution weak_battery_graph ["No Music"] good_voltage
      dead_battery "No Music" CONFIRMS
  ∧ spec_contradicting_contribution weak_battery_graph ["No Music"]
      good_voltage dead_battery "battery_voltage" (Some SUGGESTS_AGAINST)
  ∧ confidence r = INCONCLUSIVE.
Proof.
  intros r.
  assert (unique_name weak_battery_graph dead_battery) as Huniq
    by solve_unique_name.
  assert (query_evaluates weak_battery_graph good_voltage dead_battery)
    as Hev by solve_query_evaluates.
  assert (r ∈ diagnose weak_battery_graph ["No Music"] good_voltage) as Hr
    by (vm_compute; left).
  assert (spec_contradicting_contribution weak_battery_graph ["No Music"]
            good_voltage dead_battery "battery_voltage"
            (Some SUGGESTS_AGAINST)) as Hc.
  { exists (battery_edge "<" SUGGESTS_AGAINST), (Q2Qc 12), LESS_THAN,
      (TNum (Q2Qc 4)).
    split; [right; by left|]. repeat split; try done;
      simpl; by apply (bool_decide_unpack _). }
  split; [exact Huniq|]. split; [exact Hev|]. split; [exact Hr|].
  split; [reflexivity|]. split; [|split; [exact Hc|]].
  - exists (observation_edge no_music dead_battery CONFIRMS).
    split; [by left|]. repeat split; try done. left. split; [done|by left].
  - exact (contradiction_forces_inconclusive weak_battery_graph ["No Music"]
             good_voltage dead_battery "battery_voltage"
             (Some SUGGESTS_AGAINST) r Huniq Hev Hr eq_refl Hc).
Defined.
